(** * celerite: the GP front end ([celerite/celerite.py])

    A shallow embedding of the [GP] class: the composite parameter bus, the
    dirty/clean cache flag and the evaluation pipeline (log-likelihood,
    prediction, dense matrices), together with the fragment of numpy the
    class relies on.

    Python floats are modelled as real numbers ([R]): arithmetic is exact,
    and the non-finite floats ([inf], [nan]) are not represented.  Arrays
    have at most two dimensions and hold floats: an array of integers is not
    represented, so every statement about an array argument is about an
    array of floats.  A Python call is a function from the
    object state to an outcome (a value or a raised exception) and the state
    the call leaves behind: an exception does not undo the assignments made
    before it.

    The sub-models ([modeling.Model], [terms.Kernel]) and the native solver
    ([_celerite.Solver]) are not part of the file: the former are modelled
    from the data model of the specification, the latter is an interface
    whose numerical routines are parameters, constrained by a contract where
    a statement needs it.  [log_prior] (non-finite floats) and [sample]
    (random numbers) are left out. *)

From Stdlib Require Import Reals Lra Lia String Bool Arith List.
Import ListNotations.
Open Scope R_scope.

(** ** Exceptions and outcomes *)

Inductive exn : Type :=
| RuntimeError (msg : string)
| ValueError (msg : string)
| TypeError (msg : string)
| IndexError (msg : string)
| AttributeError (msg : string)
| OutOfModel (what : string).
(* [OutOfModel] is not a Python exception: it marks a call whose numpy
   result would be an array of more than two dimensions. *)

Inductive res (A : Type) : Type :=
| Ok (a : A)
| Raise (e : exn).
Arguments Ok {A} a.
Arguments Raise {A} e.

Fixpoint res_all {A} (l : list (res A)) : res (list A) :=
  match l with
  | [] => Ok []
  | r :: l' =>
      match r with
      | Raise e => Raise e
      | Ok a => match res_all l' with
                | Raise e => Raise e
                | Ok l'' => Ok (a :: l'')
                end
      end
  end.

Definition is_value_error {A} (r : res A) : bool :=
  match r with Raise (ValueError _) => true | _ => false end.

Definition dimension_mismatch : exn := ValueError "dimension mismatch".
Definition not_sorted : exn := ValueError "the input coordinates must be sorted".
Definition not_computed : exn := RuntimeError "you must call 'compute' first".
Definition no_broadcast : exn :=
  ValueError "operands could not be broadcast together".

(** ** The numpy fragment *)

Module np.

Inductive ndarray : Type :=
| Arr0 (x : R)
| Arr1 (v : list R)
| Arr2 (rows : list (list R)).

Definition ndim (a : ndarray) : nat :=
  match a with Arr0 _ => 0 | Arr1 _ => 1 | Arr2 _ => 2 end.

(* [len(a)] *)
Definition len (a : ndarray) : res nat :=
  match a with
  | Arr0 _ => Raise (TypeError "len() of unsized object")
  | Arr1 v => Ok (List.length v)
  | Arr2 rows => Ok (List.length rows)
  end.

Definition atleast_1d (a : ndarray) : ndarray :=
  match a with Arr0 x => Arr1 [x] | _ => a end.

(* elementwise application of a scalar function *)
Definition map (f : R -> R) (a : ndarray) : ndarray :=
  match a with
  | Arr0 x => Arr0 (f x)
  | Arr1 v => Arr1 (List.map f v)
  | Arr2 rows => Arr2 (List.map (List.map f) rows)
  end.

Fixpoint diff1 (v : list R) : list R :=
  match v with
  | a :: ((b :: _) as tl) => (b - a) :: diff1 tl
  | _ => []
  end.

(* [np.diff(a)]: first differences along the last axis *)
Definition diff (a : ndarray) : res ndarray :=
  match a with
  | Arr0 _ => Raise (ValueError "diff requires input that is at least one dimensional")
  | Arr1 v => Ok (Arr1 (diff1 v))
  | Arr2 rows => Ok (Arr2 (List.map diff1 rows))
  end.

Definition ltb (x y : R) : bool := if Rlt_dec x y then true else false.

(* [np.any(a < c)] *)
Definition any_lt (a : ndarray) (c : R) : bool :=
  match a with
  | Arr0 x => ltb x c
  | Arr1 v => existsb (fun x => ltb x c) v
  | Arr2 rows => existsb (existsb (fun x => ltb x c)) rows
  end.

Fixpoint zip_with (f : R -> R -> R) (a b : list R) : list R :=
  match a, b with
  | x :: a', y :: b' => f x y :: zip_with f a' b'
  | _, _ => []
  end.

(* broadcasting of two one-dimensional operands *)
Definition bvec (f : R -> R -> R) (a b : list R) : res (list R) :=
  if (List.length a =? length b)%nat then Ok (zip_with f a b)
  else if (List.length a =? 1)%nat then Ok (List.map (f (hd 0 a)) b)
  else if (List.length b =? 1)%nat then Ok (List.map (fun x => f x (hd 0 b)) a)
  else Raise no_broadcast.

Fixpoint zip_rows (f : R -> R -> R) (a b : list (list R)) : list (res (list R)) :=
  match a, b with
  | x :: a', y :: b' => bvec f x y :: zip_rows f a' b'
  | _, _ => []
  end.

Definition bmat (f : R -> R -> R) (a b : list (list R)) : res (list (list R)) :=
  if (List.length a =? length b)%nat then res_all (zip_rows f a b)
  else if (List.length a =? 1)%nat
       then res_all (List.map (fun y => bvec f (hd [] a) y) b)
  else if (List.length b =? 1)%nat
       then res_all (List.map (fun x => bvec f x (hd [] b)) a)
  else Raise no_broadcast.

(* an elementwise binary operator with numpy's broadcasting rules *)
Definition binop (f : R -> R -> R) (a b : ndarray) : res ndarray :=
  match a, b with
  | Arr0 x, _ => Ok (map (f x) b)
  | _, Arr0 y => Ok (map (fun x => f x y) a)
  | Arr1 u, Arr1 v =>
      match bvec f u v with Ok w => Ok (Arr1 w) | Raise e => Raise e end
  | Arr2 m, Arr1 v =>
      match res_all (List.map (fun r => bvec f r v) m) with
      | Ok w => Ok (Arr2 w) | Raise e => Raise e end
  | Arr1 u, Arr2 m =>
      match res_all (List.map (fun r => bvec f u r) m) with
      | Ok w => Ok (Arr2 w) | Raise e => Raise e end
  | Arr2 m, Arr2 n =>
      match bmat f m n with Ok w => Ok (Arr2 w) | Raise e => Raise e end
  end.

Definition add := binop Rplus.
Definition sub := binop Rminus.
Definition mul := binop Rmult.

(* [a.flatten()] *)
Definition flatten (a : ndarray) : ndarray :=
  match a with
  | Arr0 x => Arr1 [x]
  | Arr1 v => Arr1 v
  | Arr2 rows => Arr1 (concat rows)
  end.

(* [np.empty_like(a)]: fresh storage of the shape of [a]; its cells hold
   [junk] until they are written.  numpy gives the storage the element type
   of [a] as well: here that is always float (for an [a] of integers, which
   the model does not represent, values written to the storage would be
   truncated). *)
Definition empty_like (junk : R) (a : ndarray) : ndarray := map (fun _ => junk) a.

Definition no_fill : exn := ValueError "could not broadcast input array".

Definition fill_vec (n : nat) (src : list R) : res (list R) :=
  if (List.length src =? n)%nat then Ok src
  else if (List.length src =? 1)%nat then Ok (repeat (hd 0 src) n)
  else Raise no_fill.

Fixpoint fill_rows (a : list (list R)) (src : list (list R)) : list (res (list R)) :=
  match a, src with
  | r :: a', s :: src' => fill_vec (List.length r) s :: fill_rows a' src'
  | _, _ => []
  end.

(* [a[:] = src]: the array [a] after the assignment; [src] is broadcast to
   the shape of [a]. *)
Definition fill (a src : ndarray) : res ndarray :=
  match a, src with
  | Arr0 _, _ => Raise (IndexError "too many indices for array")
  | Arr1 u, Arr0 y => Ok (Arr1 (repeat y (List.length u)))
  | Arr1 u, Arr1 s =>
      match fill_vec (List.length u) s with
      | Ok w => Ok (Arr1 w) | Raise e => Raise e end
  | Arr1 u, Arr2 [s] =>
      match fill_vec (List.length u) s with
      | Ok w => Ok (Arr1 w) | Raise e => Raise e end
  | Arr1 _, Arr2 _ => Raise no_fill
  | Arr2 m, Arr0 y => Ok (Arr2 (List.map (fun r => repeat y (List.length r)) m))
  | Arr2 m, Arr1 s =>
      match res_all (List.map (fun r => fill_vec (List.length r) s) m) with
      | Ok w => Ok (Arr2 w) | Raise e => Raise e end
  | Arr2 m, Arr2 rows =>
      if (List.length rows =? List.length m)%nat then
        match res_all (fill_rows m rows) with
        | Ok w => Ok (Arr2 w) | Raise e => Raise e end
      else if (List.length rows =? 1)%nat then
        match res_all (List.map (fun r => fill_vec (List.length r) (hd [] rows)) m) with
        | Ok w => Ok (Arr2 w) | Raise e => Raise e end
      else Raise no_fill
  end.

(* [x1[:, None] - x2[None, :]]: the matrix of pairwise differences of two
   one-dimensional arrays.  Indexing a zero-dimensional array with two
   indices raises; with a two-dimensional operand the result has three
   dimensions or more. *)
Definition outer_sub (x1 x2 : ndarray) : res ndarray :=
  match x1, x2 with
  | Arr0 _, _ => Raise (IndexError "too many indices for array")
  | _, Arr0 _ => Raise (IndexError "too many indices for array")
  | Arr1 u, Arr1 v =>
      Ok (Arr2 (List.map (fun a => List.map (fun b => a - b) v) u))
  | _, _ => Raise (OutOfModel "array of more than two dimensions")
  end.

Fixpoint add_at (i : nat) (r : list R) (x : R) : list R :=
  match r with
  | [] => []
  | y :: r' => match i with
               | O => (y + x) :: r'
               | S i' => y :: add_at i' r' x
               end
  end.

Fixpoint add_diag_rows (i : nat) (rows : list (list R)) (d : list R) : list (list R) :=
  match rows, d with
  | r :: rows', x :: d' => add_at i r x :: add_diag_rows (S i) rows' d'
  | _, _ => rows
  end.

Definition square (rows : list (list R)) : bool :=
  forallb (fun r => (List.length r =? List.length rows)%nat) rows.

(* [K[np.diag_indices_from(K)] += d]: the array [K] after the update *)
Definition add_diag (K d : ndarray) : res ndarray :=
  match K with
  | Arr2 rows =>
      if square rows then
        match d with
        | Arr0 x => Ok (Arr2 (add_diag_rows 0 rows (repeat x (List.length rows))))
        | Arr1 v =>
            match fill_vec (List.length rows) v with
            | Ok w => Ok (Arr2 (add_diag_rows 0 rows w))
            | Raise _ => Raise no_broadcast
            end
        | Arr2 _ => Raise no_broadcast
        end
      else Raise (ValueError "All dimensions of input must be of equal length")
  | _ => Raise (ValueError "input array must be at least 2-d")
  end.

Definition ncols (rows : list (list R)) : nat := List.length (hd [] rows).

Definition column (j : nat) (rows : list (list R)) : list R :=
  List.map (fun r => nth j r 0) rows.

(* [a.T].  A matrix is a list of rows, so one with no row has no column
   count: its transpose is the matrix with no row, where numpy has a shape
   [(k, 0)] turned into [(0, k)]. *)
Definition transpose (a : ndarray) : ndarray :=
  match a with
  | Arr2 rows => Arr2 (List.map (fun j => column j rows) (seq 0 (ncols rows)))
  | _ => a
  end.

Fixpoint rsum (v : list R) : R :=
  match v with
  | [] => 0
  | x :: v' => x + rsum v'
  end.

Definition inner (u v : list R) : R := rsum (zip_with Rmult u v).

Definition mat_vec (m : list (list R)) (v : list R) : list R :=
  List.map (fun r => inner r v) m.

Definition not_aligned : exn := ValueError "shapes not aligned".

(* [np.dot(a, b)] *)
Definition dot (a b : ndarray) : res ndarray :=
  match a, b with
  | Arr0 x, _ => Ok (map (Rmult x) b)
  | _, Arr0 y => Ok (map (fun x => x * y) a)
  | Arr1 u, Arr1 v =>
      if (List.length u =? List.length v)%nat then Ok (Arr0 (inner u v))
      else Raise not_aligned
  | Arr2 m, Arr1 v =>
      if forallb (fun r => (List.length r =? List.length v)%nat) m
      then Ok (Arr1 (mat_vec m v)) else Raise not_aligned
  | Arr1 u, Arr2 n =>
      if (List.length u =? List.length n)%nat
      then Ok (Arr1 (List.map (fun j => inner u (column j n)) (seq 0 (ncols n))))
      else Raise not_aligned
  | Arr2 m, Arr2 n =>
      if forallb (fun r => (List.length r =? List.length n)%nat) m
      then Ok (Arr2 (List.map (fun r =>
                 List.map (fun j => inner r (column j n)) (seq 0 (ncols n))) m))
      else Raise not_aligned
  end.

(* [np.sum(a, axis=0)] *)
Definition sum_axis0 (a : ndarray) : res ndarray :=
  match a with
  | Arr0 _ => Raise (ValueError "axis 0 is out of bounds for array of dimension 0")
  | Arr1 v => Ok (Arr0 (rsum v))
  | Arr2 rows => Ok (Arr1 (List.map (fun j => rsum (column j rows)) (seq 0 (ncols rows))))
  end.

Definition neg (a : ndarray) : ndarray := map Ropp a.

End np.

(** ** Sub-models *)

Module modeling.

(** Modelled from the spec: the Parameterized Component ([modeling.Model],
    whose file is not among the sources).  A component has one value per
    declared parameter, a mask telling which of them are unfrozen, and a
    dirty flag; its [parameter_vector] lists the values in declaration
    order, and [get_value] evaluates elementwise. *)
Record Model : Type := {
  parameter_names : list string;
  parameters : list R;
  unfrozen_mask : list bool;
  dirty : bool;
  value_at : list R -> R -> R
}.

Definition with_parameters (m : Model) (ps : list R) : Model :=
  {| parameter_names := parameter_names m; parameters := ps;
     unfrozen_mask := unfrozen_mask m; dirty := dirty m;
     value_at := value_at m |}.

Definition with_mask (m : Model) (mask : list bool) : Model :=
  {| parameter_names := parameter_names m; parameters := parameters m;
     unfrozen_mask := mask; dirty := dirty m; value_at := value_at m |}.

Definition set_dirty (m : Model) (b : bool) : Model :=
  {| parameter_names := parameter_names m; parameters := parameters m;
     unfrozen_mask := unfrozen_mask m; dirty := b; value_at := value_at m |}.

(** Modelled from the spec: [full_size], the number of declared parameters,
    and [vector_size], the number of unfrozen ones. *)
Definition full_size (m : Model) : nat := List.length (parameter_names m).

Fixpoint count_true (mask : list bool) : nat :=
  match mask with
  | [] => 0
  | b :: mask' => (if b then 1 else 0) + count_true mask'
  end.

Definition vector_size (m : Model) : nat := count_true (unfrozen_mask m).

(** Modelled from the spec: [parameter_vector] of a sub-model.  The spec's
    data model and its account of the write path disagree on whether frozen
    parameters occupy slots; the composite decides it: its setter cuts the
    vector at the [full_size] offsets ([celerite.py], lines 274-280) and its
    getter concatenates the three vectors (lines 258-264), so the vector of a
    sub-model has one entry per parameter, frozen or not, in declaration
    order.  Freezing changes [unfrozen_mask] and [vector_size] only. *)
Definition parameter_vector (m : Model) : list R := parameters m.

(** Modelled from the spec: the setter of [parameter_vector] of a sub-model.
    It takes one entry per parameter ([full_size] entries), reassigns every
    parameter, frozen ones included, and marks the component dirty; a vector
    of another length is a dimension mismatch. *)
Definition set_parameter_vector (m : Model) (v : list R) : res Model :=
  if (List.length v =? full_size m)%nat
  then Ok (set_dirty (with_parameters m v) true)
  else Raise dimension_mismatch.

(** Modelled from the spec: [get_value(x)], the elementwise evaluation over
    the input coordinates. *)
Definition get_value (m : Model) (x : np.ndarray) : np.ndarray :=
  np.map (value_at m (parameters m)) x.

Fixpoint index_of (name : string) (names : list string) : option nat :=
  match names with
  | [] => None
  | n :: names' =>
      if String.eqb n name then Some O
      else match index_of name names' with
           | Some i => Some (S i)
           | None => None
           end
  end.

Fixpoint update {A} (i : nat) (x : A) (l : list A) : list A :=
  match l with
  | [] => []
  | y :: l' => match i with
               | O => x :: l'
               | S i' => y :: update i' x l'
               end
  end.

Definition unknown_parameter (name : string) : exn :=
  ValueError ("unknown parameter '" ++ name ++ "'").

(** Modelled from the spec: access to one parameter by its name.  Setting a
    parameter marks the component dirty; freezing and thawing change the
    mask only. *)
Definition get_parameter (m : Model) (name : string) : res R :=
  match index_of name (parameter_names m) with
  | Some i => Ok (nth i (parameters m) 0)
  | None => Raise (unknown_parameter name)
  end.

Definition set_parameter (m : Model) (name : string) (value : R) : res Model :=
  match index_of name (parameter_names m) with
  | Some i => Ok (set_dirty (with_parameters m (update i value (parameters m))) true)
  | None => Raise (unknown_parameter name)
  end.

Definition freeze_parameter (m : Model) (name : string) : res Model :=
  match index_of name (parameter_names m) with
  | Some i => Ok (with_mask m (update i false (unfrozen_mask m)))
  | None => Raise (unknown_parameter name)
  end.

Definition thaw_parameter (m : Model) (name : string) : res Model :=
  match index_of name (parameter_names m) with
  | Some i => Ok (with_mask m (update i true (unfrozen_mask m)))
  | None => Raise (unknown_parameter name)
  end.

Definition freeze_all_parameters (m : Model) : Model :=
  with_mask m (List.map (fun _ => false) (unfrozen_mask m)).

Definition thaw_all_parameters (m : Model) : Model :=
  with_mask m (List.map (fun _ => true) (unfrozen_mask m)).

(* the invariant of the data model: one value and one mask bit per name *)
Definition well_formed (m : Model) : Prop :=
  List.length (parameters m) = full_size m /\
  List.length (unfrozen_mask m) = full_size m.

(** Modelled from the spec: [ConstantModel], the constant sub-model a bare
    number is lifted into; its single parameter is its value. *)
Definition ConstantModel (value : R) : Model :=
  {| parameter_names := ["value"%string]; parameters := [value];
     unfrozen_mask := [true]; dirty := true;
     value_at := fun ps _ => hd 0 ps |}.

(* the six coefficient arrays of a kernel *)
Record coefficients : Type := {
  alpha_real : list R;
  beta_real : list R;
  alpha_complex_real : list R;
  alpha_complex_imag : list R;
  beta_complex_real : list R;
  beta_complex_imag : list R
}.

(** Modelled from the spec: a kernel ([terms.Kernel]) is a Parameterized
    Component that also exposes its [coefficients]. *)
Record Kernel : Type := {
  base : Model;
  coefficients_of : list R -> coefficients
}.

Definition kernel_coefficients (k : Kernel) : coefficients :=
  coefficients_of k (parameters (base k)).

Definition with_base (k : Kernel) (m : Model) : Kernel :=
  {| base := m; coefficients_of := coefficients_of k |}.

End modeling.

(** ** The solver *)

Module solver.
Import modeling.

(** Modelled from the spec: the [Solver] of the native extension
    ([_celerite], not among the sources).  A solver object remembers the
    inputs of its last [compute]; [solve], [dot_solve] and
    [log_determinant] answer from that factorization, while [dot] works on
    the coefficients and coordinates it is handed.  The numerical routines
    themselves are the operations of an implementation [Ops]. *)
Record Solver : Type := {
  factorized : option (coefficients * np.ndarray * np.ndarray)
}.

(* [Solver()] *)
Definition new : Solver := {| factorized := None |}.

(* [solver.compute(alpha_real, ..., beta_complex_imag, t, diag)]: the
   solver records what it is handed.  The native routine is written for
   one-dimensional coordinates; what it does with a matrix is not part of
   the sources.  Here a matrix is recorded like any other input, so a
   statement that a [compute] on a coordinate matrix returns would rest on
   this choice alone: the statements about such coordinates are about what
   happens before the solver is called, or assume that the call returns. *)
Definition compute (s : Solver) (c : coefficients) (t diag : np.ndarray) : Solver :=
  {| factorized := Some (c, t, diag) |}.

Record Ops : Type := {
  solve : Solver -> np.ndarray -> np.ndarray;
  dot_solve : Solver -> np.ndarray -> R;
  log_determinant : Solver -> R;
  dot : coefficients -> np.ndarray -> np.ndarray -> np.ndarray
}.

End solver.

(** ** The GP class *)

Module celerite.
Import modeling.
Export np (ndarray, Arr0, Arr1, Arr2).

(* the attributes of a [GP] object; [_yerr] does not exist until the first
   [compute] (the attribute [_y_var] is set once and never read) *)
Record GP : Type := {
  kernel : Kernel;
  solver : option solver.Solver;
  _computed : bool;
  _t : option ndarray;
  _yerr : option ndarray;
  log_white_noise : Model;
  mean : Model
}.

(** A method call: outcome and final state. *)
Definition M (A : Type) : Type := GP -> res A * GP.

Definition ret {A} (a : A) : M A := fun gp => (Ok a, gp).
Definition raise {A} (e : exn) : M A := fun gp => (Raise e, gp).
Definition bind {A B} (m : M A) (k : A -> M B) : M B :=
  fun gp => match m gp with
            | (Ok a, gp') => k a gp'
            | (Raise e, gp') => (Raise e, gp')
            end.
Definition lift {A} (r : res A) : M A := fun gp => (r, gp).
Definition get : M GP := fun gp => (Ok gp, gp).
Definition put (gp : GP) : M unit := fun _ => (Ok tt, gp).
Definition when (b : bool) (m : M unit) : M unit := if b then m else ret tt.

Declare Scope gp_scope.
Delimit Scope gp_scope with gp.
Notation "x <- m ;; k" := (bind m (fun x => k))
  (at level 61, m at next level, right associativity) : gp_scope.
Notation "m ;; k" := (bind m (fun _ => k))
  (at level 61, right associativity) : gp_scope.
Local Open Scope gp_scope.

(* attribute assignments *)
Definition set_kernel (k : Kernel) : M unit := fun gp =>
  (Ok tt, {| kernel := k; solver := solver gp; _computed := _computed gp;
             _t := _t gp; _yerr := _yerr gp;
             log_white_noise := log_white_noise gp; mean := mean gp |}).
Definition set_solver (s : solver.Solver) : M unit := fun gp =>
  (Ok tt, {| kernel := kernel gp; solver := Some s; _computed := _computed gp;
             _t := _t gp; _yerr := _yerr gp;
             log_white_noise := log_white_noise gp; mean := mean gp |}).
Definition set__computed (b : bool) : M unit := fun gp =>
  (Ok tt, {| kernel := kernel gp; solver := solver gp; _computed := b;
             _t := _t gp; _yerr := _yerr gp;
             log_white_noise := log_white_noise gp; mean := mean gp |}).
Definition set__t (t : ndarray) : M unit := fun gp =>
  (Ok tt, {| kernel := kernel gp; solver := solver gp; _computed := _computed gp;
             _t := Some t; _yerr := _yerr gp;
             log_white_noise := log_white_noise gp; mean := mean gp |}).
Definition set__yerr (y : ndarray) : M unit := fun gp =>
  (Ok tt, {| kernel := kernel gp; solver := solver gp; _computed := _computed gp;
             _t := _t gp; _yerr := Some y;
             log_white_noise := log_white_noise gp; mean := mean gp |}).
Definition set_log_white_noise (m : Model) : M unit := fun gp =>
  (Ok tt, {| kernel := kernel gp; solver := solver gp; _computed := _computed gp;
             _t := _t gp; _yerr := _yerr gp;
             log_white_noise := m; mean := mean gp |}).
Definition set_mean (m : Model) : M unit := fun gp =>
  (Ok tt, {| kernel := kernel gp; solver := solver gp; _computed := _computed gp;
             _t := _t gp; _yerr := _yerr gp;
             log_white_noise := log_white_noise gp; mean := m |}).

(* [GP(kernel, mean, fit_mean, log_white_noise, fit_white_noise)]: a bare
   number is lifted into a constant sub-model, and a sub-model that is not
   fitted has all its parameters frozen *)
Definition __init__ (kernel : Kernel) (mean : R + Model) (fit_mean : bool)
    (log_white_noise : R + Model) (fit_white_noise : bool) : GP :=
  let noise := match log_white_noise with
               | inl x => ConstantModel x
               | inr m => m
               end in
  let noise := if fit_white_noise then noise else freeze_all_parameters noise in
  let mu := match mean with
            | inl x => ConstantModel x
            | inr m => m
            end in
  let mu := if fit_mean then mu else freeze_all_parameters mu in
  {| kernel := kernel; solver := None; _computed := false; _t := None;
     _yerr := None; log_white_noise := noise; mean := mu |}.

(* the [dirty] property *)
Definition dirty (gp : GP) : bool :=
  modeling.dirty (mean gp) ||
  modeling.dirty (log_white_noise gp) ||
  modeling.dirty (base (kernel gp)) ||
  negb (_computed gp).

Definition set_dirty (value : bool) : M unit :=
  set__computed (negb value) ;;
  gp <- get ;; set_mean (modeling.set_dirty (mean gp) value) ;;
  gp <- get ;; set_log_white_noise (modeling.set_dirty (log_white_noise gp) value) ;;
  gp <- get ;; set_kernel (with_base (kernel gp) (modeling.set_dirty (base (kernel gp)) value)).

(* the [computed] property *)
Definition computed (gp : GP) : bool := negb (dirty gp).

(** *** The modeling protocol *)

Definition full_size (gp : GP) : nat :=
  (modeling.full_size (mean gp) +
   modeling.full_size (log_white_noise gp) +
   modeling.full_size (base (kernel gp)))%nat.

Definition vector_size (gp : GP) : nat :=
  (modeling.vector_size (mean gp) +
   modeling.vector_size (log_white_noise gp) +
   modeling.vector_size (base (kernel gp)))%nat.

Definition unfrozen_mask (gp : GP) : list bool :=
  modeling.unfrozen_mask (mean gp) ++
  modeling.unfrozen_mask (log_white_noise gp) ++
  modeling.unfrozen_mask (base (kernel gp)).

Definition parameter_vector (gp : GP) : list R :=
  modeling.parameter_vector (mean gp) ++
  modeling.parameter_vector (log_white_noise gp) ++
  modeling.parameter_vector (base (kernel gp)).

(* the slice [v[i:j]] *)
Definition slice (v : list R) (i j : nat) : list R := firstn (j - i) (skipn i v).

Definition set_parameter_vector (v : list R) : M unit :=
  gp <- get ;;
  let i := modeling.full_size (mean gp) in
  m <- lift (modeling.set_parameter_vector (mean gp) (firstn i v)) ;;
  set_mean m ;;
  gp <- get ;;
  let j := (i + modeling.full_size (log_white_noise gp))%nat in
  n <- lift (modeling.set_parameter_vector (log_white_noise gp) (slice v i j)) ;;
  set_log_white_noise n ;;
  gp <- get ;;
  k <- lift (modeling.set_parameter_vector (base (kernel gp)) (skipn j v)) ;;
  set_kernel (with_base (kernel gp) k).

Definition parameter_names (gp : GP) : list string :=
  List.map (String.append "mean:") (modeling.parameter_names (mean gp)) ++
  List.map (String.append "log_white_noise:")
           (modeling.parameter_names (log_white_noise gp)) ++
  List.map (String.append "kernel:") (modeling.parameter_names (base (kernel gp))).

(* the method of the sub-model that [_apply_to_parameter] is asked to call,
   with its extra arguments *)
Inductive func : Type :=
| freeze_parameter_
| thaw_parameter_
| get_parameter_
| set_parameter_ (value : R).

(* [getattr(model, func)(name, *args)]: the sub-model after the call and
   the value returned *)
Definition call_method (f : func) (m : Model) (name : string) : res (Model * option R) :=
  match f with
  | freeze_parameter_ =>
      match modeling.freeze_parameter m name with
      | Ok m' => Ok (m', None) | Raise e => Raise e end
  | thaw_parameter_ =>
      match modeling.thaw_parameter m name with
      | Ok m' => Ok (m', None) | Raise e => Raise e end
  | get_parameter_ =>
      match modeling.get_parameter m name with
      | Ok x => Ok (m, Some x) | Raise e => Raise e end
  | set_parameter_ value =>
      match modeling.set_parameter m name value with
      | Ok m' => Ok (m', None) | Raise e => Raise e end
  end.

(* [name[n:]] *)
Definition drop (n : nat) (name : string) : string :=
  substring n (String.length name - n) name.

Definition unrecognized (name : string) : exn :=
  ValueError ("unrecognized parameter '" ++ name ++ "'").

Definition _apply_to_parameter (f : func) (name : string) : M (option R) :=
  gp <- get ;;
  if prefix "mean:" name then
    r <- lift (call_method f (mean gp) (drop 5 name)) ;;
    set_mean (fst r) ;; ret (snd r)
  else if prefix "log_white_noise:" name then
    r <- lift (call_method f (log_white_noise gp) (drop 16 name)) ;;
    set_log_white_noise (fst r) ;; ret (snd r)
  else if prefix "kernel:" name then
    r <- lift (call_method f (base (kernel gp)) (drop 7 name)) ;;
    set_kernel (with_base (kernel gp) (fst r)) ;; ret (snd r)
  else raise (unrecognized name).

Definition freeze_parameter (name : string) : M unit :=
  _apply_to_parameter freeze_parameter_ name ;; ret tt.

Definition thaw_parameter (name : string) : M unit :=
  _apply_to_parameter thaw_parameter_ name ;; ret tt.

Definition freeze_all_parameters : M unit :=
  gp <- get ;; set_mean (modeling.freeze_all_parameters (mean gp)) ;;
  gp <- get ;; set_log_white_noise (modeling.freeze_all_parameters (log_white_noise gp)) ;;
  gp <- get ;;
  set_kernel (with_base (kernel gp) (modeling.freeze_all_parameters (base (kernel gp)))).

Definition thaw_all_parameters : M unit :=
  gp <- get ;; set_mean (modeling.thaw_all_parameters (mean gp)) ;;
  gp <- get ;; set_log_white_noise (modeling.thaw_all_parameters (log_white_noise gp)) ;;
  gp <- get ;;
  set_kernel (with_base (kernel gp) (modeling.thaw_all_parameters (base (kernel gp)))).

Definition get_parameter (name : string) : M (option R) :=
  _apply_to_parameter get_parameter_ name.

Definition set_parameter (name : string) (value : R) : M (option R) :=
  set_dirty true ;;
  _apply_to_parameter (set_parameter_ value) name.

(** *** The evaluation pipeline *)

Section Methods.

(* the implementation of the solver's numerical routines, and the content
   of storage that has been allocated but not written *)
Variable ops : solver.Ops.
Variable junk : R.

(* an attribute that has not been assigned *)
Definition attr {A} (name : string) (o : option A) : M A :=
  match o with
  | Some a => ret a
  | None => raise (AttributeError name)
  end.

(* [self._t] where an array is needed: [None] is no array *)
Definition coords : M ndarray :=
  gp <- get ;;
  match _t gp with
  | Some t => ret t
  | None => raise (TypeError "NoneType where an array is expected")
  end.

Definition _get_diag : M ndarray :=
  gp <- get ;;
  yerr <- attr "_yerr" (_yerr gp) ;;
  t <- coords ;;
  lift (np.add (np.map (fun x => x * x) yerr)
               (np.map exp (get_value (log_white_noise gp) t))).

Definition compute (t yerr : ndarray) (check_sorted : bool) : M unit :=
  let t := np.atleast_1d t in
  when check_sorted
    (d <- lift (np.diff t) ;;
     when (np.any_lt d 0) (raise not_sorted)) ;;
  when (check_sorted && (1 <? np.ndim t)%nat) (raise dimension_mismatch) ;;
  set__t t ;;
  set__yerr (np.empty_like junk t) ;;
  filled <- lift (np.fill (np.empty_like junk t) yerr) ;;
  set__yerr filled ;;
  gp <- get ;;
  when (match solver gp with None => true | Some _ => false end)
       (set_solver solver.new) ;;
  gp <- get ;;
  let c := kernel_coefficients (kernel gp) in
  s <- attr "solver" (solver gp) ;;
  diag <- _get_diag ;;
  set_solver (solver.compute s c t diag) ;;
  set_dirty false.

Definition _recompute : M unit :=
  gp <- get ;;
  when (dirty gp)
    (match _t gp with
     | None => raise not_computed
     | Some t =>
         yerr <- attr "_yerr" (_yerr gp) ;;
         compute t yerr false
     end).

Definition _process_input (y : ndarray) : M ndarray :=
  gp <- get ;;
  match _t gp with
  | None => raise not_computed
  | Some t =>
      n <- lift (np.len t) ;;
      m <- lift (np.len y) ;;
      if negb (n =? m)%nat then raise dimension_mismatch
      else ret y
  end.

(* [math.log(2.0*math.pi)], the default of the argument [_const] *)
Definition log_2pi : R := ln (2 * PI).

Definition log_likelihood (y : ndarray) (_const : R) : M R :=
  y <- _process_input y ;;
  gp <- get ;;
  t <- coords ;;
  resid <- lift (np.sub y (get_value (mean gp) t)) ;;
  _recompute ;;
  when (1 <? np.ndim y)%nat (raise dimension_mismatch) ;;
  gp <- get ;;
  s <- attr "solver" (solver gp) ;;
  n <- lift (np.len y) ;;
  ret (-0.5 * (solver.dot_solve ops s resid +
               solver.log_determinant ops s +
               INR n * _const)).

Definition apply_inverse (y : ndarray) : M ndarray :=
  _recompute ;;
  gp <- get ;;
  s <- attr "solver" (solver gp) ;;
  y <- _process_input y ;;
  ret (solver.solve ops s y).

Definition dot (y : ndarray) : M ndarray :=
  _recompute ;;
  gp <- get ;;
  let c := kernel_coefficients (kernel gp) in
  _ <- attr "solver" (solver gp) ;;
  y <- _process_input y ;;
  t <- coords ;;
  ret (solver.dot ops c t y).

(* [self.kernel.get_value] on an array *)
Definition kernel_value (gp : GP) (x : ndarray) : ndarray :=
  get_value (base (kernel gp)) x.

Definition get_matrix (x1 x2 : option ndarray) (include_diagonal : option bool)
    : M ndarray :=
  match x1, x2 with
  | None, None =>
      gp <- get ;;
      match _t gp with
      | None => raise not_computed
      | Some t =>
          when (negb (computed gp)) (raise not_computed) ;;
          d <- lift (np.outer_sub t t) ;;
          let K := kernel_value gp d in
          match include_diagonal with
          | Some false => ret K
          | _ => diag <- _get_diag ;; lift (np.add_diag K diag)
          end
      end
  | None, Some _ =>
      (* [np.ascontiguousarray(None, dtype=float)] is the array [[nan]] *)
      raise (OutOfModel "nan")
  | Some x1, _ =>
      let x1 := np.atleast_1d x1 in
      let incl := match x2, include_diagonal with
                  | None, Some true => true
                  | _, _ => false
                  end in
      let x2 := match x2 with None => x1 | Some x2 => x2 end in
      gp <- get ;;
      d <- lift (np.outer_sub x1 x2) ;;
      let K := kernel_value gp d in
      if incl
      then lift (np.add_diag K (np.map exp (get_value (log_white_noise gp) x1)))
      else ret K
  end.

(* what [predict] returns: [mu], [(mu, var)] or [(mu, cov)] *)
Inductive prediction : Type :=
| Mu (mu : ndarray)
| MuVar (mu var : ndarray)
| MuCov (mu cov : ndarray).

Definition predict (y : ndarray) (t : option ndarray) (return_cov return_var : bool)
    : M prediction :=
  y <- _process_input y ;;
  when (1 <? np.ndim y)%nat (raise dimension_mismatch) ;;
  xs <- match t with
        | None => coords
        | Some t =>
            let xs := np.atleast_1d t in
            when (1 <? np.ndim xs)%nat (raise dimension_mismatch) ;;
            ret xs
        end ;;
  (* Make sure that the model is computed *)
  _recompute ;;
  (* Compute the predictive mean. *)
  gp <- get ;;
  train <- coords ;;
  resid <- lift (np.sub y (get_value (mean gp) train)) ;;
  s <- attr "solver" (solver gp) ;;
  let alpha := np.flatten (solver.solve ops s resid) in
  r <- match t with
       | None =>
           diag <- _get_diag ;;
           da <- lift (np.mul diag alpha) ;;
           alpha <- lift (np.sub y da) ;;
           ret (alpha, None)
       | Some _ =>
           Kxs <- get_matrix (Some xs) (Some train) None ;;
           alpha <- lift (np.dot Kxs alpha) ;;
           ret (alpha, Some Kxs)
       end ;;
  let '(alpha, Kxs) := r in
  gp <- get ;;
  mu <- lift (np.add (get_value (mean gp) xs) alpha) ;;
  if negb (return_var || return_cov) then ret (Mu mu)
  else
    (* Predictive variance. *)
    Kxs <- match Kxs with
           | Some Kxs => ret Kxs
           | None => train <- coords ;; get_matrix (Some xs) (Some train) None
           end ;;
    let KxsT := np.transpose Kxs in
    if return_var then
      inv <- apply_inverse KxsT ;;
      prod <- lift (np.mul KxsT inv) ;;
      total <- lift (np.sum_axis0 prod) ;;
      gp <- get ;;
      var <- lift (np.add (np.neg total) (kernel_value gp (Arr0 0))) ;;
      ret (MuVar mu var)
    else
      (* Predictive covariance *)
      gp <- get ;;
      d <- lift (np.outer_sub xs xs) ;;
      let cov := kernel_value gp d in
      inv <- apply_inverse KxsT ;;
      p <- lift (np.dot Kxs inv) ;;
      cov <- lift (np.sub cov p) ;;
      ret (MuCov mu cov).

(** *** Histories of calls *)

(* one call on a [GP] object by its user.  [set_dirty_] is the assignment
   [gp.dirty = True]; [apply_] covers [freeze_parameter], [thaw_parameter]
   and [get_parameter], and the same methods called on a sub-model.  The
   assignment [gp.dirty = False], which clears the flags without factoring
   anything, is deliberately not among the calls: the histories are those
   of a user who leaves the clearing of the flag to [compute].  What that
   assignment does is stated apart, on [set_dirty false]. *)
Inductive call : Type :=
| compute_ (t yerr : ndarray) (check_sorted : bool)
| log_likelihood_ (y : ndarray) (_const : R)
| apply_inverse_ (y : ndarray)
| dot_ (y : ndarray)
| predict_ (y : ndarray) (t : option ndarray) (return_cov return_var : bool)
| get_matrix_ (x1 x2 : option ndarray) (include_diagonal : option bool)
| set_dirty_
| set_parameter_vector_ (v : list R)
| apply_ (f : func) (name : string)
| freeze_all_parameters_
| thaw_all_parameters_
| set_parameter__ (name : string) (value : R).

(* the state a call leaves behind, whether it returns or raises *)
Definition exec (c : call) (gp : GP) : GP :=
  match c with
  | compute_ t yerr check_sorted => snd (compute t yerr check_sorted gp)
  | log_likelihood_ y _const => snd (log_likelihood y _const gp)
  | apply_inverse_ y => snd (apply_inverse y gp)
  | dot_ y => snd (dot y gp)
  | predict_ y t return_cov return_var => snd (predict y t return_cov return_var gp)
  | get_matrix_ x1 x2 include_diagonal => snd (get_matrix x1 x2 include_diagonal gp)
  | set_dirty_ => snd (set_dirty true gp)
  | set_parameter_vector_ v => snd (set_parameter_vector v gp)
  | apply_ f name => snd (_apply_to_parameter f name gp)
  | freeze_all_parameters_ => snd (freeze_all_parameters gp)
  | thaw_all_parameters_ => snd (thaw_all_parameters gp)
  | set_parameter__ name value => snd (set_parameter name value gp)
  end.

Definition run (history : list call) (gp : GP) : GP :=
  fold_left (fun gp c => exec c gp) history gp.

Definition is_compute (c : call) : bool :=
  match c with compute_ _ _ _ => true | _ => false end.

(* the solver exists and holds a factorization *)
Definition has_computed (gp : GP) : bool :=
  match solver gp with
  | Some s => match solver.factorized s with Some _ => true | None => false end
  | None => false
  end.

End Methods.

End celerite.

(** ** The covariance matrix and the solver's contract *)

Module dense.
Import modeling.
Export np (ndarray, Arr0, Arr1, Arr2).

(* the matrix with entries [k (x1_i - x2_j)] *)
Definition kernel_matrix (k : R -> R) (x1 x2 : list R) : list (list R) :=
  List.map (fun a => List.map (fun b => k (a - b)) x2) x1.

(* [K = Kernel(t, t) + diag(d)] *)
Definition covariance (k : R -> R) (t d : list R) : list (list R) :=
  np.add_diag_rows 0 (kernel_matrix k t t) d.

Fixpoint remove_nth {A} (j : nat) (l : list A) : list A :=
  match l with
  | [] => []
  | x :: l' => match j with
               | O => l'
               | S j' => x :: remove_nth j' l'
               end
  end.

Fixpoint alternating (l : list R) : R :=
  match l with
  | [] => 0
  | x :: l' => x - alternating l'
  end.

(* the determinant of a matrix of order [n], expanded along its first row *)
Fixpoint det (n : nat) (m : list (list R)) : R :=
  match n, m with
  | S n', r :: rest =>
      alternating
        (List.map (fun j => nth j r 0 * det n' (List.map (remove_nth j) rest))
                  (seq 0 (S n')))
  | _, _ => 1
  end.

Definition order (m : list (list R)) : nat := List.length m.

(* column [i] of [m] replaced by [y] *)
Fixpoint replace_column (i : nat) (m : list (list R)) (y : list R) : list (list R) :=
  match m, y with
  | r :: m', b :: y' => modeling.update i b r :: replace_column i m' y'
  | _, _ => m
  end.

(* the solution of [m x = y] by Cramer's rule *)
Definition cramer (m : list (list R)) (y : list R) : list R :=
  List.map (fun i => det (order m) (replace_column i m y) / det (order m) m)
           (seq 0 (order m)).

(** Modelled from the spec: the covariance function that six coefficient
    arrays describe, a sum of real and complex exponential terms (real
    amplitudes and decay rates; complex amplitudes, decay rates and
    oscillation rates). *)
Fixpoint real_terms (a c : list R) (tau : R) : R :=
  match a, c with
  | aj :: a', cj :: c' => aj * exp (- (cj * Rabs tau)) + real_terms a' c' tau
  | _, _ => 0
  end.

Fixpoint complex_terms (a b c d : list R) (tau : R) : R :=
  match a, b, c, d with
  | aj :: a', bj :: b', cj :: c', dj :: d' =>
      (aj * cos (dj * Rabs tau) + bj * sin (dj * Rabs tau)) * exp (- (cj * Rabs tau))
      + complex_terms a' b' c' d' tau
  | _, _, _, _ => 0
  end.

Definition celerite_kernel (c : coefficients) (tau : R) : R :=
  real_terms (alpha_real c) (beta_real c) tau +
  complex_terms (alpha_complex_real c) (alpha_complex_imag c)
                (beta_complex_real c) (beta_complex_imag c) tau.

Definition factor_matrix (s : solver.Solver) : list (list R) :=
  match solver.factorized s with
  | Some (c, Arr1 t, Arr1 d) => covariance (celerite_kernel c) t d
  | _ => []
  end.

(** Modelled from the spec: a reference implementation of the solver's
    routines on dense matrices, [K = Kernel(t, t) + diag]. *)
Definition ops : solver.Ops :=
  {| solver.solve := fun s y =>
       match y with
       | Arr1 b => Arr2 (List.map (fun x => [x]) (cramer (factor_matrix s) b))
       | Arr2 rows =>
           np.transpose
             (Arr2 (List.map (fun j => cramer (factor_matrix s) (np.column j rows))
                             (seq 0 (np.ncols rows))))
       | Arr0 _ => y
       end;
     solver.dot_solve := fun s y =>
       match y with
       | Arr1 b => np.inner b (cramer (factor_matrix s) b)
       | _ => 0
       end;
     solver.log_determinant := fun s =>
       ln (det (order (factor_matrix s)) (factor_matrix s));
     solver.dot := fun c t y =>
       match t, y with
       | Arr1 t, Arr1 b =>
           Arr1 (np.mat_vec (kernel_matrix (celerite_kernel c) t t) b)
       | _, _ => y
       end |}.

(** The contract of the solver, for a solver object [s] that has factored
    the matrix [K]: [solve] returns [K^-1 y], [dot_solve] the quadratic form
    [y^T K^-1 y] and [log_determinant] the logarithm of [|K|]. *)
Record honours (o : solver.Ops) (s : solver.Solver) (K : list (list R)) : Prop := {
  solve_spec : forall y, List.length y = List.length K ->
    exists x, np.flatten (solver.solve o s (Arr1 y)) = Arr1 x /\
              List.length x = List.length y /\ np.mat_vec K x = y;
  dot_solve_spec : forall y, List.length y = List.length K ->
    exists x, np.mat_vec K x = y /\ solver.dot_solve o s (Arr1 y) = np.inner y x;
  log_determinant_spec :
    solver.log_determinant o s = ln (det (order K) K)
}.

End dense.

(** ** Example objects *)

Module examples.
Import modeling celerite.

(* a kernel with one term that does not decay: [k(tau) = a] *)
Definition constant_kernel (a : R) : Kernel :=
  {| base := {| modeling.parameter_names := ["a"%string];
                modeling.parameters := [a];
                modeling.unfrozen_mask := [true];
                modeling.dirty := true;
                modeling.value_at := fun ps _ => hd 0 ps |};
     coefficients_of := fun ps =>
       {| alpha_real := [hd 0 ps]; beta_real := [0];
          alpha_complex_real := []; alpha_complex_imag := [];
          beta_complex_real := []; beta_complex_imag := [] |} |}.

(* [GP(kernel, mean=mu, log_white_noise=w)] *)
Definition gp_of (a mu w : R) : GP :=
  __init__ (constant_kernel a) (inl mu) false (inl w) false.

(* the object after [gp.compute([0, 1, 2], yerr=0)], for a zero kernel,
   the mean 0 and [log_white_noise=0] *)
Definition unit_gp : GP :=
  snd (compute 0 (Arr1 [0; 1; 2]) (Arr0 0) true (gp_of 0 0 0)).

Definition unit_solver : solver.Solver :=
  solver.compute solver.new
    (kernel_coefficients (constant_kernel 0)) (Arr1 [0; 1; 2])
    (Arr1 [0 * 0 + exp 0; 0 * 0 + exp 0; 0 * 0 + exp 0]).

(* the object after [gp.compute([0], yerr=1, check_sorted=False)], for the
   kernel [k = 1], the mean 0 and [log_white_noise=0] *)
Definition noisy_gp : GP :=
  snd (compute 0 (Arr1 [0]) (Arr0 1) false (gp_of 1 0 0)).

(* the object after [gp.compute([0], yerr=1, check_sorted=False)], for the
   kernel [k = 1], the mean 1 and [log_white_noise=0] *)
Definition biased_gp : GP :=
  snd (compute 0 (Arr1 [0]) (Arr0 1) false (gp_of 1 1 0)).

Definition biased_solver : solver.Solver :=
  solver.compute solver.new
    (kernel_coefficients (constant_kernel 1)) (Arr1 [0]) (Arr1 [1 * 1 + exp 0]).

End examples.

(** ** Vocabulary of the statements *)

Module spec.
Import modeling celerite.

(* the diagonal handed to the solver: [yerr**2 + exp(log_white_noise(t))] *)
Definition diag_of (gp : GP) (t yerr : ndarray) : res ndarray :=
  np.add (np.map (fun x => x * x) yerr)
         (np.map exp (get_value (log_white_noise gp) t)).

(* the state a successful [compute] leaves: coordinates and uncertainties
   bound, the solver factored for the current coefficients, all flags clean *)
Definition after_compute (gp : GP) (t yerr diag : ndarray) : GP :=
  {| kernel := with_base (kernel gp) (modeling.set_dirty (base (kernel gp)) false);
     solver := Some (solver.compute solver.new
                       (kernel_coefficients (kernel gp)) t diag);
     _computed := true;
     _t := Some t;
     _yerr := Some yerr;
     log_white_noise := modeling.set_dirty (log_white_noise gp) false;
     mean := modeling.set_dirty (mean gp) false |}.

(* no adjacent pair of coordinates decreases *)
Fixpoint nondecreasing (v : list R) : Prop :=
  match v with
  | a :: ((b :: _) as tl) => a <= b /\ nondecreasing tl
  | _ => True
  end.

(* some sub-model is dirty *)
Definition submodel_dirty (gp : GP) : bool :=
  modeling.dirty (mean gp) ||
  modeling.dirty (log_white_noise gp) ||
  modeling.dirty (base (kernel gp)).

(* [compute] has not bound coordinates: nothing is cached *)
Definition unbound (gp : GP) : Prop :=
  _t gp = None /\ _computed gp = false.

(* how the cache flag relates to the solver and the sub-models *)
Definition consistent (gp : GP) : Prop :=
  (has_computed gp = false -> _computed gp = false) /\
  (_computed gp = false -> has_computed gp = false \/ submodel_dirty gp = true).

(* the identity matrix of order three *)
Definition identity3 : list (list R) := [[1; 0; 0]; [0; 1; 0]; [0; 0; 1]].

(* the training self-covariance: what [get_matrix()] returns *)
Definition training_covariance (gp : GP) : res ndarray :=
  fst (get_matrix None None None gp).


(* the dense matrix [Kernel(x1, x2)] of the kernel of [gp] *)
Definition kernel_matrix (gp : GP) (x1 x2 : list R) : list (list R) :=
  dense.kernel_matrix
    (value_at (base (kernel gp)) (parameters (base (kernel gp)))) x1 x2.

(* the white-noise term [exp(log_white_noise(x))] at the coordinates [x] *)
Definition white_noise (gp : GP) (x : list R) : list R :=
  List.map (fun a => exp (value_at (log_white_noise gp)
                            (parameters (log_white_noise gp)) a)) x.

(* the diagonal of the training covariance: [yerr**2 + exp(log_white_noise(t))] *)
Definition training_diagonal (gp : GP) (t yerr : list R) : list R :=
  np.zip_with Rplus (List.map (fun x => x * x) yerr) (white_noise gp t).

(* [gp] is [gp0] with sub-models changed, none of which lost its dirty mark *)
Definition touched (gp0 gp : GP) : Prop :=
  solver gp = solver gp0 /\ _computed gp = _computed gp0 /\
  (modeling.dirty (mean gp0) = true -> modeling.dirty (mean gp) = true) /\
  (modeling.dirty (log_white_noise gp0) = true ->
   modeling.dirty (log_white_noise gp) = true) /\
  (modeling.dirty (base (kernel gp0)) = true ->
   modeling.dirty (base (kernel gp)) = true).

(* a property of the state that a call keeps, whether it returns or raises *)
Definition preserves (P : GP -> Prop) {A} (m : M A) : Prop :=
  forall gp, P gp -> P (snd (m gp)).

End spec.

(** ** States and outcomes of single calls *)

Module states.
Import modeling celerite.

(* [gp] with the coordinates and the uncertainties replaced *)
Definition rebound (gp : GP) (t yerr : ndarray) : GP :=
  {| kernel := kernel gp; solver := solver gp; _computed := _computed gp;
     _t := Some t; _yerr := Some yerr;
     log_white_noise := log_white_noise gp; mean := mean gp |}.

(* [gp] with a solver object, a new one if it had none *)
Definition with_a_solver (gp : GP) : GP :=
  {| kernel := kernel gp;
     solver := match solver gp with
               | Some s => Some s
               | None => Some solver.new
               end;
     _computed := _computed gp; _t := _t gp; _yerr := _yerr gp;
     log_white_noise := log_white_noise gp; mean := mean gp |}.

(* the coordinates fail the sortedness test of [compute] *)
Definition decreases (t : ndarray) : bool :=
  match np.diff t with
  | Ok d => np.any_lt d 0
  | Raise _ => false
  end.

(* every parameter of the composite, frozen or not, in the order of the bus *)
Definition all_parameters (gp : GP) : list R :=
  parameters (mean gp) ++ parameters (log_white_noise gp) ++
  parameters (base (kernel gp)).

(* what the parameter bus exposes of the sub-models *)
Definition same_parameters (gp0 gp : GP) : Prop :=
  all_parameters gp = all_parameters gp0 /\
  celerite.unfrozen_mask gp = celerite.unfrozen_mask gp0 /\
  celerite.parameter_names gp = celerite.parameter_names gp0 /\
  kernel_coefficients (kernel gp) = kernel_coefficients (kernel gp0).

(* the calls that are not meant to change a parameter: [compute], the
   queries, the assignment [gp.dirty = True] and [get_parameter] *)
Definition reads_only (c : call) : bool :=
  match c with
  | compute_ _ _ _ | log_likelihood_ _ _ | apply_inverse_ _ | dot_ _
  | predict_ _ _ _ _ | get_matrix_ _ _ _ | set_dirty_ => true
  | apply_ get_parameter_ _ => true
  | _ => false
  end.

(* what [_process_input] answers, given the bound coordinates *)
Definition check_input (t : option ndarray) (y : ndarray) : res ndarray :=
  match t with
  | None => Raise not_computed
  | Some t =>
      match np.len t with
      | Raise e => Raise e
      | Ok n =>
          match np.len y with
          | Raise e => Raise e
          | Ok m => if negb (n =? m)%nat then Raise dimension_mismatch else Ok y
          end
      end
  end.

(* the predictive mean of what [predict] returned *)
Definition mu_of (p : prediction) : ndarray :=
  match p with
  | Mu mu => mu
  | MuVar mu _ => mu
  | MuCov mu _ => mu
  end.

(* the shape of what [predict] returns, for the two flags *)
Definition kind_matches (return_cov return_var : bool) (p : prediction) : Prop :=
  match p with
  | Mu _ => return_var = false /\ return_cov = false
  | MuVar _ _ => return_var = true
  | MuCov _ _ => return_var = false /\ return_cov = true
  end.

(* every value the call may return satisfies [Q] *)
Definition returns {A} (Q : A -> Prop) (m : M A) : Prop :=
  forall gp a g, m gp = (Ok a, g) -> Q a.

(* whenever [m1] returns, [m2] returns from the same state a related value *)
Definition follows {A B} (f : A -> B -> Prop) (m1 : M A) (m2 : M B) : Prop :=
  forall gp a g, m1 gp = (Ok a, g) -> exists b g', m2 gp = (Ok b, g') /\ f a b.

(* the entry [M[i, j]] of a matrix, 0 outside of it *)
Definition entry (M : list (list R)) (i j : nat) : R := nth j (nth i M []) 0.

(* the covariance function of the kernel of [gp] *)
Definition covariance_function (gp : GP) : R -> R :=
  value_at (base (kernel gp)) (parameters (base (kernel gp))).

(* the sub-models are well formed and none declares a name twice *)
Definition proper (gp : GP) : Prop :=
  (well_formed (mean gp) /\ NoDup (modeling.parameter_names (mean gp))) /\
  (well_formed (log_white_noise gp) /\
   NoDup (modeling.parameter_names (log_white_noise gp))) /\
  (well_formed (base (kernel gp)) /\
   NoDup (modeling.parameter_names (base (kernel gp)))).


(* an error of the object's own bookkeeping: an attribute that is read
   before any assignment, or [None] where the coordinates are needed *)
Definition unassigned (e : exn) : bool :=
  match e with
  | AttributeError _ => true
  | TypeError msg => String.eqb msg "NoneType where an array is expected"
  | _ => false
  end.

(* what the calls read is assigned: bound coordinates come with
   uncertainties, and a set cache flag with a solver object; [bound] and
   [ready] ask for the coordinates and for the solver themselves *)
Definition standing (bound ready : bool) (gp : GP) : Prop :=
  (_t gp <> None -> _yerr gp <> None) /\
  (_computed gp = true -> solver gp <> None) /\
  (bound = true -> _t gp <> None) /\
  (ready = true -> solver gp <> None).

(* the call does not fail with an error of the bookkeeping *)
Definition quiet {A} (m : M A) (gp : GP) : Prop :=
  match fst (m gp) with
  | Raise e => unassigned e = false
  | Ok _ => True
  end.

Definition error_of {A} (r : res A) : option exn :=
  match r with
  | Ok _ => None
  | Raise e => Some e
  end.

(* the exception a call of the interface raises, if any *)
Definition raised (ops : solver.Ops) (junk : R) (c : call) (gp : GP) : option exn :=
  match c with
  | compute_ t yerr check_sorted => error_of (fst (compute junk t yerr check_sorted gp))
  | log_likelihood_ y _const => error_of (fst (log_likelihood ops junk y _const gp))
  | apply_inverse_ y => error_of (fst (apply_inverse ops junk y gp))
  | dot_ y => error_of (fst (dot ops junk y gp))
  | predict_ y t return_cov return_var =>
      error_of (fst (predict ops junk y t return_cov return_var gp))
  | get_matrix_ x1 x2 include_diagonal =>
      error_of (fst (get_matrix x1 x2 include_diagonal gp))
  | set_dirty_ => error_of (fst (set_dirty true gp))
  | set_parameter_vector_ v => error_of (fst (set_parameter_vector v gp))
  | apply_ f name => error_of (fst (_apply_to_parameter f name gp))
  | freeze_all_parameters_ => error_of (fst (freeze_all_parameters gp))
  | thaw_all_parameters_ => error_of (fst (thaw_all_parameters gp))
  | set_parameter__ name value => error_of (fst (set_parameter name value gp))
  end.

(* two matrices combined entry by entry, row by row *)
Fixpoint zip_matrix (f : R -> R -> R) (a b : list (list R)) : list (list R) :=
  match a, b with
  | r :: a', s :: b' => np.zip_with f r s :: zip_matrix f a' b'
  | _, _ => []
  end.
End states.

(** * Properties *)

Import modeling celerite spec.
Local Open Scope gp_scope.

(** ** Facts about the numpy fragment *)

Lemma map_map_arr (g h : R -> R) (a : ndarray) :
  np.map g (np.map h a) = np.map (fun x => g (h x)) a.
Proof.
  destruct a as [x|v|rows]; simpl; try reflexivity.
  - now rewrite List.map_map.
  - rewrite List.map_map. f_equal. apply List.map_ext. intros r.
    now rewrite List.map_map.
Qed.

Lemma zip_with_map (f : R -> R -> R) (g h : R -> R) (v : list R) :
  np.zip_with f (List.map g v) (List.map h v) =
  List.map (fun x => f (g x) (h x)) v.
Proof. induction v as [|x v IH]; simpl; [reflexivity | now rewrite IH]. Qed.

Lemma bvec_map (f : R -> R -> R) (g h : R -> R) (v : list R) :
  np.bvec f (List.map g v) (List.map h v) =
  Ok (List.map (fun x => f (g x) (h x)) v).
Proof.
  unfold np.bvec. rewrite !length_map, Nat.eqb_refl.
  now rewrite zip_with_map.
Qed.

Lemma zip_rows_map (f : R -> R -> R) (g h : R -> R) (rows : list (list R)) :
  res_all (np.zip_rows f (List.map (List.map g) rows) (List.map (List.map h) rows)) =
  Ok (List.map (List.map (fun x => f (g x) (h x))) rows).
Proof.
  induction rows as [|r rows IH]; simpl; [reflexivity|].
  now rewrite bvec_map, IH.
Qed.

(* two arrays computed elementwise from one array combine without a
   broadcasting error *)
Lemma binop_map (f : R -> R -> R) (g h : R -> R) (a : ndarray) :
  np.binop f (np.map g a) (np.map h a) = Ok (np.map (fun x => f (g x) (h x)) a).
Proof.
  destruct a as [x|v|rows]; simpl; try reflexivity.
  - now rewrite bvec_map.
  - unfold np.bmat. rewrite !length_map, Nat.eqb_refl.
    now rewrite zip_rows_map.
Qed.

Lemma repeat_length_map (e : R) (g : R -> R) (v : list R) :
  repeat e (List.length (List.map g v)) = List.map (fun _ => e) v.
Proof. induction v as [|x v IH]; simpl; [reflexivity | now rewrite IH]. Qed.

(* filling fresh storage with a scalar *)
Lemma fill_scalar (junk e : R) (t : ndarray) :
  np.ndim t <> 0%nat ->
  np.fill (np.empty_like junk t) (Arr0 e) = Ok (np.map (fun _ => e) t).
Proof.
  destruct t as [x|v|rows]; simpl; intros H; [congruence| |].
  - now rewrite repeat_length_map.
  - do 2 f_equal. rewrite List.map_map. apply List.map_ext. intros r.
    apply repeat_length_map.
Qed.

(** ** [compute] *)

Lemma any_lt_diff1 (v : list R) :
  nondecreasing v -> existsb (fun x => np.ltb x 0) (np.diff1 v) = false.
Proof.
  induction v as [|a v IH]; [reflexivity|].
  destruct v as [|b v]; [reflexivity|].
  intros [Hab Hs].
  change (np.diff1 (a :: b :: v)) with ((b - a) :: np.diff1 (b :: v)).
  cbn [existsb]. rewrite (IH Hs), orb_false_r.
  unfold np.ltb. destruct (Rlt_dec (b - a) 0); [lra | reflexivity].
Qed.

(* [compute] with a scalar uncertainty, once its checks have passed *)
Lemma compute_scalar (junk e : R) (t : ndarray) (check_sorted : bool) (gp : GP) :
  np.ndim t <> 0%nat ->
  (check_sorted = true ->
     (exists d, np.diff t = Ok d /\ np.any_lt d 0 = false) /\ (np.ndim t <= 1)%nat) ->
  compute junk t (Arr0 e) check_sorted gp =
  (Ok tt, after_compute gp t (np.map (fun _ => e) t)
            (np.map (fun x => e * e + exp (value_at (log_white_noise gp)
                                             (parameters (log_white_noise gp)) x)) t)).
Proof.
  intros Hnd Hchk. unfold compute.
  assert (Ht : np.atleast_1d t = t) by (destruct t; simpl in *; congruence).
  rewrite Ht.
  assert (Hdiag : diag_of gp t (np.map (fun _ => e) t) =
                  Ok (np.map (fun x => e * e + exp (value_at (log_white_noise gp)
                                 (parameters (log_white_noise gp)) x)) t)).
  { unfold diag_of, get_value, np.add. rewrite !map_map_arr.
    now rewrite binop_map. }
  unfold diag_of in Hdiag.
  unfold bind, when, lift, get, raise, ret.
  destruct check_sorted.
  - destruct (Hchk eq_refl) as [[d [Hd Hany]] Hdim].
    rewrite Hd, Hany.
    replace (1 <? np.ndim t)%nat with false
      by (symmetry; apply Nat.ltb_ge; exact Hdim).
    cbn [andb]. cbv beta iota.
    rewrite fill_scalar by assumption.
    unfold set__t, set__yerr, _get_diag, coords, attr, bind, get, ret, lift.
    cbn [_t _yerr solver log_white_noise fst snd].
    destruct (solver gp); cbn; rewrite Hdiag; reflexivity.
  - cbn [andb]. cbv beta iota.
    rewrite fill_scalar by assumption.
    unfold set__t, set__yerr, _get_diag, coords, attr, bind, get, ret, lift.
    cbn [_t _yerr solver log_white_noise fst snd].
    destruct (solver gp); cbn; rewrite Hdiag; reflexivity.
Qed.

Lemma diff1_any_lt (v : list R) :
  existsb (fun x => np.ltb x 0) (np.diff1 v) = false -> nondecreasing v.
Proof.
  induction v as [|a v IH]; [exact (fun _ => I)|].
  destruct v as [|b v]; [exact (fun _ => I)|].
  change (np.diff1 (a :: b :: v)) with ((b - a) :: np.diff1 (b :: v)).
  cbn [existsb]. intros H. apply orb_false_elim in H as [Hab Hs].
  split; [|exact (IH Hs)].
  unfold np.ltb in Hab. destruct (Rlt_dec (b - a) 0); [discriminate | lra].
Qed.

Lemma compute_atleast_1d (junk : R) (t yerr : ndarray) (check_sorted : bool) :
  compute junk t yerr check_sorted =
  compute junk (np.atleast_1d t) yerr check_sorted.
Proof.
  unfold compute.
  assert (H : np.atleast_1d (np.atleast_1d t) = np.atleast_1d t)
    by (destruct t; reflexivity).
  now rewrite H.
Qed.

Lemma ndim_atleast_1d (t : ndarray) : np.ndim (np.atleast_1d t) <> 0%nat.
Proof. destruct t; simpl; discriminate. Qed.

(* a sorted one-dimensional array passes the checks of [compute] *)
Lemma compute_sorted (junk e : R) (v : list R) (gp : GP) :
  nondecreasing v ->
  compute junk (Arr1 v) (Arr0 e) true gp =
  (Ok tt, after_compute gp (Arr1 v) (np.map (fun _ => e) (Arr1 v))
            (np.map (fun x => e * e + exp (value_at (log_white_noise gp)
                                             (parameters (log_white_noise gp)) x))
                    (Arr1 v))).
Proof.
  intros Hs. apply compute_scalar; [simpl; discriminate|].
  intros _. split; [|simpl; lia].
  exists (Arr1 (np.diff1 v)). split; [reflexivity|].
  simpl. now apply any_lt_diff1.
Qed.

(* a decreasing adjacent pair is rejected, whatever the uncertainties, and
   the object is left as it was *)
Lemma compute_unsorted (junk : R) (v : list R) (yerr : ndarray) (gp : GP) :
  ~ nondecreasing v ->
  compute junk (Arr1 v) yerr true gp = (Raise not_sorted, gp).
Proof.
  intros Hs. unfold compute, bind, when, lift, raise, ret. simpl np.atleast_1d.
  simpl np.diff. cbv beta iota.
  destruct (existsb (fun x => np.ltb x 0) (np.diff1 v)) eqn:E.
  - simpl. now rewrite E.
  - exfalso. apply Hs. now apply diff1_any_lt.
Qed.

(** C7: [compute] on the unsorted coordinates [t = [2, 1, 3]] raises the
    validation error "the input coordinates must be sorted" when
    [check_sorted] is true, whatever the uncertainties, and leaves the object
    unchanged; the same call with [check_sorted=False] returns without
    error and binds the coordinates. *)
Theorem compute_unsorted_example (junk e : R) (yerr : ndarray) (gp : GP) :
  compute junk (Arr1 [2; 1; 3]) yerr true gp = (Raise not_sorted, gp) /\
  fst (compute junk (Arr1 [2; 1; 3]) (Arr0 e) false gp) = Ok tt /\
  _t (snd (compute junk (Arr1 [2; 1; 3]) (Arr0 e) false gp)) = Some (Arr1 [2; 1; 3]).
Proof.
  split.
  - apply compute_unsorted. simpl. lra.
  - rewrite compute_scalar; [split; reflexivity | simpl; discriminate | discriminate].
Qed.




(** ** The parameter bus *)

(* the state after [self.dirty = True] *)
Lemma set_dirty_true (gp : GP) :
  set_dirty true gp =
  (Ok tt, {| kernel := with_base (kernel gp) (modeling.set_dirty (base (kernel gp)) true);
             solver := solver gp; _computed := false; _t := _t gp; _yerr := _yerr gp;
             log_white_noise := modeling.set_dirty (log_white_noise gp) true;
             mean := modeling.set_dirty (mean gp) true |}).
Proof. reflexivity. Qed.

(** C9: for a name that starts with none of the tags ["mean:"],
    ["log_white_noise:"] and ["kernel:"], [set_parameter(name, value)] raises
    "unrecognized parameter" and nevertheless leaves the composite marked
    dirty: the flag is set before the name is dispatched, so the cache flag
    and the dirty flags of all three sub-models are overwritten, and an
    object that was clean is not left as it was. *)
Theorem set_parameter_unrecognized (gp : GP) (name : string) (value : R) :
  prefix "mean:" name = false ->
  prefix "log_white_noise:" name = false ->
  prefix "kernel:" name = false ->
  fst (set_parameter name value gp) = Raise (unrecognized name) /\
  snd (set_parameter name value gp) = snd (set_dirty true gp) /\
  dirty (snd (set_parameter name value gp)) = true /\
  _computed (snd (set_parameter name value gp)) = false /\
  (dirty gp = false -> snd (set_parameter name value gp) <> gp).
Proof.
  intros Hm Hn Hk.
  assert (E : set_parameter name value gp =
              (Raise (unrecognized name), snd (set_dirty true gp))).
  { unfold set_parameter, bind. rewrite set_dirty_true.
    unfold _apply_to_parameter, bind, get. now rewrite Hm, Hn, Hk. }
  rewrite E, set_dirty_true. cbn [fst snd].
  repeat split.
  intros Hclean Heq. rewrite <- Heq in Hclean. discriminate Hclean.
Qed.

Lemma set_parameter_unrecognized_witness :
  fst (set_parameter "amplitude" 1 (examples.gp_of 1 0 0)) =
  Raise (unrecognized "amplitude") /\
  dirty (snd (set_parameter "amplitude" 1 (examples.gp_of 1 0 0))) = true.
Proof.
  destruct (set_parameter_unrecognized (examples.gp_of 1 0 0) "amplitude" 1
              eq_refl eq_refl eq_refl) as [H1 [_ [H2 _]]].
  split; [exact H1 | exact H2].
Defined.

(** ** Properties kept by every call *)

Section Preservation.

Variable P : GP -> Prop.

Lemma preserves_ret {A} (a : A) : preserves P (ret a).
Proof. intros gp H. exact H. Qed.

Lemma preserves_raise {A} (e : exn) : preserves P (@raise A e).
Proof. intros gp H. exact H. Qed.

Lemma preserves_lift {A} (r : res A) : preserves P (lift r).
Proof. intros gp H. exact H. Qed.

Lemma preserves_get : preserves P get.
Proof. intros gp H. exact H. Qed.

Lemma preserves_attr {A} (name : string) (o : option A) : preserves P (attr name o).
Proof. intros gp H. destruct o; exact H. Qed.

Lemma preserves_coords : preserves P coords.
Proof. intros gp H. unfold coords, bind, get. destruct (_t gp); exact H. Qed.

Lemma preserves_bind {A B} (m : M A) (k : A -> M B) :
  preserves P m -> (forall a, preserves P (k a)) -> preserves P (bind m k).
Proof.
  intros Hm Hk gp H. unfold bind. specialize (Hm gp H).
  destruct (m gp) as [[a|e] gp']; cbn [snd] in *; [now apply Hk | exact Hm].
Qed.

Lemma preserves_when (b : bool) (m : M unit) :
  preserves P m -> preserves P (when b m).
Proof. intros Hm. destruct b; [exact Hm | apply preserves_ret]. Qed.

End Preservation.

Ltac preserve :=
  repeat first
    [ apply preserves_ret | apply preserves_raise | apply preserves_lift
    | apply preserves_get | apply preserves_attr | apply preserves_coords
    | assumption
    | match goal with H : forall _, _ |- _ => solve [apply H] end
    | apply preserves_when
    | apply preserves_bind; [|intros ?]
    | match goal with
      | |- preserves _ (match ?x with _ => _ end) => destruct x
      | |- preserves _ (let '(_, _) := ?x in _) => destruct x
      end ].

Section Queries.

Variable ops : solver.Ops.
Variable junk : R.
Variable P : GP -> Prop.
Hypothesis recompute : preserves P (_recompute junk).

Lemma preserves__process_input y : preserves P (_process_input y).
Proof. unfold _process_input. preserve. Qed.

Lemma preserves__get_diag : preserves P _get_diag.
Proof. unfold _get_diag. preserve. Qed.

Lemma preserves_log_likelihood y c : preserves P (log_likelihood ops junk y c).
Proof.
  unfold log_likelihood. pose proof preserves__process_input. preserve.
Qed.

Lemma preserves_apply_inverse y : preserves P (apply_inverse ops junk y).
Proof.
  unfold apply_inverse. pose proof preserves__process_input. preserve.
Qed.

Lemma preserves_dot y : preserves P (dot ops junk y).
Proof.
  unfold dot. pose proof preserves__process_input. preserve.
Qed.

Lemma preserves_get_matrix x1 x2 incl : preserves P (get_matrix x1 x2 incl).
Proof.
  unfold get_matrix. pose proof preserves__get_diag. preserve.
Qed.

Lemma preserves_predict y t rc rv : preserves P (predict ops junk y t rc rv).
Proof.
  unfold predict.
  pose proof preserves__process_input. pose proof preserves__get_diag.
  pose proof preserves_get_matrix. pose proof preserves_apply_inverse.
  preserve.
Qed.

End Queries.

(** ** Before the first [compute] *)

Section Unbound.

Variable ops : solver.Ops.
Variable junk : R.

Lemma unbound_dirty gp : unbound gp -> dirty gp = true.
Proof. intros [_ H]. unfold dirty. rewrite H. apply orb_true_r. Qed.

Lemma unbound__recompute gp :
  unbound gp -> _recompute junk gp = (Raise not_computed, gp).
Proof.
  intros H. unfold _recompute, bind, get, when.
  rewrite (unbound_dirty gp H). destruct H as [Ht _]. now rewrite Ht.
Qed.

Lemma unbound__process_input y gp :
  unbound gp -> _process_input y gp = (Raise not_computed, gp).
Proof.
  intros [Ht _]. unfold _process_input, bind, get. now rewrite Ht.
Qed.

Lemma preserves_unbound__recompute : preserves unbound (_recompute junk).
Proof. intros gp H. now rewrite unbound__recompute. Qed.

Lemma preserves_unbound_set_mean m : preserves unbound (set_mean m).
Proof. intros gp H. exact H. Qed.

Lemma preserves_unbound_set_log_white_noise m :
  preserves unbound (set_log_white_noise m).
Proof. intros gp H. exact H. Qed.

Lemma preserves_unbound_set_kernel k : preserves unbound (set_kernel k).
Proof. intros gp H. exact H. Qed.

Lemma preserves_unbound_set_dirty : preserves unbound (set_dirty true).
Proof. intros gp [Ht Hc]. split; [exact Ht | reflexivity]. Qed.

Lemma preserves_unbound__apply_to_parameter f name :
  preserves unbound (_apply_to_parameter f name).
Proof.
  unfold _apply_to_parameter.
  pose proof preserves_unbound_set_mean.
  pose proof preserves_unbound_set_log_white_noise.
  pose proof preserves_unbound_set_kernel.
  apply preserves_bind; [apply preserves_get | intros gp].
  destruct (prefix "mean:" name); [preserve; auto|].
  destruct (prefix "log_white_noise:" name); [preserve; auto|].
  destruct (prefix "kernel:" name); preserve; auto.
Qed.

(* a call other than [compute] binds no coordinates *)
Lemma exec_unbound (c : call) (gp : GP) :
  is_compute c = false -> unbound gp -> unbound (exec ops junk c gp).
Proof.
  pose proof preserves_unbound__recompute as Hr.
  pose proof preserves_unbound_set_mean.
  pose proof preserves_unbound_set_log_white_noise.
  pose proof preserves_unbound_set_kernel.
  destruct c; cbn [is_compute exec]; intros Hc; try discriminate Hc; clear Hc.
  - now apply preserves_log_likelihood.
  - now apply preserves_apply_inverse.
  - now apply preserves_dot.
  - now apply preserves_predict.
  - now apply preserves_get_matrix.
  - apply preserves_unbound_set_dirty.
  - unfold set_parameter_vector. preserve; auto.
  - apply preserves_unbound__apply_to_parameter.
  - unfold freeze_all_parameters. preserve; auto.
  - unfold thaw_all_parameters. preserve; auto.
  - unfold set_parameter. apply preserves_bind;
      [apply preserves_unbound_set_dirty
      | intros; apply preserves_unbound__apply_to_parameter].
Qed.

Lemma run_unbound (history : list call) (gp : GP) :
  forallb (fun c => negb (is_compute c)) history = true ->
  unbound gp -> unbound (run ops junk history gp).
Proof.
  revert gp. induction history as [|c history IH]; intros gp Hh Hgp; [exact Hgp|].
  cbn [forallb] in Hh. apply andb_prop in Hh as [Hc Hh].
  cbn [run fold_left]. apply IH; [exact Hh|].
  apply exec_unbound; [|exact Hgp]. now destruct (is_compute c).
Qed.

Lemma init_unbound kernel mean fit_mean noise fit_white_noise :
  unbound (__init__ kernel mean fit_mean noise fit_white_noise).
Proof. split; reflexivity. Qed.

(* without [compute] no solver is created either *)
Lemma exec_unsolved (c : call) (gp : GP) :
  is_compute c = false ->
  unbound gp /\ solver gp = None ->
  unbound (exec ops junk c gp) /\ solver (exec ops junk c gp) = None.
Proof.
  set (P := fun g : GP => unbound g /\ solver g = None).
  assert (Hr : preserves P (_recompute junk)).
  { intros g [H Hs]. now rewrite unbound__recompute. }
  assert (Hm : forall m, preserves P (set_mean m)) by (intros m g H; exact H).
  assert (Hn : forall m, preserves P (set_log_white_noise m))
    by (intros m g H; exact H).
  assert (Hk : forall k, preserves P (set_kernel k)) by (intros k g H; exact H).
  assert (Hd : preserves P (set_dirty true)).
  { intros g [[Ht Hc] Hs]. repeat split; [exact Ht | exact Hs]. }
  assert (Ha : forall f name, preserves P (_apply_to_parameter f name)).
  { intros f name. unfold _apply_to_parameter.
    apply preserves_bind; [apply preserves_get | intros g].
    destruct (prefix "mean:" name); [preserve; auto|].
    destruct (prefix "log_white_noise:" name); [preserve; auto|].
    destruct (prefix "kernel:" name); preserve; auto. }
  change (is_compute c = false -> P gp -> P (exec ops junk c gp)).
  destruct c; cbn [is_compute exec]; intros Hc; try discriminate Hc; clear Hc.
  - now apply preserves_log_likelihood.
  - now apply preserves_apply_inverse.
  - now apply preserves_dot.
  - now apply preserves_predict.
  - now apply preserves_get_matrix.
  - apply Hd.
  - unfold set_parameter_vector. preserve; auto.
  - apply Ha.
  - unfold freeze_all_parameters. preserve; auto.
  - unfold thaw_all_parameters. preserve; auto.
  - unfold set_parameter. apply preserves_bind; [exact Hd | intros; apply Ha].
Qed.

Lemma run_unsolved (history : list call) (gp : GP) :
  forallb (fun c => negb (is_compute c)) history = true ->
  unbound gp /\ solver gp = None ->
  unbound (run ops junk history gp) /\ solver (run ops junk history gp) = None.
Proof.
  revert gp. induction history as [|c history IH]; intros gp Hh Hgp; [exact Hgp|].
  cbn [forallb] in Hh. apply andb_prop in Hh as [Hc Hh].
  cbn [run fold_left]. apply IH; [exact Hh|].
  apply exec_unsolved; [|exact Hgp]. now destruct (is_compute c).
Qed.

(* the state after [self.dirty = False] *)
Lemma set_dirty_false (gp : GP) :
  set_dirty false gp =
  (Ok tt, {| kernel := with_base (kernel gp) (modeling.set_dirty (base (kernel gp)) false);
             solver := solver gp; _computed := true; _t := _t gp; _yerr := _yerr gp;
             log_white_noise := modeling.set_dirty (log_white_noise gp) false;
             mean := modeling.set_dirty (mean gp) false |}).
Proof. reflexivity. Qed.

(** C5: on a [GP] object on which [compute] was never called, whatever
    other calls of the interface were made since its construction, every
    solver-dependent operation ([log_likelihood], [apply_inverse], [dot],
    [predict], and [get_matrix] with both coordinate sets omitted) raises
    the usage error "you must call 'compute' first", whatever its
    arguments.  The assignment [gp.dirty = False] breaks this for two of
    them.  After it, on the same object, [log_likelihood], [predict] and
    [get_matrix()] still raise the usage error, since they test [_t]
    themselves; [apply_inverse] and [dot] leave the test to [_recompute],
    which an object that reads clean skips, and fail on the solver that was
    never created, with an [AttributeError]. *)
Theorem not_computed_before_compute
    (kernel : Kernel) (mean : R + Model) (fit_mean : bool)
    (noise : R + Model) (fit_white_noise : bool) (history : list call) :
  forallb (fun c => negb (is_compute c)) history = true ->
  let gp := run ops junk history
              (__init__ kernel mean fit_mean noise fit_white_noise) in
  let gp' := snd (set_dirty false gp) in
  (forall y c, fst (log_likelihood ops junk y c gp) = Raise not_computed) /\
  (forall y, fst (apply_inverse ops junk y gp) = Raise not_computed) /\
  (forall y, fst (dot ops junk y gp) = Raise not_computed) /\
  (forall y t return_cov return_var,
     fst (predict ops junk y t return_cov return_var gp) = Raise not_computed) /\
  (forall include_diagonal,
     fst (get_matrix None None include_diagonal gp) = Raise not_computed) /\
  (forall y c, fst (log_likelihood ops junk y c gp') = Raise not_computed) /\
  (forall y t return_cov return_var,
     fst (predict ops junk y t return_cov return_var gp') = Raise not_computed) /\
  (forall include_diagonal,
     fst (get_matrix None None include_diagonal gp') = Raise not_computed) /\
  (forall y, fst (apply_inverse ops junk y gp') = Raise (AttributeError "solver")) /\
  (forall y, fst (dot ops junk y gp') = Raise (AttributeError "solver")).
Proof.
  intros Hh gp gp'.
  assert (H : unbound gp /\ solver gp = None).
  { apply run_unsolved; [exact Hh|]. split; [apply init_unbound | reflexivity]. }
  destruct H as [H Hs].
  assert (Ht' : _t gp' = None) by (destruct H as [Ht _]; exact Ht).
  assert (Hr' : _recompute junk gp' = (Ok tt, gp')).
  { unfold _recompute, bind, get, when. reflexivity. }
  assert (Hs' : solver gp' = None) by exact Hs.
  split; [|split; [|split; [|split; [|split; [|split; [|split; [|split; [|split]]]]]]]];
    intros.
  - unfold log_likelihood, bind. now rewrite unbound__process_input.
  - unfold apply_inverse, bind. now rewrite unbound__recompute.
  - unfold dot, bind. now rewrite unbound__recompute.
  - unfold predict, bind. now rewrite unbound__process_input.
  - unfold get_matrix, bind, get. destruct H as [Ht _]. now rewrite Ht.
  - unfold log_likelihood, bind at 1, _process_input, bind at 1, get.
    now rewrite Ht'.
  - unfold predict, bind at 1, _process_input, bind at 1, get.
    now rewrite Ht'.
  - unfold get_matrix, bind, get. now rewrite Ht'.
  - unfold apply_inverse, bind at 1. rewrite Hr'.
    unfold bind at 1, get. unfold bind at 1. now rewrite Hs'.
  - unfold dot, bind at 1. rewrite Hr'.
    unfold bind at 1, get. unfold bind at 1. now rewrite Hs'.
Qed.

End Unbound.

Lemma not_computed_before_compute_witness :
  fst (log_likelihood dense.ops 0 (Arr1 [1; 2]) log_2pi
         (run dense.ops 0 [set_parameter__ "kernel:a" 2; set_dirty_]
              (examples.gp_of 1 0 0))) = Raise not_computed /\
  fst (apply_inverse dense.ops 0 (Arr1 [1; 2])
         (snd (set_dirty false (examples.gp_of 1 0 0)))) =
    Raise (AttributeError "solver").
Proof.
  split.
  - exact (proj1 (not_computed_before_compute dense.ops 0
                    (examples.constant_kernel 1) (inl 0) false (inl 0) false
                    [set_parameter__ "kernel:a" 2; set_dirty_] eq_refl)
                 (Arr1 [1; 2]) log_2pi).
  - apply (not_computed_before_compute dense.ops 0
             (examples.constant_kernel 1) (inl 0) false (inl 0) false
             [] eq_refl).
Defined.

(** ** The cache flag *)

Ltac run_monad :=
  unfold bind, when, lift, get, raise, ret, attr, coords,
         set__t, set__yerr, set_solver, set__computed, set_mean,
         set_log_white_noise, set_kernel;
  cbn [fst snd _t _yerr solver _computed kernel mean log_white_noise].

Ltac split_match :=
  match goal with
  | |- context [match ?x with _ => _ end] => destruct x eqn:?
  | |- context [if ?x then _ else _] => destruct x eqn:?
  end.

(* what one call of [compute] does to the flags: a call that returns leaves
   the object clean and the solver factored, a call that raises leaves the
   flags and the sub-models as they were *)
Lemma compute_outcome (junk : R) (t yerr : ndarray) (check_sorted : bool) (gp : GP) :
  match compute junk t yerr check_sorted gp with
  | (Ok _, gp') =>
      dirty gp' = false /\ has_computed gp' = true /\ _computed gp' = true
  | (Raise _, gp') =>
      _computed gp' = _computed gp /\ mean gp' = mean gp /\
      log_white_noise gp' = log_white_noise gp /\ kernel gp' = kernel gp /\
      has_computed gp' = has_computed gp
  end.
Proof.
  assert (Tail : forall g, _computed g = _computed gp -> mean g = mean gp ->
            log_white_noise g = log_white_noise gp -> kernel g = kernel gp ->
            solver g = solver gp ->
            match
              (set__t (np.atleast_1d t) ;;
               set__yerr (np.empty_like junk (np.atleast_1d t)) ;;
               filled <- lift (np.fill (np.empty_like junk (np.atleast_1d t)) yerr) ;;
               set__yerr filled ;;
               gp <- get ;;
               when (match solver gp with None => true | Some _ => false end)
                    (set_solver solver.new) ;;
               gp <- get ;;
               s <- attr "solver" (solver gp) ;;
               diag <- _get_diag ;;
               set_solver (solver.compute s (kernel_coefficients (kernel gp))
                                          (np.atleast_1d t) diag) ;;
               set_dirty false) g
            with
            | (Ok _, gp') =>
                dirty gp' = false /\ has_computed gp' = true /\ _computed gp' = true
            | (Raise _, gp') =>
                _computed gp' = _computed gp /\ mean gp' = mean gp /\
                log_white_noise gp' = log_white_noise gp /\ kernel gp' = kernel gp /\
                has_computed gp' = has_computed gp
            end).
  { intros g Hc Hm Hn Hk Hs.
    unfold _get_diag, set_dirty, has_computed. run_monad.
    destruct (np.fill _ yerr); cbn; [|rewrite Hs; auto].
    destruct (solver g) eqn:Es; cbn.
    - destruct (np.add _ _); cbn; [auto | rewrite <- Hs; auto].
    - destruct (np.add _ _); cbn; [auto | rewrite <- Hs; auto]. }
  unfold compute. unfold bind at 1.
  destruct check_sorted; cbn [when].
  - unfold bind at 1, lift at 1.
    destruct (np.diff (np.atleast_1d t)); [|cbn; auto].
    destruct (np.any_lt a 0); cbn [when raise ret]; [cbn; auto|].
    unfold bind at 1.
    destruct (1 <? np.ndim (np.atleast_1d t))%nat; cbn [andb when raise ret];
      [cbn; auto | now apply Tail].
  - cbn [ret]. unfold bind at 1. cbn [andb when ret]. now apply Tail.
Qed.

Lemma set_parameter_vector_dirty (m m' : Model) (v : list R) :
  modeling.set_parameter_vector m v = Ok m' -> modeling.dirty m' = true.
Proof.
  unfold modeling.set_parameter_vector.
  destruct (_ =? _)%nat; [|discriminate]. intros H. injection H as <-. reflexivity.
Qed.

Lemma call_method_dirty (f : func) (m m' : Model) (name : string) (r : option R) :
  call_method f m name = Ok (m', r) ->
  modeling.dirty m = true -> modeling.dirty m' = true.
Proof.
  unfold call_method, modeling.freeze_parameter, modeling.thaw_parameter,
         modeling.get_parameter, modeling.set_parameter.
  destruct f; destruct (index_of name (modeling.parameter_names m));
    intros H; try discriminate H; injection H as <- _; auto.
Qed.

Lemma touched_refl (gp : GP) : touched gp gp.
Proof. repeat split; auto. Qed.

Lemma touched_consistent (gp0 gp : GP) :
  touched gp0 gp -> consistent gp0 -> consistent gp.
Proof.
  intros (Hs & Hc & Hm & Hn & Hk) [H1 H2].
  unfold consistent, has_computed, submodel_dirty in *.
  rewrite Hs, Hc. split; [exact H1|].
  intros E. destruct (H2 E) as [H|H]; [now left | right].
  apply orb_true_iff in H as [H|H];
    [apply orb_true_iff in H as [H|H]|].
  - now rewrite (Hm H).
  - rewrite (Hn H). now rewrite orb_true_r.
  - rewrite (Hk H). now rewrite !orb_true_r.
Qed.

Lemma touched_set_parameter_vector (v : list R) (gp : GP) :
  touched gp (snd (set_parameter_vector v gp)).
Proof.
  unfold set_parameter_vector. run_monad.
  destruct (modeling.set_parameter_vector (mean gp) _) as [m|e] eqn:Em; cbn;
    [|apply touched_refl].
  destruct (modeling.set_parameter_vector (log_white_noise gp) _) as [n|e] eqn:En; cbn.
  - destruct (modeling.set_parameter_vector (base (kernel gp)) _) as [k|e] eqn:Ek; cbn.
    + repeat split; cbn; intros _;
        eauto using set_parameter_vector_dirty.
    + repeat split; cbn; intros H; eauto using set_parameter_vector_dirty.
  - repeat split; cbn; intros H; eauto using set_parameter_vector_dirty.
Qed.

Lemma touched__apply_to_parameter (f : func) (name : string) (gp : GP) :
  touched gp (snd (_apply_to_parameter f name gp)).
Proof.
  unfold _apply_to_parameter. run_monad.
  destruct (prefix "mean:" name).
  { destruct (call_method f (mean gp) _) as [[m r]|e] eqn:E; cbn;
      [|apply touched_refl].
    repeat split; cbn; eauto using call_method_dirty. }
  destruct (prefix "log_white_noise:" name).
  { destruct (call_method f (log_white_noise gp) _) as [[m r]|e] eqn:E; cbn;
      [|apply touched_refl].
    repeat split; cbn; eauto using call_method_dirty. }
  destruct (prefix "kernel:" name); [|apply touched_refl].
  destruct (call_method f (base (kernel gp)) _) as [[m r]|e] eqn:E; cbn;
    [|apply touched_refl].
  repeat split; cbn; eauto using call_method_dirty.
Qed.

Lemma touched_freeze_all (gp : GP) : touched gp (snd (freeze_all_parameters gp)).
Proof. repeat split; cbn; auto. Qed.

Lemma touched_thaw_all (gp : GP) : touched gp (snd (thaw_all_parameters gp)).
Proof. repeat split; cbn; auto. Qed.

Lemma consistent_set_dirty (gp : GP) :
  consistent gp -> consistent (snd (set_dirty true gp)).
Proof.
  intros _. rewrite set_dirty_true. split; [reflexivity|].
  intros _. right. reflexivity.
Qed.

Lemma consistent_compute (junk : R) (t yerr : ndarray) (check_sorted : bool) :
  preserves consistent (compute junk t yerr check_sorted).
Proof.
  intros gp [H1 H2]. pose proof (compute_outcome junk t yerr check_sorted gp) as H.
  destruct (compute junk t yerr check_sorted gp) as [[u|e] gp']; cbn [snd].
  - destruct H as (Hd & Hh & Hc). split; intros E; congruence.
  - destruct H as (Hc & Hm & Hn & Hk & Hh).
    unfold consistent, submodel_dirty. rewrite Hc, Hm, Hn, Hk, Hh. now split.
Qed.

Lemma consistent__recompute (junk : R) : preserves consistent (_recompute junk).
Proof.
  unfold _recompute. pose proof (consistent_compute junk). preserve.
Qed.

Section History.

Variable ops : solver.Ops.
Variable junk : R.

(* every call keeps the flag consistent *)
Lemma exec_consistent (c : call) (gp : GP) :
  consistent gp -> consistent (exec ops junk c gp).
Proof.
  pose proof (consistent__recompute junk) as Hr.
  destruct c; cbn [exec].
  - apply consistent_compute.
  - now apply preserves_log_likelihood.
  - now apply preserves_apply_inverse.
  - now apply preserves_dot.
  - now apply preserves_predict.
  - now apply preserves_get_matrix.
  - apply consistent_set_dirty.
  - apply touched_consistent, touched_set_parameter_vector.
  - apply touched_consistent, touched__apply_to_parameter.
  - apply touched_consistent, touched_freeze_all.
  - apply touched_consistent, touched_thaw_all.
  - intros H. unfold set_parameter, bind.
    pose proof (consistent_set_dirty gp H) as H'.
    destruct (set_dirty true gp) as [[u|e] gp']; cbn [snd] in *; [|exact H'].
    revert H'. apply touched_consistent, touched__apply_to_parameter.
Qed.

Lemma run_consistent (history : list call) (gp : GP) :
  consistent gp -> consistent (run ops junk history gp).
Proof.
  revert gp. induction history as [|c history IH]; intros gp H; [exact H|].
  cbn [run fold_left]. apply IH. now apply exec_consistent.
Qed.

Lemma init_consistent kernel mean fit_mean noise fit_white_noise :
  consistent (__init__ kernel mean fit_mean noise fit_white_noise).
Proof. split; [reflexivity | intros _; left; reflexivity]. Qed.

Lemma consistent_dirty (gp : GP) :
  consistent gp ->
  (dirty gp = true <->
   modeling.dirty (mean gp) = true \/
   modeling.dirty (log_white_noise gp) = true \/
   modeling.dirty (base (kernel gp)) = true \/
   has_computed gp = false).
Proof.
  intros [H1 H2]. unfold dirty, submodel_dirty in *.
  destruct (modeling.dirty (mean gp)), (modeling.dirty (log_white_noise gp)),
    (modeling.dirty (base (kernel gp))), (_computed gp) eqn:Ec,
    (has_computed gp) eqn:Eh; cbn in *; intuition (try discriminate).
Qed.

Lemma set_parameter_dirty (name : string) (value : R) (gp : GP) :
  dirty (snd (set_parameter name value gp)) = true.
Proof.
  unfold set_parameter, bind. rewrite set_dirty_true.
  match goal with |- context [_apply_to_parameter ?f ?n ?g] =>
    destruct (touched__apply_to_parameter f n g) as (_ & Hc & _) end.
  unfold dirty. rewrite Hc. cbn. apply orb_true_r.
Qed.

End History.

(** C4: in every state a [GP] object reaches from its construction by
    calls of its interface other than the assignment [gp.dirty = False],
    [dirty] reads true exactly when the mean, the white-noise model or the
    kernel is dirty, or the solver has never completed a [compute].  In any
    state at all, a [compute] that returns leaves [dirty] false, [compute]
    returns on sorted one-dimensional coordinates, and a [set_parameter],
    whatever the name and the value, and whether it returns or raises, makes
    [dirty] true.  The assignment [gp.dirty = False] clears the cache flag
    and the flags of the sub-models without factoring anything: after it
    [dirty] reads false, whatever the solver holds. *)
Theorem dirty_flag (ops : solver.Ops) (junk : R)
    (kernel : Kernel) (mean : R + Model) (fit_mean : bool)
    (noise : R + Model) (fit_white_noise : bool) (history : list call) (g : GP) :
  let gp := run ops junk history
              (__init__ kernel mean fit_mean noise fit_white_noise) in
  (dirty gp = true <->
   modeling.dirty (celerite.mean gp) = true \/
   modeling.dirty (log_white_noise gp) = true \/
   modeling.dirty (base (celerite.kernel gp)) = true \/
   has_computed gp = false) /\
  (forall t yerr check_sorted,
     fst (compute junk t yerr check_sorted g) = Ok tt ->
     dirty (snd (compute junk t yerr check_sorted g)) = false) /\
  (forall v e, nondecreasing v ->
     fst (compute junk (Arr1 v) (Arr0 e) true g) = Ok tt /\
     dirty (snd (compute junk (Arr1 v) (Arr0 e) true g)) = false) /\
  (forall name value, dirty (snd (set_parameter name value g)) = true) /\
  dirty (snd (set_dirty false g)) = false /\
  has_computed (snd (set_dirty false g)) = has_computed g.
Proof.
  intros gp.
  assert (Hclean : forall t yerr check_sorted,
            fst (compute junk t yerr check_sorted g) = Ok tt ->
            dirty (snd (compute junk t yerr check_sorted g)) = false).
  { intros t yerr cs H. pose proof (compute_outcome junk t yerr cs g) as Ho.
    destruct (compute junk t yerr cs g) as [[u|e] gp']; cbn in *;
      [tauto | discriminate]. }
  split; [|split; [|split; [|split; [|split]]]].
  - apply consistent_dirty, run_consistent, init_consistent.
  - exact Hclean.
  - intros v e Hs.
    assert (H : fst (compute junk (Arr1 v) (Arr0 e) true g) = Ok tt)
      by now rewrite compute_sorted.
    split; [exact H | now apply Hclean].
  - intros. apply set_parameter_dirty.
  - reflexivity.
  - reflexivity.
Qed.

Lemma dirty_flag_witness :
  dirty (snd (compute 0 (Arr1 [0; 1; 2]) (Arr0 0) true
                (run dense.ops 0 [set_parameter__ "kernel:a" 2]
                     (examples.gp_of 1 0 0)))) = false.
Proof.
  apply (proj1 (proj2 (proj2 (dirty_flag dense.ops 0
           (examples.constant_kernel 1) (inl 0) false (inl 0) false
           [set_parameter__ "kernel:a" 2]
           (run dense.ops 0 [set_parameter__ "kernel:a" 2]
                (examples.gp_of 1 0 0)))))).
  simpl. lra.
Defined.

(* On a new object the assignment [gp.dirty = False] makes [dirty] read
   false although no sub-model flag is set any more and nothing was ever
   factored: there is not even a solver. *)
Lemma dirty_flag_counterexample :
  let gp := snd (set_dirty false (examples.gp_of 1 0 0)) in
  dirty gp = false /\
  has_computed gp = false /\
  ~ (dirty gp = true <->
     modeling.dirty (celerite.mean gp) = true \/
     modeling.dirty (log_white_noise gp) = true \/
     modeling.dirty (base (celerite.kernel gp)) = true \/
     has_computed gp = false).
Proof.
  cbn. repeat split. intros [_ H].
  assert (E : false = true) by (apply H; now right; right; right).
  discriminate E.
Qed.

(** ** The flat parameter vector *)

(* a sub-model takes a vector with one entry per parameter *)
Lemma model_round_trip (m : Model) (v : list R) :
  List.length v = modeling.full_size m ->
  modeling.set_parameter_vector m v =
  Ok (modeling.set_dirty (with_parameters m v) true).
Proof.
  intros Hv. unfold modeling.set_parameter_vector. now rewrite Hv, Nat.eqb_refl.
Qed.

Lemma model_rejects (m : Model) (v : list R) :
  List.length v <> modeling.full_size m ->
  modeling.set_parameter_vector m v = Raise dimension_mismatch.
Proof.
  intros H. unfold modeling.set_parameter_vector.
  destruct (Nat.eqb_spec (List.length v) (modeling.full_size m)); [contradiction|].
  reflexivity.
Qed.

Lemma slices_partition (v : list R) (i j : nat) :
  (i <= j)%nat -> firstn i v ++ slice v i j ++ skipn j v = v.
Proof.
  intros Hij. unfold slice.
  replace (skipn j v) with (skipn (j - i) (skipn i v))
    by (rewrite skipn_skipn; f_equal; lia).
  now rewrite firstn_skipn, firstn_skipn.
Qed.

(* a vector with one entry per parameter of the composite is cut into
   slices with one entry per parameter of each sub-model *)
Lemma full_slices_fit (gp : GP) (v : list R) :
  List.length v = full_size gp ->
  let i := modeling.full_size (mean gp) in
  let j := (i + modeling.full_size (log_white_noise gp))%nat in
  List.length (firstn i v) = modeling.full_size (mean gp) /\
  List.length (slice v i j) = modeling.full_size (log_white_noise gp) /\
  List.length (skipn j v) = modeling.full_size (base (kernel gp)).
Proof.
  intros Hv i j. unfold full_size in Hv. unfold slice.
  rewrite !length_firstn, !length_skipn. subst i j. lia.
Qed.

(* the state after the assignment of a vector with one entry per parameter *)
Lemma set_parameter_vector_full (gp : GP) (v : list R) :
  List.length v = full_size gp ->
  let i := modeling.full_size (mean gp) in
  let j := (i + modeling.full_size (log_white_noise gp))%nat in
  set_parameter_vector v gp =
  (Ok tt,
   {| kernel := with_base (kernel gp)
                  (modeling.set_dirty
                     (with_parameters (base (kernel gp)) (skipn j v)) true);
      solver := solver gp; _computed := _computed gp;
      _t := _t gp; _yerr := _yerr gp;
      log_white_noise :=
        modeling.set_dirty (with_parameters (log_white_noise gp) (slice v i j)) true;
      mean := modeling.set_dirty (with_parameters (mean gp) (firstn i v)) true |}).
Proof.
  intros Hv i j. destruct (full_slices_fit gp v Hv) as (H1 & H2 & H3).
  fold i j in H1, H2, H3.
  unfold set_parameter_vector. run_monad. fold i.
  rewrite (model_round_trip _ _ H1). cbn. fold j.
  rewrite (model_round_trip _ _ H2). cbn.
  rewrite (model_round_trip _ _ H3). reflexivity.
Qed.

(** C2: the setter of [parameter_vector] cuts its argument at the offsets
    [mean.full_size] and [mean.full_size + log_white_noise.full_size] and
    hands the three slices to the mean, the white-noise model and the
    kernel; the getter concatenates the three vectors.  For every state and
    every [v] with one entry per parameter of the composite, frozen or not
    ([len(v) == full_size]), the assignment returns, reading
    [parameter_vector] afterwards yields [v], each sub-model holds its own
    slice, the composite is dirty, and the mask and with it [vector_size]
    are what they were. *)
Theorem parameter_vector_round_trip (gp : GP) (v : list R) :
  List.length v = full_size gp ->
  let i := modeling.full_size (mean gp) in
  let j := (i + modeling.full_size (log_white_noise gp))%nat in
  let gp' := snd (set_parameter_vector v gp) in
  fst (set_parameter_vector v gp) = Ok tt /\
  parameter_vector gp' = v /\
  dirty gp' = true /\
  modeling.parameter_vector (mean gp') = firstn i v /\
  modeling.parameter_vector (log_white_noise gp') = slice v i j /\
  modeling.parameter_vector (base (kernel gp')) = skipn j v /\
  unfrozen_mask gp' = unfrozen_mask gp /\
  vector_size gp' = vector_size gp /\
  full_size gp' = full_size gp.
Proof.
  intros Hv i j gp'. subst gp'.
  rewrite (set_parameter_vector_full gp v Hv). fold i j. cbn [fst snd].
  repeat split.
  unfold parameter_vector, modeling.parameter_vector. cbn.
  apply slices_partition. subst j. lia.
Qed.

Lemma parameter_vector_round_trip_witness :
  parameter_vector (snd (set_parameter_vector [4; 5; 6] (examples.gp_of 1 0 0)))
  = [4; 5; 6].
Proof.
  apply (parameter_vector_round_trip (examples.gp_of 1 0 0) [4; 5; 6]).
  reflexivity.
Defined.

(* With the default construction the mean and the white-noise model are
   frozen: the composite has one unfrozen parameter, the kernel's, and three
   parameters in all.  The first slice [v[:1]] of a vector of one entry goes
   to the mean, frozen or not, and the vector read back has three entries. *)
Lemma parameter_vector_frozen_counterexample :
  let gp := examples.gp_of 1 0 0 in
  List.length [5] = vector_size gp /\
  parameter_vector gp = [0; 0; 1] /\
  parameter_vector (snd (set_parameter_vector [5] gp)) = [5; 0; 1] /\
  parameter_vector (snd (set_parameter_vector [5] gp)) <> [5].
Proof.
  cbn. repeat split. intros H. discriminate H.
Qed.

(** ** The log-likelihood *)

Lemma clean__recompute (junk : R) (gp : GP) :
  dirty gp = false -> _recompute junk gp = (Ok tt, gp).
Proof. intros H. unfold _recompute, bind, get, when. now rewrite H. Qed.

Lemma process_input_vector (t y : list R) (gp : GP) :
  _t gp = Some (Arr1 t) ->
  List.length y = List.length t ->
  _process_input (Arr1 y) gp = (Ok (Arr1 y), gp).
Proof.
  intros Ht Hy. unfold _process_input, bind, get, lift. rewrite Ht. cbn.
  now rewrite Hy, Nat.eqb_refl.
Qed.

Lemma sub_vectors (y m : list R) :
  List.length y = List.length m ->
  np.sub (Arr1 y) (Arr1 m) = Ok (Arr1 (np.zip_with Rminus y m)).
Proof. intros H. unfold np.sub. cbn. unfold np.bvec. now rewrite H, Nat.eqb_refl. Qed.

(* the residual [y - mean(t)] for one-dimensional [y] and [t] *)
Lemma residual (gp : GP) (t y : list R) :
  List.length y = List.length t ->
  np.sub (Arr1 y) (get_value (mean gp) (Arr1 t)) =
  Ok (Arr1 (np.zip_with Rminus y
              (List.map (value_at (mean gp) (parameters (mean gp))) t))).
Proof. intros H. cbn [get_value np.map]. apply sub_vectors. now rewrite length_map. Qed.

Lemma log_likelihood_clean (ops : solver.Ops) (junk c : R) (gp : GP)
    (s : solver.Solver) (t y : list R) :
  dirty gp = false ->
  solver gp = Some s ->
  _t gp = Some (Arr1 t) ->
  List.length y = List.length t ->
  log_likelihood ops junk (Arr1 y) c gp =
  (Ok (-0.5 * (solver.dot_solve ops s
                 (Arr1 (np.zip_with Rminus y
                          (List.map (value_at (mean gp) (parameters (mean gp))) t))) +
               solver.log_determinant ops s +
               INR (List.length y) * c)), gp).
Proof.
  intros Hd Hs Ht Hy. unfold log_likelihood. unfold bind at 1.
  rewrite (process_input_vector t y gp Ht Hy).
  unfold bind at 1, get at 1. unfold bind at 1, coords at 1, bind at 1, get at 1.
  rewrite Ht. cbn [ret]. unfold bind at 1, lift at 1.
  rewrite (residual gp t y Hy).
  unfold bind at 1. rewrite (clean__recompute junk gp Hd).
  cbn. rewrite Hs. reflexivity.
Qed.

(* a two-dimensional [y] is never answered with a value *)
Lemma log_likelihood_matrix (ops : solver.Ops) (junk c : R) (gp : GP)
    (rows : list (list R)) :
  exists e, fst (log_likelihood ops junk (Arr2 rows) c gp) = Raise e.
Proof.
  unfold log_likelihood. unfold bind at 1.
  destruct (_process_input (Arr2 rows) gp) as [[y|e] gp1] eqn:E1;
    [|eexists; reflexivity].
  assert (Hy : y = Arr2 rows).
  { unfold _process_input, bind, get, lift, raise, ret in E1.
    destruct (_t gp); [|discriminate].
    destruct (np.len n); [|discriminate]. cbn in E1.
    destruct (negb _); [discriminate|]. now injection E1 as <- _. }
  subst y. unfold bind at 1, get at 1. unfold bind at 1.
  destruct (coords gp1) as [[t|e] gp2]; [|eexists; reflexivity].
  unfold bind at 1, lift at 1.
  destruct (np.sub _ _) as [resid|e]; [|eexists; reflexivity].
  unfold bind at 1.
  destruct (_recompute junk gp2) as [[u|e] gp3]; [|eexists; reflexivity].
  cbn. eexists; reflexivity.
Qed.

(* evaluation of a sequence of calls, one call at a time *)
Lemma bind_ok {A B} (m : M A) (k : A -> M B) (gp gp' : GP) (a : A) :
  m gp = (Ok a, gp') -> bind m k gp = k a gp'.
Proof. intros H. unfold bind. now rewrite H. Qed.

Lemma bind_raise {A B} (m : M A) (k : A -> M B) (gp gp' : GP) (e : exn) :
  m gp = (Raise e, gp') -> bind m k gp = (Raise e, gp').
Proof. intros H. unfold bind. now rewrite H. Qed.

Lemma coords_bound (gp : GP) (t : ndarray) :
  _t gp = Some t -> coords gp = (Ok t, gp).
Proof. intros H. unfold coords, bind, get. now rewrite H. Qed.

(* a broadcasting operator raises nothing but the broadcasting error *)
Lemma bvec_error (f : R -> R -> R) (u w : list R) (e : exn) :
  np.bvec f u w = Raise e -> e = no_broadcast.
Proof.
  unfold np.bvec.
  repeat match goal with
         | |- context [if ?b then _ else _] => destruct b
         end; intros H; try discriminate H. now injection H as <-.
Qed.

Lemma res_all_error {A} (l : list (res A)) (e : exn) (P : exn -> Prop) :
  (forall r e', In r l -> r = Raise e' -> P e') ->
  res_all l = Raise e -> P e.
Proof.
  induction l as [|r l IH]; intros Hl H; [discriminate|].
  cbn in H. destruct r as [a|e'].
  - destruct (res_all l) eqn:El; [discriminate|]. injection H as <-.
    apply IH; [|reflexivity]. intros r e' Hin. apply Hl. now right.
  - injection H as <-. apply (Hl (Raise e')); [now left | reflexivity].
Qed.

Lemma zip_rows_error (f : R -> R -> R) (a b : list (list R)) (r : res (list R)) (e : exn) :
  In r (np.zip_rows f a b) -> r = Raise e -> e = no_broadcast.
Proof.
  revert b. induction a as [|x a IH]; intros b Hin Hr; [contradiction|].
  destruct b as [|y b]; [contradiction|]. destruct Hin as [<-|Hin].
  - now apply bvec_error in Hr.
  - eauto.
Qed.

Lemma binop_error (f : R -> R -> R) (a b : ndarray) (e : exn) :
  np.binop f a b = Raise e -> e = no_broadcast.
Proof.
  assert (Hmap : forall (g : list R -> res (list R)) (l : list (list R)) e',
            (forall r e'', g r = Raise e'' -> e'' = no_broadcast) ->
            res_all (List.map g l) = Raise e' -> e' = no_broadcast).
  { intros g l e' Hg. apply (res_all_error _ _ (fun x => x = no_broadcast)).
    intros r e'' Hin Hr.
    apply in_map_iff in Hin as (x & <- & _). eauto. }
  destruct a as [x|u|m], b as [y|w|n]; cbn; try discriminate.
  - destruct (np.bvec f u w) eqn:E; [discriminate|].
    intros H. injection H as <-. now apply bvec_error in E.
  - destruct (res_all _) eqn:E; [discriminate|]. intros H. injection H as <-.
    eapply Hmap; [|exact E]. intros r e'. apply bvec_error.
  - destruct (res_all _) eqn:E; [discriminate|]. intros H. injection H as <-.
    eapply Hmap; [|exact E]. intros r e'. apply bvec_error.
  - destruct (np.bmat f m n) eqn:E; [discriminate|].
    intros H. injection H as <-. unfold np.bmat in E.
    repeat match type of E with
           | context [if ?c then _ else _] => destruct c
           end.
    + apply (res_all_error _ _ (fun x => x = no_broadcast)) in E; [exact E|].
      intros r e'. apply zip_rows_error.
    + eapply Hmap; [|exact E]. intros r e'. apply bvec_error.
    + eapply Hmap; [|exact E]. intros r e'. apply bvec_error.
    + now injection E as <-.
Qed.

(* on a clean object a two-dimensional [y] is answered with a validation
   error and nothing changes *)
Lemma log_likelihood_matrix_clean (ops : solver.Ops) (junk c : R) (gp : GP)
    (t : ndarray) (rows : list (list R)) :
  dirty gp = false ->
  _t gp = Some t ->
  np.ndim t <> 0%nat ->
  is_value_error (fst (log_likelihood ops junk (Arr2 rows) c gp)) = true /\
  snd (log_likelihood ops junk (Arr2 rows) c gp) = gp.
Proof.
  intros Hd Ht Hn. unfold log_likelihood.
  assert (Hl : exists n, np.len t = Ok n)
    by (destruct t; [contradiction Hn; reflexivity | eexists; reflexivity ..]).
  destruct Hl as [n Hl].
  assert (Hp : _process_input (Arr2 rows) gp =
               if negb (n =? List.length rows)%nat
               then (Raise dimension_mismatch, gp) else (Ok (Arr2 rows), gp)).
  { unfold _process_input, bind, get, lift. rewrite Ht, Hl. cbn.
    now destruct (negb _). }
  destruct (negb (n =? List.length rows)%nat).
  { rewrite (bind_raise _ _ _ _ _ Hp). split; reflexivity. }
  rewrite (bind_ok _ _ _ _ _ Hp).
  rewrite (bind_ok get _ gp gp gp eq_refl).
  rewrite (bind_ok _ _ _ _ _ (coords_bound gp t Ht)).
  destruct (np.sub (Arr2 rows) (get_value (mean gp) t)) as [resid|e] eqn:Es.
  - rewrite (bind_ok (lift _) _ gp gp resid) by reflexivity.
    rewrite (bind_ok _ _ _ _ _ (clean__recompute junk gp Hd)).
    split; reflexivity.
  - apply binop_error in Es as ->.
    rewrite (bind_raise (lift _) _ gp gp no_broadcast) by reflexivity.
    split; reflexivity.
Qed.

Lemma log_likelihood_wrong_length (ops : solver.Ops) (junk c : R) (gp : GP)
    (t y : list R) :
  _t gp = Some (Arr1 t) ->
  List.length y <> List.length t ->
  log_likelihood ops junk (Arr1 y) c gp = (Raise dimension_mismatch, gp).
Proof.
  intros Ht Hy. unfold log_likelihood. apply bind_raise.
  unfold _process_input, bind, get, lift. rewrite Ht. cbn.
  destruct (Nat.eqb_spec (List.length t) (List.length y)); [|reflexivity].
  exfalso. apply Hy. congruence.
Qed.

Lemma inner_zeros (y x : list R) :
  Forall (fun a => a = 0) y -> np.inner y x = 0.
Proof.
  unfold np.inner. intros H. revert x.
  induction H as [|a y Ha Hy IH]; intros x; [reflexivity|].
  destruct x as [|b x]; [reflexivity|]. cbn. rewrite IH, Ha. ring.
Qed.

Lemma det_identity3 : dense.det 3 identity3 = 1.
Proof. cbn. ring. Qed.

(** C3: on a computed [GP] object (clean, with one-dimensional coordinates
    [t]) and for every one-dimensional [y] of the length of [t],
    [log_likelihood(y)] returns
    [-0.5 * (dot_solve(y - mean(t)) + log_determinant() + N * _const)], with
    [_const = log(2 pi)] by default, and leaves the object as it is; a
    two-dimensional [y] is answered with a validation error (and on any
    object whatsoever with an exception), and a [y] of another length with
    "dimension mismatch".  In particular, with [t = [0, 1, 2]], a mean that
    is constantly 0 and a training self-covariance that is the identity
    matrix, for a solver that honours its contract,
    [log_likelihood([0, 0, 0])] is [-0.5 * 3 * log(2 pi)]. *)
Theorem log_likelihood_spec (ops : solver.Ops) (junk : R) (gp : GP)
    (s : solver.Solver) (t : list R) :
  dirty gp = false ->
  solver gp = Some s ->
  _t gp = Some (Arr1 t) ->
  (forall y c, List.length y = List.length t ->
     log_likelihood ops junk (Arr1 y) c gp =
     (Ok (-0.5 * (solver.dot_solve ops s
                    (Arr1 (np.zip_with Rminus y
                             (List.map (value_at (mean gp) (parameters (mean gp))) t))) +
                  solver.log_determinant ops s +
                  INR (List.length y) * c)), gp)) /\
  (forall rows c,
     is_value_error (fst (log_likelihood ops junk (Arr2 rows) c gp)) = true) /\
  (forall gp' rows c,
     exists e, fst (log_likelihood ops junk (Arr2 rows) c gp') = Raise e) /\
  (forall y c, List.length y <> List.length t ->
     log_likelihood ops junk (Arr1 y) c gp = (Raise dimension_mismatch, gp)) /\
  (t = [0; 1; 2] ->
   (forall x, value_at (mean gp) (parameters (mean gp)) x = 0) ->
   training_covariance gp = Ok (Arr2 identity3) ->
   dense.honours ops s identity3 ->
   fst (log_likelihood ops junk (Arr1 [0; 0; 0]) log_2pi gp) =
   Ok (-0.5 * (3 * ln (2 * PI)))).
Proof.
  intros Hd Hs Ht. repeat split.
  - intros y c Hy. now apply log_likelihood_clean.
  - intros rows c.
    apply (log_likelihood_matrix_clean ops junk c gp (Arr1 t) rows Hd Ht).
    discriminate.
  - intros gp' rows c. apply log_likelihood_matrix.
  - intros y c Hy. exact (log_likelihood_wrong_length ops junk c gp t y Ht Hy).
  - intros -> Hmean _ Hon.
    rewrite (log_likelihood_clean ops junk log_2pi gp s [0; 1; 2] [0; 0; 0] Hd Hs Ht eq_refl).
    cbn [fst List.map np.zip_with List.length]. rewrite !Hmean.
    destruct (dense.dot_solve_spec _ _ _ Hon [0 - 0; 0 - 0; 0 - 0] eq_refl)
      as (x & _ & ->).
    rewrite (dense.log_determinant_spec _ _ _ Hon).
    change (dense.order identity3) with 3%nat. rewrite det_identity3, ln_1.
    rewrite inner_zeros by (repeat constructor; ring).
    unfold log_2pi. cbn [INR]. f_equal. ring.
Qed.

Lemma unit_gp_state :
  examples.unit_gp =
  {| kernel := with_base (examples.constant_kernel 0)
                 (modeling.set_dirty (base (examples.constant_kernel 0)) false);
     solver := Some examples.unit_solver;
     _computed := true;
     _t := Some (Arr1 [0; 1; 2]);
     _yerr := Some (Arr1 [0; 0; 0]);
     log_white_noise :=
       modeling.set_dirty (modeling.freeze_all_parameters (ConstantModel 0)) false;
     mean := modeling.set_dirty (modeling.freeze_all_parameters (ConstantModel 0)) false |}.
Proof.
  unfold examples.unit_gp. rewrite compute_sorted by (simpl; lra). reflexivity.
Qed.

Lemma unit_gp_covariance :
  training_covariance examples.unit_gp = Ok (Arr2 identity3).
Proof.
  unfold training_covariance. rewrite unit_gp_state. cbn.
  rewrite exp_0. replace (0 + (0 * 0 + 1)) with 1 by ring. reflexivity.
Qed.

(* the covariance function of a term that does not decay is constant *)
Lemma constant_kernel_covariance (a tau : R) :
  dense.celerite_kernel (kernel_coefficients (examples.constant_kernel a)) tau = a.
Proof.
  unfold dense.celerite_kernel. cbn.
  rewrite Rmult_0_l, Ropp_0, exp_0. ring.
Qed.

Lemma unit_solver_matrix : dense.factor_matrix examples.unit_solver = identity3.
Proof.
  unfold dense.factor_matrix, examples.unit_solver, solver.compute.
  cbn [solver.factorized]. unfold dense.covariance, dense.kernel_matrix.
  cbn [List.map np.add_diag_rows np.add_at].
  rewrite !constant_kernel_covariance, exp_0.
  replace (0 + (0 * 0 + 1)) with 1 by ring. reflexivity.
Qed.

Lemma unit_solver_honours :
  dense.honours dense.ops examples.unit_solver identity3.
Proof.
  split.
  - intros y Hy. exists (dense.cramer identity3 y).
    cbn [dense.ops solver.solve]. rewrite unit_solver_matrix.
    destruct y as [|a [|b [|c [|d y]]]]; try discriminate Hy.
    cbn. repeat split; repeat f_equal; field.
  - intros y Hy. exists (dense.cramer identity3 y).
    cbn [dense.ops solver.dot_solve]. rewrite unit_solver_matrix.
    destruct y as [|a [|b [|c [|d y]]]]; try discriminate Hy.
    split; [cbn; repeat f_equal; field | reflexivity].
  - cbn [dense.ops solver.log_determinant]. now rewrite unit_solver_matrix.
Qed.

Lemma log_likelihood_spec_witness :
  fst (log_likelihood dense.ops 0 (Arr1 [0; 0; 0]) log_2pi examples.unit_gp) =
  Ok (-0.5 * (3 * ln (2 * PI))).
Proof.
  assert (Hd : dirty examples.unit_gp = false)
    by (rewrite unit_gp_state; reflexivity).
  assert (Hs : solver examples.unit_gp = Some examples.unit_solver)
    by (rewrite unit_gp_state; reflexivity).
  assert (Ht : _t examples.unit_gp = Some (Arr1 [0; 1; 2]))
    by (rewrite unit_gp_state; reflexivity).
  apply (proj2 (proj2 (proj2 (proj2
           (log_likelihood_spec dense.ops 0 examples.unit_gp examples.unit_solver
              [0; 1; 2] Hd Hs Ht))))).
  - reflexivity.
  - intros x. rewrite unit_gp_state. reflexivity.
  - exact unit_gp_covariance.
  - exact unit_solver_honours.
Defined.

(** ** [dot] *)



(* [compute] with one uncertainty per coordinate and no check *)
Lemma compute_vector (junk : R) (t yerr : list R) (gp : GP) :
  List.length yerr = List.length t ->
  compute junk (Arr1 t) (Arr1 yerr) false gp =
  (Ok tt, after_compute gp (Arr1 t) (Arr1 yerr)
            (Arr1 (np.zip_with Rplus (List.map (fun x => x * x) yerr)
                     (List.map (fun x => exp (value_at (log_white_noise gp)
                                   (parameters (log_white_noise gp)) x)) t)))).
Proof.
  intros Hy. unfold compute. cbn [np.atleast_1d andb when].
  rewrite (bind_ok (ret tt) _ gp gp tt eq_refl).
  rewrite (bind_ok (ret tt) _ gp gp tt eq_refl).
  assert (Hf : np.fill (np.empty_like junk (Arr1 t)) (Arr1 yerr) = Ok (Arr1 yerr)).
  { cbn. unfold np.fill_vec. now rewrite length_map, Hy, Nat.eqb_refl. }
  rewrite Hf.
  assert (Hd : np.add (np.map (fun x => x * x) (Arr1 yerr))
                 (np.map exp (get_value (log_white_noise gp) (Arr1 t))) =
               Ok (Arr1 (np.zip_with Rplus (List.map (fun x => x * x) yerr)
                     (List.map (fun x => exp (value_at (log_white_noise gp)
                                   (parameters (log_white_noise gp)) x)) t)))).
  { cbn. unfold np.bvec. rewrite !length_map, Hy, Nat.eqb_refl.
    now rewrite List.map_map. }
  unfold _get_diag. run_monad.
  destruct (solver gp); cbn -[np.add np.map get_value]; rewrite Hd; reflexivity.
Qed.


(* properties that the parameter bus cannot disturb *)
Section Bus.

Variable P : GP -> Prop.
Hypothesis Hmean : forall m, preserves P (set_mean m).
Hypothesis Hnoise : forall m, preserves P (set_log_white_noise m).
Hypothesis Hkernel : forall k, preserves P (set_kernel k).
Hypothesis Hcomputed : forall b, preserves P (set__computed b).







End Bus.

Section Paired.

Variable ops : solver.Ops.
Variable junk : R.







End Paired.



(** ** Dense matrices *)

Lemma kernel_value_outer (gp : GP) (x1 x2 : list R) :
  np.outer_sub (Arr1 x1) (Arr1 x2) =
    Ok (Arr2 (List.map (fun a => List.map (fun b => a - b) x2) x1)) /\
  kernel_value gp (Arr2 (List.map (fun a => List.map (fun b => a - b) x2) x1)) =
    Arr2 (kernel_matrix gp x1 x2).
Proof.
  split; [reflexivity|].
  unfold kernel_value, get_value, kernel_matrix, dense.kernel_matrix. cbn.
  f_equal. rewrite List.map_map. apply List.map_ext. intros a.
  now rewrite List.map_map.
Qed.

Lemma length_kernel_matrix (gp : GP) (x1 x2 : list R) :
  List.length (kernel_matrix gp x1 x2) = List.length x1.
Proof. unfold kernel_matrix, dense.kernel_matrix. apply length_map. Qed.

Lemma square_kernel_matrix (gp : GP) (x : list R) :
  np.square (kernel_matrix gp x x) = true.
Proof.
  unfold np.square. rewrite length_kernel_matrix.
  unfold kernel_matrix, dense.kernel_matrix.
  apply forallb_forall. intros r Hr.
  apply in_map_iff in Hr as (a & <- & _).
  rewrite length_map. apply Nat.eqb_refl.
Qed.

(* adding a diagonal of the right length to a square kernel matrix *)
Lemma add_diag_kernel_matrix (gp : GP) (x d : list R) :
  List.length d = List.length x ->
  np.add_diag (Arr2 (kernel_matrix gp x x)) (Arr1 d) =
  Ok (Arr2 (np.add_diag_rows 0 (kernel_matrix gp x x) d)).
Proof.
  intros H. unfold np.add_diag. rewrite square_kernel_matrix.
  unfold np.fill_vec. now rewrite length_kernel_matrix, H, Nat.eqb_refl.
Qed.

Lemma get_diag_bound (gp : GP) (t yerr : list R) :
  _t gp = Some (Arr1 t) ->
  _yerr gp = Some (Arr1 yerr) ->
  List.length yerr = List.length t ->
  _get_diag gp = (Ok (Arr1 (training_diagonal gp t yerr)), gp).
Proof.
  intros Ht Hy Hl. unfold _get_diag.
  rewrite (bind_ok get _ gp gp gp eq_refl). rewrite Hy. cbn [attr].
  rewrite (bind_ok (ret _) _ gp gp (Arr1 yerr) eq_refl).
  rewrite (bind_ok _ _ _ _ _ (coords_bound gp (Arr1 t) Ht)).
  unfold lift, training_diagonal, white_noise. f_equal.
  cbn. unfold np.bvec. rewrite !length_map, Hl, Nat.eqb_refl.
  now rewrite List.map_map.
Qed.

(** C8: for one-dimensional coordinates [get_matrix] returns
    the dense kernel matrix between the two coordinate sets and leaves the
    object as it is.  With both sets omitted it needs a computed object
    (otherwise "you must call 'compute' first"), answers for the training
    coordinates, and adds the training diagonal [yerr**2 +
    exp(log_white_noise(t))] unless [include_diagonal] is [False].  With only
    [x1] given it adds, when [include_diagonal] is true, the white-noise
    term [exp(log_white_noise(x1))] alone, without the squared observation
    noise.  With both sets given it never adds a diagonal, even if the two
    sets are equal. *)
Theorem get_matrix_spec (gp : GP) :
  (forall t yerr include_diagonal,
     dirty gp = false -> _t gp = Some (Arr1 t) ->
     _yerr gp = Some (Arr1 yerr) -> List.length yerr = List.length t ->
     get_matrix None None include_diagonal gp =
     (Ok (Arr2 match include_diagonal with
               | Some false => kernel_matrix gp t t
               | _ => np.add_diag_rows 0 (kernel_matrix gp t t)
                        (training_diagonal gp t yerr)
               end), gp)) /\
  (forall include_diagonal,
     dirty gp = true \/ _t gp = None ->
     get_matrix None None include_diagonal gp = (Raise not_computed, gp)) /\
  (forall x1 include_diagonal,
     get_matrix (Some (Arr1 x1)) None include_diagonal gp =
     (Ok (Arr2 match include_diagonal with
               | Some true => np.add_diag_rows 0 (kernel_matrix gp x1 x1)
                                (white_noise gp x1)
               | _ => kernel_matrix gp x1 x1
               end), gp)) /\
  (forall x1 x2 include_diagonal,
     get_matrix (Some (Arr1 x1)) (Some (Arr1 x2)) include_diagonal gp =
     (Ok (Arr2 (kernel_matrix gp x1 x2)), gp)).
Proof.
  repeat split.
  - intros t yerr incl Hd Ht Hy Hl. unfold get_matrix.
    rewrite (bind_ok get _ gp gp gp eq_refl). rewrite Ht.
    unfold computed. rewrite Hd. cbn [negb when].
    rewrite (bind_ok (ret tt) _ gp gp tt eq_refl).
    destruct (kernel_value_outer gp t t) as [Eo Ek].
    rewrite (bind_ok (lift _) _ gp gp _ (f_equal (fun r => (r, gp)) Eo)).
    rewrite Ek.
    assert (Hadd : (diag <- _get_diag ;;
                    lift (np.add_diag (Arr2 (kernel_matrix gp t t)) diag)) gp =
                   (Ok (Arr2 (np.add_diag_rows 0 (kernel_matrix gp t t)
                                (training_diagonal gp t yerr))), gp)).
    { rewrite (bind_ok _ _ _ _ _ (get_diag_bound gp t yerr Ht Hy Hl)).
      unfold lift. rewrite add_diag_kernel_matrix; [reflexivity|].
      unfold training_diagonal, white_noise.
      clear -Hl. revert yerr Hl.
      induction t as [|a t IH]; intros [|b yerr] Hl; try discriminate;
        [reflexivity|]. cbn. f_equal. apply IH. now injection Hl. }
    destruct incl as [[|]|]; [exact Hadd | reflexivity | exact Hadd].
  - intros incl [Hd|Ht]; unfold get_matrix;
      rewrite (bind_ok get _ gp gp gp eq_refl).
    + destruct (_t gp); [|reflexivity].
      unfold computed. rewrite Hd. reflexivity.
    + now rewrite Ht.
  - intros x1 incl. unfold get_matrix. cbn [np.atleast_1d].
    rewrite (bind_ok get _ gp gp gp eq_refl).
    destruct (kernel_value_outer gp x1 x1) as [Eo Ek].
    rewrite (bind_ok (lift _) _ gp gp _ (f_equal (fun r => (r, gp)) Eo)).
    rewrite Ek.
    destruct incl as [[|]|]; try reflexivity.
    unfold lift. cbn [get_value np.map].
    rewrite List.map_map.
    rewrite add_diag_kernel_matrix by apply length_map. reflexivity.
  - intros x1 x2 incl. unfold get_matrix. cbn [np.atleast_1d].
    rewrite (bind_ok get _ gp gp gp eq_refl).
    destruct (kernel_value_outer gp x1 x2) as [Eo Ek].
    rewrite (bind_ok (lift _) _ gp gp _ (f_equal (fun r => (r, gp)) Eo)).
    rewrite Ek. destruct incl as [[|]|]; reflexivity.
Qed.

Lemma get_matrix_spec_witness :
  get_matrix None None None examples.noisy_gp =
  (Ok (Arr2 (np.add_diag_rows 0 (kernel_matrix examples.noisy_gp [0] [0])
               (training_diagonal examples.noisy_gp [0] [1]))),
   examples.noisy_gp).
Proof.
  exact (proj1 (get_matrix_spec examples.noisy_gp) [0] [1] None
               eq_refl eq_refl eq_refl eq_refl).
Defined.

(* The coordinate sets coincide and the diagonal is requested, yet with [x1]
   given only the white-noise term is added: the entry is [k(0) + exp(0) = 2],
   not [k(0) + yerr**2 + exp(0) = 3] as on the training covariance. *)
Lemma get_matrix_diagonal_counterexample :
  let gp := examples.noisy_gp in
  _t gp = Some (Arr1 [0]) /\
  _yerr gp = Some (Arr1 [1]) /\
  fst (get_matrix None None (Some true) gp) = Ok (Arr2 [[3]]) /\
  fst (get_matrix (Some (Arr1 [0])) None (Some true) gp) = Ok (Arr2 [[2]]) /\
  fst (get_matrix (Some (Arr1 [0])) None (Some true) gp) <>
    Ok (Arr2 [[1 + (1 * 1 + exp 0)]]).
Proof.
  cbn. rewrite exp_0. repeat split.
  - replace (1 + (1 * 1 + 1)) with 3 by ring. reflexivity.
  - intros H. injection H as H. lra.
Qed.

(** ** Prediction at the training coordinates *)

Lemma inner_cons (x y : R) (r a : list R) :
  np.inner (x :: r) (y :: a) = x * y + np.inner r a.
Proof. reflexivity. Qed.

Lemma inner_add_at (i : nat) (r a : list R) (x : R) :
  (i < List.length r)%nat ->
  np.inner (np.add_at i r x) a = np.inner r a + x * nth i a 0.
Proof.
  revert i a. induction r as [|y r IH]; intros i a Hi; [cbn in Hi; lia|].
  destruct i as [|i]; cbn [np.add_at].
  - destruct a as [|b a]; [cbn; unfold np.inner; cbn; ring|].
    rewrite !inner_cons. cbn [nth]. ring.
  - destruct a as [|b a]; [cbn; unfold np.inner; cbn; ring|].
    rewrite !inner_cons. cbn [nth]. rewrite IH by (cbn in Hi; lia). ring.
Qed.

(* a matrix with an added diagonal, applied to a vector *)
Lemma mat_vec_add_diag (rows : list (list R)) (d a : list R) (i : nat) :
  List.length d = List.length rows ->
  List.length a = (i + List.length rows)%nat ->
  Forall (fun r => (i + List.length rows <= List.length r)%nat) rows ->
  np.mat_vec (np.add_diag_rows i rows d) a =
  np.zip_with Rplus (np.mat_vec rows a) (np.zip_with Rmult d (skipn i a)).
Proof.
  revert d i. induction rows as [|r rows IH]; intros d i Hd Ha Hr.
  - destruct d; [reflexivity | discriminate].
  - destruct d as [|x d]; [discriminate|]. injection Hd as Hd.
    cbn [List.length] in Ha. inversion Hr as [|? ? Hr1 Hr2]; subst.
    cbn [List.length] in Hr1.
    assert (Hs : skipn i a = nth i a 0 :: skipn (S i) a).
    { clear -Ha. revert a Ha. induction i as [|i IHi]; intros a Ha.
      - destruct a; [cbn in Ha; lia | reflexivity].
      - destruct a as [|b a]; [cbn in Ha; lia|]. cbn [skipn nth].
        apply IHi. cbn in Ha. lia. }
    cbn [np.add_diag_rows np.mat_vec List.map]. rewrite Hs.
    cbn [np.zip_with]. f_equal.
    + apply inner_add_at. lia.
    + apply IH; [exact Hd | lia|].
      eapply Forall_impl; [|exact Hr2]. cbn. intros; lia.
Qed.

Lemma rows_kernel_matrix (gp : GP) (x1 x2 : list R) :
  Forall (fun r => List.length r = List.length x2) (kernel_matrix gp x1 x2).
Proof.
  unfold kernel_matrix, dense.kernel_matrix. apply Forall_forall. intros r Hr.
  apply in_map_iff in Hr as (a & <- & _). apply length_map.
Qed.

Lemma length_zip_with (f : R -> R -> R) (u v : list R) :
  List.length u = List.length v ->
  List.length (np.zip_with f u v) = List.length u.
Proof.
  revert v. induction u as [|a u IH]; intros [|b v] H; try discriminate;
    [reflexivity|]. cbn. f_equal. apply IH. now injection H.
Qed.

Lemma length_mat_vec (m : list (list R)) (a : list R) :
  List.length (np.mat_vec m a) = List.length m.
Proof. apply length_map. Qed.

(* from [U + V = y - m] pointwise to [y - V = m + U] *)
Lemma shortcut_pointwise (U V y m : list R) :
  List.length V = List.length U ->
  List.length y = List.length U ->
  List.length m = List.length U ->
  np.zip_with Rplus U V = np.zip_with Rminus y m ->
  np.zip_with Rminus y V = np.zip_with Rplus m U.
Proof.
  revert V y m. induction U as [|u U IH]; intros [|v V] [|b y] [|c m];
    try discriminate; [reflexivity|].
  intros HV Hy Hm H. cbn in *. injection H as H1 H2.
  f_equal; [lra|]. apply IH; congruence.
Qed.

Lemma lift_ok {A} (r : res A) (a : A) (gp : GP) :
  r = Ok a -> lift r gp = (Ok a, gp).
Proof. intros ->. reflexivity. Qed.

Lemma bind_assoc {A B C} (m : M A) (k : A -> M B) (h : B -> M C) (gp : GP) :
  bind (bind m k) h gp = bind m (fun a => bind (k a) h) gp.
Proof.
  unfold bind. destruct (m gp) as [[a|e] gp']; reflexivity.
Qed.

Ltac step H := rewrite (bind_ok _ _ _ _ _ H).
Ltac step_get :=
  match goal with
  | |- context [bind get _ ?g] => rewrite (bind_ok get _ g g g eq_refl)
  end.
Ltac step_ret :=
  match goal with
  | |- context [bind (ret ?a) _ ?g] => rewrite (bind_ok (ret a) _ g g a eq_refl)
  end.

Lemma get_matrix_pair (gp : GP) (x1 x2 : list R) (include_diagonal : option bool) :
  get_matrix (Some (Arr1 x1)) (Some (Arr1 x2)) include_diagonal gp =
  (Ok (Arr2 (kernel_matrix gp x1 x2)), gp).
Proof.
  unfold get_matrix. cbn [np.atleast_1d]. step_get.
  destruct (kernel_value_outer gp x1 x2) as [Eo Ek].
  step (lift_ok _ _ gp Eo). rewrite Ek.
  destruct include_diagonal as [[|]|]; reflexivity.
Qed.

Section Predict.

Variable ops : solver.Ops.
Variable junk : R.
Variable gp : GP.
Variable s : solver.Solver.
Variables t yerr y alpha : list R.

Hypothesis Hclean : dirty gp = false.
Hypothesis Hsolver : solver gp = Some s.
Hypothesis Ht : _t gp = Some (Arr1 t).
Hypothesis Hyerr : _yerr gp = Some (Arr1 yerr).
Hypothesis Hlen_yerr : List.length yerr = List.length t.
Hypothesis Hlen_y : List.length y = List.length t.

Let mean_t := List.map (value_at (mean gp) (parameters (mean gp))) t.
Let resid := np.zip_with Rminus y mean_t.

Hypothesis Halpha : np.flatten (solver.solve ops s (Arr1 resid)) = Arr1 alpha.
Hypothesis Hlen_alpha : List.length alpha = List.length t.

(* [predict(y, return_cov=False)]: the shortcut at the training coordinates *)
Lemma predict_training :
  predict ops junk (Arr1 y) None false false gp =
  (Ok (Mu (Arr1 (np.zip_with Rplus mean_t
                   (np.zip_with Rminus y
                      (np.zip_with Rmult (training_diagonal gp t yerr) alpha))))),
   gp).
Proof.
  assert (Hdiag : List.length (training_diagonal gp t yerr) = List.length t).
  { unfold training_diagonal, white_noise.
    rewrite length_zip_with; rewrite !length_map; congruence. }
  unfold predict.
  step (process_input_vector t y gp Ht Hlen_y). cbn [np.ndim Nat.ltb Nat.leb when].
  step_ret. step (coords_bound gp (Arr1 t) Ht).
  step (clean__recompute junk gp Hclean). step_get.
  step (coords_bound gp (Arr1 t) Ht).
  step (lift_ok _ _ gp (residual gp t y Hlen_y)).
  rewrite Hsolver. cbn [attr]. step_ret.
  fold mean_t. fold resid. rewrite Halpha.
  cbv iota. rewrite bind_assoc.
  step (get_diag_bound gp t yerr Ht Hyerr Hlen_yerr). rewrite bind_assoc.
  assert (Hmul : np.mul (Arr1 (training_diagonal gp t yerr)) (Arr1 alpha) =
                 Ok (Arr1 (np.zip_with Rmult (training_diagonal gp t yerr) alpha))).
  { unfold np.mul. cbn. unfold np.bvec.
    now rewrite Hdiag, Hlen_alpha, Nat.eqb_refl. }
  step (lift_ok _ _ gp Hmul). rewrite bind_assoc.
  assert (Hsub : np.sub (Arr1 y)
                   (Arr1 (np.zip_with Rmult (training_diagonal gp t yerr) alpha)) =
                 Ok (Arr1 (np.zip_with Rminus y
                             (np.zip_with Rmult (training_diagonal gp t yerr) alpha)))).
  { apply sub_vectors. rewrite length_zip_with; congruence. }
  step (lift_ok _ _ gp Hsub). step_ret. step_get.
  assert (Hadd : np.add (get_value (mean gp) (Arr1 t))
                   (Arr1 (np.zip_with Rminus y
                            (np.zip_with Rmult (training_diagonal gp t yerr) alpha))) =
                 Ok (Arr1 (np.zip_with Rplus mean_t
                             (np.zip_with Rminus y
                                (np.zip_with Rmult (training_diagonal gp t yerr) alpha))))).
  { unfold np.add. cbn. fold mean_t. unfold np.bvec.
    rewrite length_zip_with by (rewrite length_zip_with; congruence).
    unfold mean_t at 1. now rewrite length_map, <- Hlen_y, Nat.eqb_refl. }
  step (lift_ok _ _ gp Hadd). reflexivity.
Qed.

(* [predict(y, t=x, return_cov=False)]: the cross-covariance applied to
   [K^-1 (y - mean(t))] *)
Lemma predict_at (x : list R) :
  predict ops junk (Arr1 y) (Some (Arr1 x)) false false gp =
  (Ok (Mu (Arr1 (np.zip_with Rplus
                   (List.map (value_at (mean gp) (parameters (mean gp))) x)
                   (np.mat_vec (kernel_matrix gp x t) alpha)))),
   gp).
Proof.
  unfold predict.
  step (process_input_vector t y gp Ht Hlen_y).
  cbn [np.ndim np.atleast_1d Nat.ltb Nat.leb when].
  step_ret. rewrite bind_assoc. step_ret. step_ret.
  step (clean__recompute junk gp Hclean). step_get.
  step (coords_bound gp (Arr1 t) Ht).
  step (lift_ok _ _ gp (residual gp t y Hlen_y)).
  rewrite Hsolver. cbn [attr]. step_ret.
  fold mean_t. fold resid. rewrite Halpha.
  cbv iota. rewrite bind_assoc.
  step (get_matrix_pair gp x t None). rewrite bind_assoc.
  assert (Hdot : np.dot (Arr2 (kernel_matrix gp x t)) (Arr1 alpha) =
                 Ok (Arr1 (np.mat_vec (kernel_matrix gp x t) alpha))).
  { cbn. replace (forallb _ _) with true; [reflexivity|].
    symmetry. apply forallb_forall. intros r Hr.
    pose proof (rows_kernel_matrix gp x t) as Hf.
    rewrite Forall_forall in Hf. rewrite (Hf r Hr), Hlen_alpha.
    apply Nat.eqb_refl. }
  step (lift_ok _ _ gp Hdot). step_ret. step_get.
  assert (Hadd : np.add (get_value (mean gp) (Arr1 x))
                   (Arr1 (np.mat_vec (kernel_matrix gp x t) alpha)) =
                 Ok (Arr1 (np.zip_with Rplus
                             (List.map (value_at (mean gp) (parameters (mean gp))) x)
                             (np.mat_vec (kernel_matrix gp x t) alpha)))).
  { unfold np.add. cbn. unfold np.bvec.
    now rewrite length_mat_vec, length_kernel_matrix, length_map, Nat.eqb_refl. }
  step (lift_ok _ _ gp Hadd). reflexivity.
Qed.

End Predict.

(** C1: on a computed [GP] object with one-dimensional coordinates [t], for
    a one-dimensional [y] of the length of [t] and a solver that honours
    its contract for the training covariance [K = Kernel(t, t) + diag], with
    [alpha = K^-1 (y - mean(t))]: [predict(y, t=None, return_cov=False,
    return_var=False)] returns [mean(t) + alpha'] for the shortcut
    [alpha' = y - diag * alpha]; the dense computation, which the same method
    performs when the training coordinates are passed as [t], returns
    [mean(t) + Kxs alpha] with [Kxs = Kernel(t, t)].  The two do not agree:
    since [alpha' = mean(t) + Kxs alpha], the shortcut result is the dense
    one plus [mean(t)] once more. *)
Theorem predict_shortcut_adds_mean (ops : solver.Ops) (junk : R) (gp : GP)
    (s : solver.Solver) (t yerr y : list R) :
  dirty gp = false ->
  solver gp = Some s ->
  _t gp = Some (Arr1 t) ->
  _yerr gp = Some (Arr1 yerr) ->
  List.length yerr = List.length t ->
  List.length y = List.length t ->
  let mean_t := List.map (value_at (mean gp) (parameters (mean gp))) t in
  let diag := training_diagonal gp t yerr in
  let Kxs := kernel_matrix gp t t in
  let K := np.add_diag_rows 0 Kxs diag in
  dense.honours ops s K ->
  exists alpha,
    List.length alpha = List.length t /\
    np.mat_vec K alpha = np.zip_with Rminus y mean_t /\
    fst (predict ops junk (Arr1 y) None false false gp) =
      Ok (Mu (Arr1 (np.zip_with Rplus mean_t
                      (np.zip_with Rminus y (np.zip_with Rmult diag alpha))))) /\
    fst (predict ops junk (Arr1 y) (Some (Arr1 t)) false false gp) =
      Ok (Mu (Arr1 (np.zip_with Rplus mean_t (np.mat_vec Kxs alpha)))) /\
    np.zip_with Rplus mean_t (np.zip_with Rminus y (np.zip_with Rmult diag alpha)) =
    np.zip_with Rplus mean_t (np.zip_with Rplus mean_t (np.mat_vec Kxs alpha)).
Proof.
  intros Hd Hs Ht Hye Hlye Hly mean_t diag Kxs K Hon.
  assert (Hlm : List.length mean_t = List.length t) by apply length_map.
  assert (Hld : List.length diag = List.length t).
  { unfold diag, training_diagonal, white_noise.
    rewrite length_zip_with; rewrite !length_map; congruence. }
  assert (HlK : List.length K = List.length t).
  { unfold K. clear -Hld. unfold Kxs.
    rewrite <- (length_kernel_matrix gp t t) in Hld |- * .
    revert Hld. generalize (kernel_matrix gp t t) diag 0%nat.
    induction l as [|r l IH]; intros [|x d] i H; try discriminate; [reflexivity|].
    cbn. f_equal. apply IH. now injection H. }
  destruct (dense.solve_spec _ _ _ Hon (np.zip_with Rminus y mean_t))
    as (alpha & Hflat & Hla & HK).
  { rewrite HlK, length_zip_with; congruence. }
  rewrite length_zip_with in Hla by congruence.
  exists alpha. split; [congruence|]. split; [exact HK|].
  split; [|split].
  - now rewrite (predict_training ops junk gp s t yerr y alpha)
      by (assumption || congruence).
  - now rewrite (predict_at ops junk gp s t y alpha)
      by (assumption || congruence).
  - f_equal. apply shortcut_pointwise.
    + rewrite length_zip_with, length_mat_vec; unfold Kxs;
        rewrite ?length_kernel_matrix; congruence.
    + rewrite length_mat_vec. unfold Kxs. rewrite length_kernel_matrix. congruence.
    + rewrite length_mat_vec. unfold Kxs. rewrite length_kernel_matrix. congruence.
    + rewrite <- HK. unfold K.
      rewrite mat_vec_add_diag.
      * reflexivity.
      * unfold Kxs. rewrite length_kernel_matrix. congruence.
      * unfold Kxs. rewrite length_kernel_matrix. cbn. congruence.
      * unfold Kxs. pose proof (rows_kernel_matrix gp t t) as Hr.
        rewrite length_kernel_matrix.
        eapply Forall_impl; [|exact Hr]. cbn. intros r ->. lia.
Qed.

Lemma biased_solver_honours :
  dense.honours dense.ops examples.biased_solver [[1 + (1 * 1 + exp 0)]].
Proof.
  assert (Hm : dense.factor_matrix examples.biased_solver = [[1 + (1 * 1 + exp 0)]]).
  { unfold dense.factor_matrix, examples.biased_solver, solver.compute.
    cbn [solver.factorized]. unfold dense.covariance, dense.kernel_matrix.
    cbn [List.map np.add_diag_rows np.add_at].
    now rewrite constant_kernel_covariance. }
  split.
  - intros y Hy. exists (dense.cramer [[1 + (1 * 1 + exp 0)]] y).
    cbn [dense.ops solver.solve]. rewrite Hm.
    destruct y as [|b [|c y]]; try discriminate Hy.
    cbn. rewrite exp_0. repeat split. f_equal. field.
  - intros y Hy. exists (dense.cramer [[1 + (1 * 1 + exp 0)]] y).
    cbn [dense.ops solver.dot_solve]. rewrite Hm.
    destruct y as [|b [|c y]]; try discriminate Hy.
    split; [|reflexivity]. cbn. rewrite exp_0. f_equal. field.
  - cbn [dense.ops solver.log_determinant]. now rewrite Hm.
Qed.

(* [GP(kernel, mean=1.0, log_white_noise=0.0)] with [k = 1], after
   [compute([0], yerr=1)]: [predict([4])] is [[3]], and [[2]] when the
   training coordinate is passed as [t]. *)
Lemma predict_shortcut_adds_mean_witness :
  fst (predict dense.ops 0 (Arr1 [4]) None false false examples.biased_gp) =
    Ok (Mu (Arr1 [3])) /\
  fst (predict dense.ops 0 (Arr1 [4]) (Some (Arr1 [0])) false false examples.biased_gp) =
    Ok (Mu (Arr1 [2])).
Proof.
  destruct (predict_shortcut_adds_mean dense.ops 0 examples.biased_gp
              examples.biased_solver [0] [1] [4]
              eq_refl eq_refl eq_refl eq_refl eq_refl eq_refl
              biased_solver_honours)
    as (alpha & Hl & HK & H1 & H2 & _).
  destruct alpha as [|a [|a' alpha]]; try discriminate Hl.
  cbn in HK. rewrite exp_0 in HK. injection HK as HK.
  assert (Ha : a = 1) by lra. subst a.
  rewrite H1, H2. cbn. rewrite exp_0.
  split; do 3 f_equal; f_equal; lra.
Defined.

(** * Further properties *)

Import states.

(** ** [compute], case by case *)

(* the outcome and the final state of [compute] in closed form *)
Lemma compute_cases (junk : R) (t yerr : ndarray) (check_sorted : bool) (gp : GP) :
  compute junk t yerr check_sorted gp =
  let t := np.atleast_1d t in
  if check_sorted && decreases t then (Raise not_sorted, gp)
  else if check_sorted && (1 <? np.ndim t)%nat then (Raise dimension_mismatch, gp)
  else match np.fill (np.empty_like junk t) yerr with
       | Raise e => (Raise e, rebound gp t (np.empty_like junk t))
       | Ok filled =>
           match diag_of gp t filled with
           | Raise e => (Raise e, with_a_solver (rebound gp t filled))
           | Ok diag => (Ok tt, after_compute gp t filled diag)
           end
       end.
Proof.
  assert (Tail :
    (set__t (np.atleast_1d t) ;;
     set__yerr (np.empty_like junk (np.atleast_1d t)) ;;
     filled <- lift (np.fill (np.empty_like junk (np.atleast_1d t)) yerr) ;;
     set__yerr filled ;;
     gp <- get ;;
     when (match solver gp with None => true | Some _ => false end)
          (set_solver solver.new) ;;
     gp <- get ;;
     s <- attr "solver" (solver gp) ;;
     diag <- _get_diag ;;
     set_solver (solver.compute s (kernel_coefficients (kernel gp))
                                (np.atleast_1d t) diag) ;;
     set_dirty false) gp =
    match np.fill (np.empty_like junk (np.atleast_1d t)) yerr with
    | Raise e => (Raise e, rebound gp (np.atleast_1d t)
                             (np.empty_like junk (np.atleast_1d t)))
    | Ok filled =>
        match diag_of gp (np.atleast_1d t) filled with
        | Raise e => (Raise e, with_a_solver (rebound gp (np.atleast_1d t) filled))
        | Ok diag => (Ok tt, after_compute gp (np.atleast_1d t) filled diag)
        end
    end).
  { unfold _get_diag, set_dirty, diag_of, with_a_solver, rebound. run_monad.
    destruct (np.fill _ yerr) as [filled|e]; cbn -[np.add np.map get_value];
      [|reflexivity].
    destruct (solver gp) as [s|]; cbn -[np.add np.map get_value];
      destruct (np.add _ _); reflexivity. }
  cbv zeta. unfold compute, decreases. unfold bind at 1.
  destruct check_sorted; cbn [when andb].
  - unfold bind at 1, lift at 1.
    assert (Hdiff : exists d, np.diff (np.atleast_1d t) = Ok d)
      by (destruct t; eexists; reflexivity).
    destruct Hdiff as [d Hd]. rewrite Hd.
    destruct (np.any_lt d 0); cbn [when raise ret]; [reflexivity|].
    unfold bind at 1.
    destruct (1 <? np.ndim (np.atleast_1d t))%nat; cbn [when raise ret];
      [reflexivity | exact Tail].
  - cbn [ret]. unfold bind at 1. cbn [when ret]. exact Tail.
Qed.

(** X1: for coordinates given as floats, a [compute] that returns has
    bound the coordinates (a scalar as a one-element array), stored the
    uncertainties broadcast to their shape, handed the solver the kernel's
    current coefficients, the coordinates and the diagonal
    [yerr**2 + exp(log_white_noise(t))], and left the object clean; no
    parameter value, mask or name has changed.  (Arrays of integers are not
    represented: the storage [np.empty_like] allocates for the uncertainties
    has the element type of the coordinates.) *)
Theorem compute_success (junk : R) (t yerr : ndarray) (check_sorted : bool) (gp : GP) :
  fst (compute junk t yerr check_sorted gp) = Ok tt ->
  let gp' := snd (compute junk t yerr check_sorted gp) in
  let t' := np.atleast_1d t in
  exists filled diag,
    np.fill (np.empty_like junk t') yerr = Ok filled /\
    np.add (np.map (fun x => x * x) filled)
           (np.map exp (get_value (log_white_noise gp) t')) = Ok diag /\
    _t gp' = Some t' /\
    _yerr gp' = Some filled /\
    option_map solver.factorized (solver gp') =
      Some (Some (kernel_coefficients (kernel gp), t', diag)) /\
    dirty gp' = false /\
    same_parameters gp gp'.
Proof.
  rewrite compute_cases. cbv zeta.
  destruct (check_sorted && decreases _); [discriminate|].
  destruct (check_sorted && _); [discriminate|].
  destruct (np.fill _ yerr) as [filled|e]; [|discriminate].
  destruct (diag_of gp _ filled) as [diag|e] eqn:Ed; [|discriminate].
  intros _. exists filled, diag. cbn [snd].
  repeat split; assumption.
Qed.

Lemma compute_success_witness :
  _t (snd (compute 0 (Arr0 5) (Arr1 [2]) true (examples.gp_of 1 0 0))) =
  Some (Arr1 [5]).
Proof.
  destruct (compute_success 0 (Arr0 5) (Arr1 [2]) true (examples.gp_of 1 0 0))
    as (filled & diag & _ & _ & H & _).
  - rewrite compute_cases. reflexivity.
  - exact H.
Defined.

(** X2: [compute] is not atomic.  When the coordinates fail the validation
    ([check_sorted] on, and a decreasing pair or more than one dimension)
    the call raises a [ValueError] and nothing is rebound.  When they get
    past it ([check_sorted] off, or sorted one-dimensional coordinates) but
    the uncertainties cannot be broadcast to the shape of the coordinates,
    the call raises the broadcast error after it has bound the new
    coordinates (with unwritten storage for the uncertainties); the solver,
    the dirty flag and the parameters are as before.  An object that was
    clean therefore stays clean: its next [_recompute] does nothing, so the
    factorization made for the old coordinates is the one that remains in
    use. *)
Theorem compute_rebinds_before_failing (junk : R)
    (t yerr : ndarray) (check_sorted : bool) (e : exn) (gp : GP) :
  np.fill (np.empty_like junk (np.atleast_1d t)) yerr = Raise e ->
  let t' := np.atleast_1d t in
  let gp' := snd (compute junk t yerr check_sorted gp) in
  (check_sorted && (decreases t' || (1 <? np.ndim t')%nat) = true ->
     is_value_error (fst (compute junk t yerr check_sorted gp)) = true /\
     gp' = gp) /\
  (check_sorted && (decreases t' || (1 <? np.ndim t')%nat) = false ->
     fst (compute junk t yerr check_sorted gp) = Raise e /\
     _t gp' = Some t' /\
     _yerr gp' = Some (np.empty_like junk t') /\
     solver gp' = solver gp /\
     _computed gp' = _computed gp /\
     dirty gp' = dirty gp /\
     same_parameters gp gp' /\
     (dirty gp = false -> _recompute junk gp' = (Ok tt, gp'))).
Proof.
  intros Hf t' gp'. subst t' gp'. rewrite compute_cases. cbv zeta. rewrite Hf.
  destruct check_sorted; cbn [andb].
  - destruct (decreases (np.atleast_1d t)); cbn [orb].
    + split; [intros _; split; reflexivity | discriminate].
    + destruct (1 <? np.ndim (np.atleast_1d t))%nat.
      * split; [intros _; split; reflexivity | discriminate].
      * split; [discriminate|]. intros _. cbn [fst snd].
        repeat split. intros Hd. now apply clean__recompute.
  - split; [discriminate|]. intros _. cbn [fst snd].
    repeat split. intros Hd. now apply clean__recompute.
Qed.

Lemma compute_rebinds_before_failing_witness :
  fst (compute 0 (Arr1 [0; 1]) (Arr1 [1; 2; 3]) true examples.unit_gp) =
    Raise np.no_fill /\
  _t (snd (compute 0 (Arr1 [0; 1]) (Arr1 [1; 2; 3]) true examples.unit_gp)) =
    Some (Arr1 [0; 1]) /\
  dirty (snd (compute 0 (Arr1 [0; 1]) (Arr1 [1; 2; 3]) true examples.unit_gp)) =
    dirty examples.unit_gp /\
  snd (compute 0 (Arr1 [1; 0]) (Arr1 [1; 2; 3]) true examples.unit_gp) =
    examples.unit_gp.
Proof.
  destruct (compute_rebinds_before_failing 0
              (Arr1 [0; 1]) (Arr1 [1; 2; 3]) true np.no_fill examples.unit_gp eq_refl)
    as [_ H].
  destruct H as (H0 & H1 & _ & _ & _ & H2 & _).
  { cbn. unfold np.ltb. destruct (Rlt_dec (1 - 0) 0); [lra | reflexivity]. }
  destruct (compute_rebinds_before_failing 0
              (Arr1 [1; 0]) (Arr1 [1; 2; 3]) true np.no_fill examples.unit_gp eq_refl)
    as [H _].
  destruct H as [_ H3].
  { cbn. unfold np.ltb. destruct (Rlt_dec (0 - 1) 0); [reflexivity | lra]. }
  repeat split; assumption.
Defined.

(** X3: [compute] is idempotent: when a call returns, the same call made
    again returns and leaves the same state. *)
Theorem compute_idempotent (junk : R) (t yerr : ndarray) (check_sorted : bool) (gp : GP) :
  fst (compute junk t yerr check_sorted gp) = Ok tt ->
  compute junk t yerr check_sorted (snd (compute junk t yerr check_sorted gp)) =
  (Ok tt, snd (compute junk t yerr check_sorted gp)).
Proof.
  rewrite !compute_cases. cbv zeta.
  destruct (check_sorted && decreases _); [discriminate|].
  destruct (check_sorted && _); [discriminate|].
  destruct (np.fill _ yerr) as [filled|e]; [|discriminate].
  destruct (diag_of gp _ filled) as [diag|e] eqn:Ed; [|discriminate].
  intros _. cbn [snd].
  assert (Ed' : diag_of (after_compute gp (np.atleast_1d t) filled diag)
                  (np.atleast_1d t) filled = Ok diag) by exact Ed.
  rewrite Ed'. reflexivity.
Qed.

Lemma compute_idempotent_witness :
  compute 0 (Arr1 [0; 1]) (Arr0 1) false
    (snd (compute 0 (Arr1 [0; 1]) (Arr0 1) false (examples.gp_of 1 0 0))) =
  (Ok tt, snd (compute 0 (Arr1 [0; 1]) (Arr0 1) false (examples.gp_of 1 0 0))).
Proof.
  apply compute_idempotent. rewrite compute_cases. reflexivity.
Defined.

(** ** Calls that leave the parameters alone *)

Lemma same_parameters_refl (gp : GP) : same_parameters gp gp.
Proof. repeat split. Qed.

Lemma same_parameters_compute (gp0 : GP) (junk : R) (t yerr : ndarray)
    (check_sorted : bool) :
  preserves (same_parameters gp0) (compute junk t yerr check_sorted).
Proof.
  intros gp H. rewrite compute_cases. cbv zeta.
  destruct (check_sorted && decreases _); [exact H|].
  destruct (check_sorted && _); [exact H|].
  destruct (np.fill _ yerr) as [filled|e]; [|exact H].
  destruct (diag_of gp _ filled) as [diag|e]; exact H.
Qed.

Lemma same_parameters__recompute (gp0 : GP) (junk : R) :
  preserves (same_parameters gp0) (_recompute junk).
Proof.
  unfold _recompute. pose proof (same_parameters_compute gp0 junk). preserve.
Qed.

Lemma same_parameters_get_parameter (gp0 : GP) (name : string) :
  preserves (same_parameters gp0) (_apply_to_parameter get_parameter_ name).
Proof.
  intros gp H. unfold _apply_to_parameter, call_method. run_monad.
  destruct (prefix "mean:" name).
  { destruct (modeling.get_parameter _ _); exact H. }
  destruct (prefix "log_white_noise:" name).
  { destruct (modeling.get_parameter _ _); exact H. }
  destruct (prefix "kernel:" name); [|exact H].
  destruct (modeling.get_parameter _ _); exact H.
Qed.

(** X4: [compute], the queries ([log_likelihood], [apply_inverse], [dot],
    [predict], [get_matrix]), the assignment [gp.dirty = True] and
    [get_parameter] never change a parameter: whatever their arguments and
    whether they return or raise, the parameter values (frozen ones
    included), the mask, the names and the kernel's coefficients are
    afterwards what they were. *)
Theorem reads_leave_parameters (ops : solver.Ops) (junk : R) (c : call) (gp : GP) :
  reads_only c = true -> same_parameters gp (exec ops junk c gp).
Proof.
  pose proof (same_parameters__recompute gp junk) as Hr.
  pose proof (same_parameters_refl gp) as H0.
  destruct c; cbn [reads_only exec]; intros Hc; try discriminate Hc.
  - now apply same_parameters_compute.
  - now apply preserves_log_likelihood.
  - now apply preserves_apply_inverse.
  - now apply preserves_dot.
  - now apply preserves_predict.
  - now apply preserves_get_matrix.
  - exact H0.
  - destruct f; try discriminate Hc. now apply same_parameters_get_parameter.
Qed.

Lemma reads_leave_parameters_witness :
  all_parameters
    (exec dense.ops 0 (predict_ (Arr1 [4]) None true false) examples.biased_gp) =
  all_parameters examples.biased_gp.
Proof.
  exact (proj1 (reads_leave_parameters dense.ops 0
                  (predict_ (Arr1 [4]) None true false) examples.biased_gp eq_refl)).
Defined.

(** ** Lazy recomputation *)

Lemma process_input_closed (y : ndarray) (gp : GP) :
  _process_input y gp = (check_input (_t gp) y, gp).
Proof.
  unfold _process_input, check_input, bind, get, lift, raise, ret.
  destruct (_t gp) as [t|]; [|reflexivity].
  destruct (np.len t); [|reflexivity].
  destruct (np.len y); [|reflexivity].
  now destruct (negb _).
Qed.

Lemma bind_closed {A B} (m : M A) (k : A -> M B) (gp g : GP) (r : res A) :
  m gp = (r, g) ->
  bind m k gp = match r with Ok a => k a g | Raise e => (Raise e, g) end.
Proof. intros H. unfold bind. rewrite H. now destruct r. Qed.

Section Lazy.

Variable ops : solver.Ops.
Variable junk : R.
Variable gp : GP.
Variables t yerr : list R.

Hypothesis Hdirty : dirty gp = true.
Hypothesis Ht : _t gp = Some (Arr1 t).
Hypothesis Hyerr : _yerr gp = Some (Arr1 yerr).
Hypothesis Hlen : List.length yerr = List.length t.

Let gp' := snd (compute junk (Arr1 t) (Arr1 yerr) false gp).

Lemma lazy__recompute : _recompute junk gp = (Ok tt, gp').
Proof.
  unfold gp'. rewrite (compute_vector junk t yerr gp Hlen). cbn [snd].
  unfold _recompute, bind, get, when, attr. rewrite Hdirty, Ht, Hyerr.
  cbn [ret]. apply compute_vector. exact Hlen.
Qed.

Lemma lazy_clean : _recompute junk gp' = (Ok tt, gp').
Proof.
  apply clean__recompute. unfold gp'.
  now rewrite (compute_vector junk t yerr gp Hlen).
Qed.

Lemma lazy_t : _t gp' = Some (Arr1 t).
Proof. unfold gp'. now rewrite (compute_vector junk t yerr gp Hlen). Qed.

Lemma lazy_mean (x : ndarray) : get_value (mean gp') x = get_value (mean gp) x.
Proof. unfold gp'. now rewrite (compute_vector junk t yerr gp Hlen). Qed.

Lemma lazy_log_likelihood (y : ndarray) (c : R) :
  fst (log_likelihood ops junk y c gp) = fst (log_likelihood ops junk y c gp') /\
  (forall a, fst (log_likelihood ops junk y c gp) = Ok a ->
             snd (log_likelihood ops junk y c gp) = gp').
Proof.
  unfold log_likelihood.
  rewrite (bind_closed _ _ _ _ _ (process_input_closed y gp)).
  rewrite (bind_closed _ _ _ _ _ (process_input_closed y gp')).
  rewrite lazy_t, Ht.
  destruct (check_input _ y) as [y'|e]; [|split; [reflexivity | discriminate]].
  rewrite (bind_ok get _ gp gp gp eq_refl), (bind_ok get _ gp' gp' gp' eq_refl).
  rewrite (bind_ok _ _ _ _ _ (coords_bound gp (Arr1 t) Ht)).
  rewrite (bind_ok _ _ _ _ _ (coords_bound gp' (Arr1 t) lazy_t)).
  rewrite lazy_mean.
  rewrite (bind_closed (lift _) _ gp gp _ eq_refl).
  rewrite (bind_closed (lift _) _ gp' gp' _ eq_refl).
  destruct (np.sub y' _) as [resid|e]; [|split; [reflexivity | discriminate]].
  rewrite (bind_ok _ _ _ _ _ lazy__recompute), (bind_ok _ _ _ _ _ lazy_clean).
  split; [reflexivity|]. intros a _.
  unfold bind, when, get, attr, lift, raise, ret.
  destruct (1 <? np.ndim y')%nat; [reflexivity|].
  destruct (solver gp'); [|reflexivity].
  destruct (np.len y'); reflexivity.
Qed.

Lemma lazy_apply_inverse (y : ndarray) :
  apply_inverse ops junk y gp = apply_inverse ops junk y gp'.
Proof.
  unfold apply_inverse.
  now rewrite (bind_ok _ _ _ _ _ lazy__recompute), (bind_ok _ _ _ _ _ lazy_clean).
Qed.

Lemma lazy_dot (y : ndarray) : dot ops junk y gp = dot ops junk y gp'.
Proof.
  unfold dot.
  now rewrite (bind_ok _ _ _ _ _ lazy__recompute), (bind_ok _ _ _ _ _ lazy_clean).
Qed.

Lemma lazy_predict (y : ndarray) (x : option ndarray) (return_cov return_var : bool) :
  fst (predict ops junk y x return_cov return_var gp) =
  fst (predict ops junk y x return_cov return_var gp').
Proof.
  unfold predict.
  rewrite (bind_closed _ _ _ _ _ (process_input_closed y gp)).
  rewrite (bind_closed _ _ _ _ _ (process_input_closed y gp')).
  rewrite lazy_t, Ht.
  destruct (check_input _ y) as [y'|e]; [|reflexivity].
  destruct (1 <? np.ndim y')%nat; cbn [when].
  { rewrite (bind_raise (raise _) _ gp gp dimension_mismatch eq_refl).
    now rewrite (bind_raise (raise _) _ gp' gp' dimension_mismatch eq_refl). }
  rewrite (bind_ok (ret tt) _ gp gp tt eq_refl).
  rewrite (bind_ok (ret tt) _ gp' gp' tt eq_refl).
  destruct x as [x|].
  - destruct (1 <? np.ndim (np.atleast_1d x))%nat; cbn [when]; rewrite !bind_assoc.
    + rewrite (bind_raise (raise _) _ gp gp dimension_mismatch eq_refl).
      now rewrite (bind_raise (raise _) _ gp' gp' dimension_mismatch eq_refl).
    + rewrite (bind_ok (ret tt) _ gp gp tt eq_refl).
      rewrite (bind_ok (ret tt) _ gp' gp' tt eq_refl).
      rewrite (bind_ok (ret _) _ gp gp _ eq_refl).
      rewrite (bind_ok (ret _) _ gp' gp' _ eq_refl).
      now rewrite (bind_ok _ _ _ _ _ lazy__recompute), (bind_ok _ _ _ _ _ lazy_clean).
  - rewrite (bind_ok _ _ _ _ _ (coords_bound gp (Arr1 t) Ht)).
    rewrite (bind_ok _ _ _ _ _ (coords_bound gp' (Arr1 t) lazy_t)).
    now rewrite (bind_ok _ _ _ _ _ lazy__recompute), (bind_ok _ _ _ _ _ lazy_clean).
Qed.

End Lazy.

(** X5: lazy recomputation is transparent.  On a dirty object with bound
    one-dimensional coordinates and as many uncertainties, [log_likelihood],
    [apply_inverse], [dot] and [predict] answer exactly as they do on the
    object obtained by calling [compute] again with the stored coordinates
    and uncertainties, whatever their arguments; a [log_likelihood] that
    returns leaves the object in that recomputed, clean state.
    [get_matrix()] alone does not recompute: on the dirty object it raises
    "you must call 'compute' first". *)
Theorem lazy_recompute_transparent (ops : solver.Ops) (junk : R) (gp : GP)
    (t yerr : list R) :
  dirty gp = true ->
  _t gp = Some (Arr1 t) ->
  _yerr gp = Some (Arr1 yerr) ->
  List.length yerr = List.length t ->
  let gp' := snd (compute junk (Arr1 t) (Arr1 yerr) false gp) in
  fst (compute junk (Arr1 t) (Arr1 yerr) false gp) = Ok tt /\
  dirty gp' = false /\
  (forall y c,
     fst (log_likelihood ops junk y c gp) = fst (log_likelihood ops junk y c gp') /\
     (forall a, fst (log_likelihood ops junk y c gp) = Ok a ->
                snd (log_likelihood ops junk y c gp) = gp')) /\
  (forall y, apply_inverse ops junk y gp = apply_inverse ops junk y gp') /\
  (forall y, dot ops junk y gp = dot ops junk y gp') /\
  (forall y x return_cov return_var,
     fst (predict ops junk y x return_cov return_var gp) =
     fst (predict ops junk y x return_cov return_var gp')) /\
  (forall include_diagonal,
     fst (get_matrix None None include_diagonal gp) = Raise not_computed).
Proof.
  intros Hd Ht Hy Hl gp'. repeat split.
  - now rewrite (compute_vector junk t yerr gp Hl).
  - unfold gp'. now rewrite (compute_vector junk t yerr gp Hl).
  - apply (lazy_log_likelihood ops junk gp t yerr Hd Ht Hy Hl).
  - apply (lazy_log_likelihood ops junk gp t yerr Hd Ht Hy Hl).
  - intros y. apply (lazy_apply_inverse ops junk gp t yerr Hd Ht Hy Hl).
  - intros y. apply (lazy_dot ops junk gp t yerr Hd Ht Hy Hl).
  - intros. apply (lazy_predict ops junk gp t yerr Hd Ht Hy Hl).
  - intros incl. unfold get_matrix. rewrite (bind_ok get _ gp gp gp eq_refl).
    rewrite Ht. unfold computed. now rewrite Hd.
Qed.

Lemma lazy_recompute_transparent_witness :
  dot dense.ops 0 (Arr1 [1])
    (snd (set_parameter "kernel:a" 2 examples.noisy_gp)) =
  dot dense.ops 0 (Arr1 [1])
    (snd (compute 0 (Arr1 [0]) (Arr1 [1]) false
            (snd (set_parameter "kernel:a" 2 examples.noisy_gp)))).
Proof.
  exact (proj1 (proj2 (proj2 (proj2 (proj2
           (lazy_recompute_transparent dense.ops 0
              (snd (set_parameter "kernel:a" 2 examples.noisy_gp)) [0] [1]
              eq_refl eq_refl eq_refl eq_refl))))) (Arr1 [1])).
Defined.

(** ** [apply_inverse] *)

Lemma length_add_diag_rows (rows : list (list R)) (d : list R) (i : nat) :
  List.length (np.add_diag_rows i rows d) = List.length rows.
Proof.
  revert d i. induction rows as [|r rows IH]; intros [|x d] i; try reflexivity.
  cbn. f_equal. apply IH.
Qed.

(** X6: on a clean object with bound one-dimensional coordinates,
    [apply_inverse(y)] hands [y] unchanged (no mean is subtracted) to the
    solver's [solve] and leaves the object as it is.  Only the first
    dimension of [y] is checked: a matrix with one row per coordinate is
    accepted, any other length raises "dimension mismatch", and a scalar
    raises a type error.  For a solver that honours its contract for the
    training covariance [K], the answer [x] for a vector [y] satisfies
    [K x = y]. *)
Theorem apply_inverse_solves (ops : solver.Ops) (junk : R) (gp : GP)
    (s : solver.Solver) (t yerr : list R) :
  dirty gp = false ->
  solver gp = Some s ->
  _t gp = Some (Arr1 t) ->
  _yerr gp = Some (Arr1 yerr) ->
  List.length yerr = List.length t ->
  (forall y n, np.len y = Ok n ->
     apply_inverse ops junk y gp =
     if (List.length t =? n)%nat then (Ok (solver.solve ops s y), gp)
     else (Raise dimension_mismatch, gp)) /\
  (forall x, exists e,
     apply_inverse ops junk (Arr0 x) gp = (Raise (TypeError e), gp)) /\
  (forall y,
     dense.honours ops s
       (np.add_diag_rows 0 (kernel_matrix gp t t) (training_diagonal gp t yerr)) ->
     List.length y = List.length t ->
     exists r x,
       apply_inverse ops junk (Arr1 y) gp = (Ok r, gp) /\
       np.flatten r = Arr1 x /\
       np.mat_vec (np.add_diag_rows 0 (kernel_matrix gp t t)
                     (training_diagonal gp t yerr)) x = y).
Proof.
  intros Hd Hs Ht Hye Hl.
  assert (Hgen : forall y, apply_inverse ops junk y gp =
            match check_input (Some (Arr1 t)) y with
            | Ok y' => (Ok (solver.solve ops s y'), gp)
            | Raise e => (Raise e, gp)
            end).
  { intros y. unfold apply_inverse.
    rewrite (bind_ok _ _ _ _ _ (clean__recompute junk gp Hd)).
    rewrite (bind_ok get _ gp gp gp eq_refl). rewrite Hs. cbn [attr].
    rewrite (bind_ok (ret s) _ gp gp s eq_refl).
    rewrite (bind_closed _ _ _ _ _ (process_input_closed y gp)). rewrite Ht.
    now destruct (check_input _ y). }
  split; [|split].
  - intros y n Hn. rewrite Hgen. unfold check_input. cbn [np.len]. rewrite Hn.
    now destruct (List.length t =? n)%nat.
  - intros x. rewrite Hgen. eexists. reflexivity.
  - intros y Hon Hy.
    destruct (dense.solve_spec _ _ _ Hon y) as (x & Hflat & _ & HK).
    { rewrite length_add_diag_rows, length_kernel_matrix. exact Hy. }
    exists (solver.solve ops s (Arr1 y)), x. split; [|split; assumption].
    rewrite Hgen. unfold check_input. cbn [np.len].
    now rewrite Hy, Nat.eqb_refl.
Qed.

Lemma apply_inverse_solves_witness :
  apply_inverse dense.ops 0 (Arr2 [[1; 2]]) examples.noisy_gp =
  (Ok (solver.solve dense.ops examples.biased_solver (Arr2 [[1; 2]])),
   examples.noisy_gp).
Proof.
  exact (proj1 (apply_inverse_solves dense.ops 0 examples.noisy_gp
                  examples.biased_solver [0] [1]
                  eq_refl eq_refl eq_refl eq_refl eq_refl)
               (Arr2 [[1; 2]]) 1%nat eq_refl).
Defined.

(** ** What [predict] returns *)

Lemma returns_bind {A B} (Q : B -> Prop) (m : M A) (k : A -> M B) :
  (forall a, returns Q (k a)) -> returns Q (bind m k).
Proof.
  intros Hk gp b g. unfold bind.
  destruct (m gp) as [[a|e] g']; [apply Hk | discriminate].
Qed.

Lemma returns_ret {A} (Q : A -> Prop) (a : A) : Q a -> returns Q (ret a).
Proof. intros H gp b g E. injection E as <- _. exact H. Qed.

Lemma follows_bind {A B C} (f : B -> C -> Prop) (m : M A)
    (k1 : A -> M B) (k2 : A -> M C) :
  (forall a, follows f (k1 a) (k2 a)) -> follows f (bind m k1) (bind m k2).
Proof.
  intros Hk gp b g. unfold bind.
  destruct (m gp) as [[a|e] g']; [apply Hk | discriminate].
Qed.

(** X7: what [predict] returns is decided by its two flags, [return_var]
    taking precedence over [return_cov]: the mean alone when both are false,
    the mean and the variance when [return_var] is true (whatever
    [return_cov]), the mean and the covariance otherwise.  The predictive
    mean does not depend on the flags: whenever a call returns, the call
    with both flags false returns, from the same state, the same mean. *)
Theorem predict_result (ops : solver.Ops) (junk : R) (y : ndarray)
    (t : option ndarray) (return_cov return_var : bool) (gp : GP) (p : prediction) :
  fst (predict ops junk y t return_cov return_var gp) = Ok p ->
  kind_matches return_cov return_var p /\
  fst (predict ops junk y t false false gp) = Ok (Mu (mu_of p)).
Proof.
  intros H.
  assert (F : follows (fun a b => kind_matches return_cov return_var a /\
                                  b = Mu (mu_of a))
                (predict ops junk y t return_cov return_var)
                (predict ops junk y t false false)).
  { unfold predict.
    repeat (apply follows_bind; intros ?).
    match goal with |- follows _ (let '(_, _) := ?r in _) _ => destruct r as [alpha Kxs] end.
    repeat (apply follows_bind; intros ?).
    cbn [orb negb].
    destruct return_var, return_cov; cbn [orb negb].
    - intros g1 q g2 E. eexists _, _. split; [reflexivity|].
      revert g1 q g2 E.
      apply (returns_bind (fun q => kind_matches true true q /\ Mu _ = Mu (mu_of q))).
      intros Kxs'. repeat (apply returns_bind; intros ?).
      apply returns_ret. split; reflexivity.
    - intros g1 q g2 E. eexists _, _. split; [reflexivity|].
      revert g1 q g2 E.
      apply (returns_bind (fun q => kind_matches false true q /\ Mu _ = Mu (mu_of q))).
      intros Kxs'. repeat (apply returns_bind; intros ?).
      apply returns_ret. split; reflexivity.
    - intros g1 q g2 E. eexists _, _. split; [reflexivity|].
      revert g1 q g2 E.
      apply (returns_bind (fun q => kind_matches true false q /\ Mu _ = Mu (mu_of q))).
      intros Kxs'. repeat (apply returns_bind; intros ?).
      apply returns_ret. repeat split; reflexivity.
    - intros g1 q g2 E. injection E as <- <-. eexists _, _.
      split; [reflexivity|]. repeat split. }
  destruct (predict ops junk y t return_cov return_var gp) as [r g] eqn:E.
  cbn [fst] in H. subst r.
  destruct (F gp p g E) as (b & g' & Eb & Hk & ->).
  split; [exact Hk|]. now rewrite Eb.
Qed.

Lemma predict_result_witness :
  exists p,
    fst (predict dense.ops 0 (Arr1 [4]) None true true examples.biased_gp) = Ok p /\
    kind_matches true true p.
Proof.
  destruct (fst (predict dense.ops 0 (Arr1 [4]) None true true examples.biased_gp))
    as [p|e] eqn:E.
  - exists p. split; [reflexivity|].
    exact (proj1 (predict_result dense.ops 0 (Arr1 [4]) None true true
                    examples.biased_gp p E)).
  - exfalso. cbn in E. discriminate E.
Defined.

(** ** Prediction at other coordinates, and with a zero mean *)

Lemma length_training_diagonal (gp : GP) (t yerr : list R) :
  List.length yerr = List.length t ->
  List.length (training_diagonal gp t yerr) = List.length t.
Proof.
  intros H. unfold training_diagonal, white_noise.
  rewrite length_zip_with; rewrite !length_map; congruence.
Qed.



(** X8: on a clean object with bound one-dimensional coordinates [t], for a
    vector [y] of the length of [t] and a solver that honours its contract
    for the training covariance [K], [predict(y, t=x, return_cov=False)]
    returns [mean(x) + Kernel(x, t) alpha] with [K alpha = y - mean(t)], for
    every list of coordinates [x] (the empty one included), and leaves the
    object as it is; a two-dimensional [t] raises "dimension mismatch". *)
Theorem predict_at_new_points (ops : solver.Ops) (junk : R) (gp : GP)
    (s : solver.Solver) (t yerr y : list R) :
  dirty gp = false ->
  solver gp = Some s ->
  _t gp = Some (Arr1 t) ->
  List.length yerr = List.length t ->
  List.length y = List.length t ->
  dense.honours ops s
    (np.add_diag_rows 0 (kernel_matrix gp t t) (training_diagonal gp t yerr)) ->
  exists alpha,
    np.mat_vec (np.add_diag_rows 0 (kernel_matrix gp t t) (training_diagonal gp t yerr))
               alpha =
      np.zip_with Rminus y (List.map (value_at (mean gp) (parameters (mean gp))) t) /\
    (forall x,
       predict ops junk (Arr1 y) (Some (Arr1 x)) false false gp =
       (Ok (Mu (Arr1 (np.zip_with Rplus
                        (List.map (value_at (mean gp) (parameters (mean gp))) x)
                        (np.mat_vec (kernel_matrix gp x t) alpha)))), gp)) /\
    (forall rows return_cov return_var,
       predict ops junk (Arr1 y) (Some (Arr2 rows)) return_cov return_var gp =
       (Raise dimension_mismatch, gp)).
Proof.
  intros Hd Hs Ht Hye Hy Hon.
  pose proof (length_training_diagonal gp t yerr Hye) as Hld.
  destruct (dense.solve_spec _ _ _ Hon
              (np.zip_with Rminus y
                 (List.map (value_at (mean gp) (parameters (mean gp))) t)))
    as (alpha & Hflat & Hla & HK).
  { rewrite length_add_diag_rows, length_kernel_matrix, length_zip_with;
      rewrite ?length_map; congruence. }
  rewrite length_zip_with in Hla by (rewrite length_map; congruence).
  exists alpha. split; [exact HK|]. split.
  - intros x. apply (predict_at ops junk gp s t y alpha); try assumption.
    congruence.
  - intros rows rc rv. unfold predict.
    rewrite (bind_ok _ _ _ _ _ (process_input_vector t y gp Ht Hy)).
    cbn [np.ndim np.atleast_1d Nat.ltb Nat.leb when].
    rewrite (bind_ok (ret tt) _ gp gp tt eq_refl). rewrite !bind_assoc.
    now rewrite (bind_raise (raise _) _ gp gp dimension_mismatch eq_refl).
Qed.

Lemma predict_at_new_points_witness :
  exists alpha,
    predict dense.ops 0 (Arr1 [4]) (Some (Arr1 [])) false false examples.biased_gp =
    (Ok (Mu (Arr1 (np.zip_with Rplus []
                     (np.mat_vec (kernel_matrix examples.biased_gp [] [0]) alpha)))),
     examples.biased_gp).
Proof.
  destruct (predict_at_new_points dense.ops 0 examples.biased_gp
              examples.biased_solver [0] [1] [4]
              eq_refl eq_refl eq_refl eq_refl eq_refl biased_solver_honours)
    as (alpha & _ & H & _).
  exists alpha. exact (H []).
Defined.



(** ** Symmetry of the dense matrices *)

Lemma nth_map_in {A B} (f : A -> B) (l : list A) (i : nat) (da : A) (db : B) :
  (i < List.length l)%nat -> nth i (List.map f l) db = f (nth i l da).
Proof.
  intros H. rewrite (nth_indep _ db (f da)) by (now rewrite length_map).
  apply map_nth.
Qed.

Lemma entry_kernel_matrix (gp : GP) (x1 x2 : list R) (i j : nat) :
  entry (kernel_matrix gp x1 x2) i j =
  if (i <? List.length x1)%nat && (j <? List.length x2)%nat
  then covariance_function gp (nth i x1 0 - nth j x2 0) else 0.
Proof.
  unfold entry, kernel_matrix, dense.kernel_matrix, covariance_function.
  destruct (Nat.ltb_spec i (List.length x1)) as [Hi|Hi]; cbn [andb].
  - rewrite (nth_map_in _ x1 i 0 []) by exact Hi.
    destruct (Nat.ltb_spec j (List.length x2)) as [Hj|Hj].
    + now rewrite (nth_map_in _ x2 j 0 0) by exact Hj.
    + apply nth_overflow. now rewrite length_map.
  - rewrite (nth_overflow _ []) by (now rewrite length_map). now destruct j.
Qed.

Lemma nth_add_at (p : nat) (r : list R) (x : R) (j : nat) :
  nth j (np.add_at p r x) 0 =
  nth j r 0 + (if (j =? p)%nat && (j <? List.length r)%nat then x else 0).
Proof.
  revert p j. induction r as [|y r IH]; intros p j.
  - replace (j <? List.length (@nil R))%nat with false by (now destruct j).
    rewrite andb_false_r. destruct p, j; cbn; ring.
  - destruct p as [|p], j as [|j]; cbn [np.add_at nth List.length].
    + cbn. ring.
    + cbn. ring.
    + cbn. ring.
    + rewrite IH. reflexivity.
Qed.

Lemma entry_add_diag_rows (rows : list (list R)) (d : list R) (s i j : nat) :
  entry (np.add_diag_rows s rows d) i j =
  entry rows i j +
  (if (i <? List.length rows)%nat && (i <? List.length d)%nat &&
      (j =? s + i)%nat && (j <? List.length (nth i rows []))%nat
   then nth i d 0 else 0).
Proof.
  unfold entry. revert d s i.
  induction rows as [|r rows IH]; intros d s i.
  - cbn. destruct i, j; cbn; ring.
  - destruct d as [|x d].
    + cbn [np.add_diag_rows List.length]. rewrite andb_false_r. cbn. ring.
    + destruct i as [|i]; cbn [np.add_diag_rows nth List.length].
      * rewrite nth_add_at, Nat.add_0_r. cbn [Nat.ltb Nat.leb andb]. reflexivity.
      * rewrite IH. replace (S s + i)%nat with (s + S i)%nat by lia.
        reflexivity.
Qed.

Lemma get_matrix_training (gp : GP) (t yerr : list R) (include_diagonal : option bool) :
  dirty gp = false -> _t gp = Some (Arr1 t) ->
  _yerr gp = Some (Arr1 yerr) -> List.length yerr = List.length t ->
  get_matrix None None include_diagonal gp =
  (Ok (Arr2 match include_diagonal with
            | Some false => kernel_matrix gp t t
            | _ => np.add_diag_rows 0 (kernel_matrix gp t t)
                     (training_diagonal gp t yerr)
            end), gp).
Proof.
  intros Hd Ht Hy Hl. unfold get_matrix. step_get. rewrite Ht.
  unfold computed. rewrite Hd. cbn [negb when]. step_ret.
  destruct (kernel_value_outer gp t t) as [Eo Ek].
  step (lift_ok _ _ gp Eo). rewrite Ek.
  assert (Hadd : (diag <- _get_diag ;;
                  lift (np.add_diag (Arr2 (kernel_matrix gp t t)) diag)) gp =
                 (Ok (Arr2 (np.add_diag_rows 0 (kernel_matrix gp t t)
                              (training_diagonal gp t yerr))), gp)).
  { step (get_diag_bound gp t yerr Ht Hy Hl). unfold lift.
    rewrite add_diag_kernel_matrix; [reflexivity|].
    now apply length_training_diagonal. }
  destruct include_diagonal as [[|]|]; [exact Hadd | reflexivity | exact Hadd].
Qed.

Lemma get_matrix_single (gp : GP) (x : list R) (include_diagonal : option bool) :
  get_matrix (Some (Arr1 x)) None include_diagonal gp =
  (Ok (Arr2 match include_diagonal with
            | Some true => np.add_diag_rows 0 (kernel_matrix gp x x) (white_noise gp x)
            | _ => kernel_matrix gp x x
            end), gp).
Proof.
  unfold get_matrix. cbn [np.atleast_1d]. step_get.
  destruct (kernel_value_outer gp x x) as [Eo Ek].
  step (lift_ok _ _ gp Eo). rewrite Ek.
  destruct include_diagonal as [[|]|]; try reflexivity.
  unfold lift. cbn [get_value np.map]. rewrite List.map_map.
  rewrite add_diag_kernel_matrix by apply length_map. reflexivity.
Qed.

Section Symmetry.

Variable gp : GP.
Hypothesis even : forall tau, covariance_function gp (- tau) = covariance_function gp tau.

Lemma kernel_matrix_transposed (x1 x2 : list R) (i j : nat) :
  entry (kernel_matrix gp x1 x2) i j = entry (kernel_matrix gp x2 x1) j i.
Proof.
  rewrite !entry_kernel_matrix. rewrite (andb_comm (j <? _)%nat).
  destruct (_ && _); [|reflexivity].
  rewrite <- even. f_equal. ring.
Qed.

Lemma with_diagonal_symmetric (x d : list R) (i j : nat) :
  entry (np.add_diag_rows 0 (kernel_matrix gp x x) d) i j =
  entry (np.add_diag_rows 0 (kernel_matrix gp x x) d) j i.
Proof.
  rewrite !entry_add_diag_rows, (kernel_matrix_transposed x x i j).
  f_equal. cbn [Nat.add].
  destruct (Nat.eqb_spec j i) as [->|Hne].
  - now rewrite Nat.eqb_refl.
  - replace (i =? j)%nat with false by (symmetry; apply Nat.eqb_neq; congruence).
    now rewrite !andb_false_r.
Qed.

End Symmetry.

(** X10: for a kernel whose covariance function is even,
    [k(-tau) = k(tau)], the dense matrices are symmetric entry by entry:
    [get_matrix(x2, x1)] is the transpose of [get_matrix(x1, x2)], and both
    the training covariance [get_matrix()] of a computed object and
    [get_matrix(x)] are symmetric matrices, with or without their
    diagonal term. *)
Theorem covariance_symmetric (gp : GP) :
  (forall tau, covariance_function gp (- tau) = covariance_function gp tau) ->
  (forall x1 x2 incl1 incl2 M N,
     fst (get_matrix (Some (Arr1 x1)) (Some (Arr1 x2)) incl1 gp) = Ok (Arr2 M) ->
     fst (get_matrix (Some (Arr1 x2)) (Some (Arr1 x1)) incl2 gp) = Ok (Arr2 N) ->
     forall i j, entry M i j = entry N j i) /\
  (forall x incl K,
     fst (get_matrix (Some (Arr1 x)) None incl gp) = Ok (Arr2 K) ->
     forall i j, entry K i j = entry K j i) /\
  (forall t yerr incl K,
     dirty gp = false -> _t gp = Some (Arr1 t) ->
     _yerr gp = Some (Arr1 yerr) -> List.length yerr = List.length t ->
     fst (get_matrix None None incl gp) = Ok (Arr2 K) ->
     forall i j, entry K i j = entry K j i).
Proof.
  intros even. split; [|split].
  - intros x1 x2 incl1 incl2 M N. rewrite !get_matrix_pair. cbn [fst].
    intros HM HN i j. injection HM as <-. injection HN as <-.
    now apply kernel_matrix_transposed.
  - intros x incl K. rewrite get_matrix_single. cbn [fst].
    intros HK i j. injection HK as <-.
    destruct incl as [[|]|];
      [now apply with_diagonal_symmetric | now apply kernel_matrix_transposed ..].
  - intros t yerr incl K Hd Ht Hy Hl.
    rewrite (get_matrix_training gp t yerr incl Hd Ht Hy Hl). cbn [fst].
    intros HK i j. injection HK as <-.
    destruct incl as [[|]|];
      [now apply with_diagonal_symmetric | now apply kernel_matrix_transposed
      | now apply with_diagonal_symmetric].
Qed.

Lemma covariance_symmetric_witness :
  entry (kernel_matrix examples.noisy_gp [0; 1] [5]) 1 0 =
  entry (kernel_matrix examples.noisy_gp [5] [0; 1]) 0 1.
Proof.
  apply (proj1 (covariance_symmetric examples.noisy_gp (fun tau => eq_refl))
               [0; 1] [5] None None); apply (f_equal fst (get_matrix_pair _ _ _ _)).
Defined.

(** ** Names and the parameter bus *)

Lemma substring_all (s : string) : substring 0 (String.length s) s = s.
Proof. induction s as [|c s IH]; cbn; [reflexivity | now rewrite IH]. Qed.

Lemma prefix_empty (s : string) : prefix "" s = true.
Proof. now destruct s. Qed.

Lemma drop_tag (n : string) :
  drop 5 ("mean:" ++ n) = n /\
  drop 16 ("log_white_noise:" ++ n) = n /\
  drop 7 ("kernel:" ++ n) = n.
Proof.
  unfold drop. cbn. rewrite Nat.sub_0_r. repeat split; apply substring_all.
Qed.

(* the three tags do not shadow one another, and cutting a tag off a tagged
   name gives the name back *)
Lemma dispatch_mean (f : func) (n : string) (gp : GP) :
  _apply_to_parameter f ("mean:" ++ n) gp =
  match call_method f (mean gp) n with
  | Ok (m, r) => (Ok r, snd (set_mean m gp))
  | Raise e => (Raise e, gp)
  end.
Proof.
  unfold _apply_to_parameter. step_get.
  replace (prefix "mean:" ("mean:" ++ n)) with true
    by (cbn; now rewrite prefix_empty).
  rewrite (proj1 (drop_tag n)). rewrite (bind_closed (lift _) _ gp gp _ eq_refl).
  destruct (call_method f (mean gp) n) as [[m r]|e]; reflexivity.
Qed.

Lemma dispatch_log_white_noise (f : func) (n : string) (gp : GP) :
  _apply_to_parameter f ("log_white_noise:" ++ n) gp =
  match call_method f (log_white_noise gp) n with
  | Ok (m, r) => (Ok r, snd (set_log_white_noise m gp))
  | Raise e => (Raise e, gp)
  end.
Proof.
  unfold _apply_to_parameter. step_get.
  change (prefix "mean:" ("log_white_noise:" ++ n)) with false.
  replace (prefix "log_white_noise:" ("log_white_noise:" ++ n)) with true
    by (cbn; now rewrite prefix_empty).
  rewrite (proj1 (proj2 (drop_tag n))). rewrite (bind_closed (lift _) _ gp gp _ eq_refl).
  destruct (call_method f (log_white_noise gp) n) as [[m r]|e]; reflexivity.
Qed.

Lemma dispatch_kernel (f : func) (n : string) (gp : GP) :
  _apply_to_parameter f ("kernel:" ++ n) gp =
  match call_method f (base (kernel gp)) n with
  | Ok (m, r) => (Ok r, snd (set_kernel (with_base (kernel gp) m) gp))
  | Raise e => (Raise e, gp)
  end.
Proof.
  unfold _apply_to_parameter. step_get.
  change (prefix "mean:" ("kernel:" ++ n)) with false.
  change (prefix "log_white_noise:" ("kernel:" ++ n)) with false.
  replace (prefix "kernel:" ("kernel:" ++ n)) with true
    by (cbn; now rewrite prefix_empty).
  rewrite (proj2 (proj2 (drop_tag n))). rewrite (bind_closed (lift _) _ gp gp _ eq_refl).
  destruct (call_method f (base (kernel gp)) n) as [[m r]|e]; reflexivity.
Qed.

Lemma index_of_nth (names : list string) (i : nat) :
  NoDup names -> (i < List.length names)%nat ->
  index_of (nth i names ""%string) names = Some i.
Proof.
  intros Hnd. revert i. induction Hnd as [|n names Hn Hnd IH]; intros i Hi.
  - cbn in Hi. lia.
  - destruct i as [|i]; cbn [nth index_of].
    + now rewrite String.eqb_refl.
    + cbn in Hi. destruct (String.eqb_spec n (nth i names ""%string)) as [E|_].
      * exfalso. apply Hn. rewrite E. apply nth_In. lia.
      * rewrite IH by lia. reflexivity.
Qed.

Lemma model_get_at (m : Model) (i : nat) :
  well_formed m -> NoDup (modeling.parameter_names m) ->
  (i < modeling.full_size m)%nat ->
  modeling.get_parameter m (nth i (modeling.parameter_names m) ""%string) =
  Ok (nth i (parameters m) 0).
Proof.
  intros _ Hnd Hi. unfold modeling.get_parameter.
  now rewrite (index_of_nth _ i Hnd Hi).
Qed.

Lemma state_eta (gp : GP) :
  {| kernel := kernel gp; solver := solver gp; _computed := _computed gp;
     _t := _t gp; _yerr := _yerr gp;
     log_white_noise := log_white_noise gp; mean := mean gp |} = gp.
Proof. now destruct gp. Qed.

Lemma kernel_eta (k : Kernel) : with_base k (base k) = k.
Proof. now destruct k. Qed.

(* where the [i]-th name and the [i]-th parameter of the composite live *)
Lemma locate (gp : GP) (i : nat) :
  proper gp -> (i < full_size gp)%nat ->
  let fm := modeling.full_size (mean gp) in
  let fn := modeling.full_size (log_white_noise gp) in
  ((i < fm)%nat /\
   nth i (parameter_names gp) ""%string =
     ("mean:" ++ nth i (modeling.parameter_names (mean gp)) "")%string /\
   nth i (all_parameters gp) 0 = nth i (parameters (mean gp)) 0) \/
  ((fm <= i)%nat /\ (i - fm < fn)%nat /\
   nth i (parameter_names gp) ""%string =
     ("log_white_noise:" ++
      nth (i - fm) (modeling.parameter_names (log_white_noise gp)) "")%string /\
   nth i (all_parameters gp) 0 = nth (i - fm) (parameters (log_white_noise gp)) 0) \/
  ((fm + fn <= i)%nat /\
   (i - fm - fn < modeling.full_size (base (kernel gp)))%nat /\
   nth i (parameter_names gp) ""%string =
     ("kernel:" ++
      nth (i - fm - fn) (modeling.parameter_names (base (kernel gp))) "")%string /\
   nth i (all_parameters gp) 0 =
     nth (i - fm - fn) (parameters (base (kernel gp))) 0).
Proof.
  intros ((Wm & _) & (Wn & _) & (Wk & _)) Hi fm fn.
  destruct Wm as [Pm _], Wn as [Pn _], Wk as [Pk _].
  unfold full_size in Hi. unfold parameter_names, all_parameters.
  destruct (Nat.lt_ge_cases i fm) as [H1|H1].
  - left. split; [exact H1|]. split.
    + rewrite app_nth1 by (now rewrite length_map).
      now apply nth_map_in.
    + apply app_nth1. now rewrite Pm.
  - right. destruct (Nat.lt_ge_cases (i - fm) fn) as [H2|H2].
    + left. split; [exact H1|]. split; [exact H2|]. split.
      * rewrite app_nth2 by (rewrite length_map; exact H1).
        rewrite length_map. fold fm.
        rewrite app_nth1 by (now rewrite length_map).
        now apply nth_map_in.
      * rewrite app_nth2 by (rewrite Pm; exact H1). rewrite Pm. fold fm.
        apply app_nth1. now rewrite Pn.
    + right. split; [subst fm fn; lia|]. split; [subst fm fn; lia|]. split.
      * rewrite app_nth2 by (rewrite length_map; exact H1).
        rewrite length_map. fold fm.
        rewrite app_nth2 by (rewrite length_map; exact H2).
        rewrite length_map. fold fn.
        apply nth_map_in. subst fm fn. unfold modeling.full_size in *. lia.
      * rewrite app_nth2 by (rewrite Pm; exact H1). rewrite Pm. fold fm.
        rewrite app_nth2 by (rewrite Pn; exact H2). rewrite Pn. reflexivity.
Qed.

Lemma get_parameter_at (gp : GP) (i : nat) :
  proper gp -> (i < full_size gp)%nat ->
  get_parameter (nth i (parameter_names gp) ""%string) gp =
  (Ok (Some (nth i (all_parameters gp) 0)), gp).
Proof.
  intros Hp Hi. unfold get_parameter.
  destruct (locate gp i Hp Hi) as [(H1 & -> & ->)|[(H1 & H2 & -> & ->)|(H1 & H2 & -> & ->)]];
    destruct Hp as ((Wm & Nm) & (Wn & Nn) & (Wk & Nk)).
  - rewrite dispatch_mean. unfold call_method.
    rewrite (model_get_at _ i Wm Nm H1). cbn. now rewrite state_eta.
  - rewrite dispatch_log_white_noise. unfold call_method.
    rewrite (model_get_at _ _ Wn Nn H2). cbn. now rewrite state_eta.
  - rewrite dispatch_kernel. unfold call_method.
    rewrite (model_get_at _ _ Wk Nk H2). cbn. now rewrite kernel_eta, state_eta.
Qed.

(** X11: the names of the composite address its parameters.  For
    well-formed sub-models without duplicate names and every position [i]
    below [full_size], [get_parameter] called with the [i]-th entry of
    [parameter_names] returns the [i]-th parameter (frozen or not) and
    changes nothing: the tag routes the call to the right sub-model, and the
    rest of the name is the sub-model's own name. *)
Theorem names_address_parameters (gp : GP) (i : nat) :
  proper gp -> (i < full_size gp)%nat ->
  get_parameter (nth i (parameter_names gp) ""%string) gp =
  (Ok (Some (nth i (all_parameters gp) 0)), gp).
Proof. exact (get_parameter_at gp i). Qed.

Lemma names_address_parameters_witness :
  get_parameter "kernel:a" (examples.gp_of 7 1 0) =
  (Ok (Some 7), examples.gp_of 7 1 0).
Proof.
  apply (names_address_parameters (examples.gp_of 7 1 0) 2).
  - repeat split; repeat constructor; cbn; intuition discriminate.
  - cbn. lia.
Defined.

Lemma length_update {A} (i : nat) (x : A) (l : list A) :
  List.length (modeling.update i x l) = List.length l.
Proof.
  revert i. induction l as [|y l IH]; intros [|i]; cbn; try reflexivity.
  now rewrite IH.
Qed.

Lemma nth_update {A} (i : nat) (x d : A) (l : list A) :
  (i < List.length l)%nat -> nth i (modeling.update i x l) d = x.
Proof.
  revert i. induction l as [|y l IH]; intros [|i] H; cbn in *; try lia;
    [reflexivity|]. apply IH. lia.
Qed.

Lemma update_app1 {A} (i : nat) (x : A) (a b : list A) :
  (i < List.length a)%nat ->
  modeling.update i x (a ++ b) = modeling.update i x a ++ b.
Proof.
  revert i. induction a as [|y a IH]; intros [|i] H; cbn in *; try lia;
    [reflexivity|]. f_equal. apply IH. lia.
Qed.

Lemma update_app2 {A} (i : nat) (x : A) (a b : list A) :
  (List.length a <= i)%nat ->
  modeling.update i x (a ++ b) = a ++ modeling.update (i - List.length a) x b.
Proof.
  revert i. induction a as [|y a IH]; intros i H; cbn in *.
  - now rewrite Nat.sub_0_r.
  - destruct i as [|i]; [lia|]. cbn. f_equal. apply IH. lia.
Qed.

Lemma model_set_at (m : Model) (i : nat) (v : R) :
  NoDup (modeling.parameter_names m) -> (i < modeling.full_size m)%nat ->
  modeling.set_parameter m (nth i (modeling.parameter_names m) ""%string) v =
  Ok (modeling.set_dirty
        (with_parameters m (modeling.update i v (parameters m))) true).
Proof.
  intros Hnd Hi. unfold modeling.set_parameter.
  now rewrite (index_of_nth _ i Hnd Hi).
Qed.

Lemma set_parameter_at (gp : GP) (i : nat) (v : R) :
  proper gp -> (i < full_size gp)%nat ->
  exists gp',
    set_parameter (nth i (parameter_names gp) ""%string) v gp = (Ok None, gp') /\
    all_parameters gp' = modeling.update i v (all_parameters gp) /\
    unfrozen_mask gp' = unfrozen_mask gp /\
    parameter_names gp' = parameter_names gp /\
    dirty gp' = true /\
    proper gp'.
Proof.
  intros Hp Hi. unfold set_parameter.
  rewrite (bind_ok _ _ _ _ _ (set_dirty_true gp)).
  destruct (locate gp i Hp Hi) as [(H1 & -> & _)|[(H1 & H2 & -> & _)|(H1 & H2 & -> & _)]];
    destruct Hp as (((Pm & Mm) & Nm) & ((Pn & Mn) & Nn) & ((Pk & Mk) & Nk)).
  - rewrite dispatch_mean. unfold call_method. cbn [mean].
    pose proof (model_set_at (modeling.set_dirty (mean gp) true) i v Nm H1) as E.
    cbn -[modeling.set_parameter modeling.update] in E. rewrite E. clear E.
    eexists. split; [reflexivity|]. cbn.
    split; [|repeat split; cbn; try assumption; now rewrite ?length_update].
    unfold all_parameters. symmetry. apply update_app1. now rewrite Pm.
  - rewrite dispatch_log_white_noise. unfold call_method. cbn [log_white_noise].
    pose proof (model_set_at (modeling.set_dirty (log_white_noise gp) true) _ v Nn H2) as E.
    cbn -[modeling.set_parameter modeling.update] in E. rewrite E. clear E.
    eexists. split; [reflexivity|]. cbn.
    split; [|repeat split; cbn; try assumption; now rewrite ?length_update].
    unfold all_parameters. symmetry.
    rewrite update_app2 by (now rewrite Pm). rewrite Pm.
    f_equal. apply update_app1. now rewrite Pn.
  - rewrite dispatch_kernel. unfold call_method. cbn [kernel base with_base].
    pose proof (model_set_at (modeling.set_dirty (base (kernel gp)) true) _ v Nk H2) as E.
    cbn -[modeling.set_parameter modeling.update] in E. rewrite E. clear E.
    eexists. split; [reflexivity|]. cbn.
    split; [|repeat split; cbn; try assumption; now rewrite ?length_update].
    unfold all_parameters. symmetry.
    rewrite update_app2 by (rewrite Pm; lia). rewrite Pm.
    f_equal.
    rewrite update_app2
      by (rewrite Pn; unfold modeling.full_size in *; lia).
    rewrite Pn. reflexivity.
Qed.

(** X12: [set_parameter] writes one parameter.  For well-formed sub-models
    without duplicate names and every position [i] below [full_size],
    [set_parameter] called with the [i]-th entry of [parameter_names] returns,
    replaces the [i]-th parameter of the composite and no other, keeps the
    mask and the names, leaves the object dirty, and a [get_parameter] with
    the same name then returns the value written. *)
Theorem set_parameter_writes_one (gp : GP) (i : nat) (v : R) :
  proper gp -> (i < full_size gp)%nat ->
  let name := nth i (parameter_names gp) ""%string in
  let gp' := snd (set_parameter name v gp) in
  fst (set_parameter name v gp) = Ok None /\
  all_parameters gp' = modeling.update i v (all_parameters gp) /\
  unfrozen_mask gp' = unfrozen_mask gp /\
  parameter_names gp' = parameter_names gp /\
  dirty gp' = true /\
  get_parameter name gp' = (Ok (Some v), gp').
Proof.
  intros Hp Hi name gp'.
  destruct (set_parameter_at gp i v Hp Hi) as (g & E & Ha & Hm & Hn & Hd & Hp').
  subst gp' name. rewrite E. cbn [fst snd].
  repeat split; try assumption.
  assert (Hi' : (i < full_size g)%nat).
  { unfold full_size in *. unfold modeling.full_size in *.
    assert (L : List.length (parameter_names g) = List.length (parameter_names gp))
      by now rewrite Hn.
    unfold parameter_names in L. rewrite !length_app, !length_map in L. lia. }
  pose proof (get_parameter_at g i Hp' Hi') as G.
  rewrite Hn, Ha in G. rewrite G. do 3 f_equal.
  apply nth_update.
  destruct Hp as (((Pm & _) & _) & ((Pn & _) & _) & ((Pk & _) & _)).
  unfold all_parameters. rewrite !length_app, Pm, Pn, Pk.
  unfold full_size in Hi. lia.
Qed.

Lemma set_parameter_writes_one_witness :
  all_parameters (snd (set_parameter "kernel:a" 9 (examples.gp_of 7 1 0))) =
  [1; 0; 9].
Proof.
  apply (set_parameter_writes_one (examples.gp_of 7 1 0) 2 9).
  - repeat split; repeat constructor; cbn; intuition discriminate.
  - cbn. lia.
Defined.

(** ** Attributes that are read have been assigned *)

(* the errors of the numpy fragment are numpy's own *)
Lemma fill_vec_error (n : nat) (src : list R) (e : exn) :
  np.fill_vec n src = Raise e -> unassigned e = false.
Proof.
  unfold np.fill_vec.
  destruct (_ =? n)%nat; [discriminate|].
  destruct (_ =? 1)%nat; [discriminate|]. now intros [= <-].
Qed.

Lemma fill_rows_error (a src : list (list R)) (r : res (list R)) (e : exn) :
  In r (np.fill_rows a src) -> r = Raise e -> unassigned e = false.
Proof.
  revert src. induction a as [|x a IH]; intros src Hin Hr; [contradiction|].
  destruct src as [|y src]; [contradiction|]. destruct Hin as [<-|Hin].
  - now apply fill_vec_error in Hr.
  - eauto.
Qed.

Lemma fill_error (a src : ndarray) (e : exn) :
  np.fill a src = Raise e -> unassigned e = false.
Proof.
  assert (Hmap : forall (g : list R -> res (list R)) (l : list (list R)) e',
            (forall r e'', g r = Raise e'' -> unassigned e'' = false) ->
            res_all (List.map g l) = Raise e' -> unassigned e' = false).
  { intros g l e' Hg. apply (res_all_error _ _ (fun x => unassigned x = false)).
    intros r e'' Hin Hr. apply in_map_iff in Hin as (x & <- & _). eauto. }
  destruct a as [x|u|m], src as [y|s|rows]; cbn; try discriminate;
    try (now intros [= <-]).
  - destruct (np.fill_vec _ s) eqn:E; [discriminate|].
    intros [= <-]. now apply fill_vec_error in E.
  - destruct rows as [|s [|s' rows]]; try (now intros [= <-]).
    destruct (np.fill_vec _ s) eqn:E; [discriminate|].
    intros [= <-]. now apply fill_vec_error in E.
  - destruct (res_all _) eqn:E; [discriminate|]. intros [= <-].
    eapply Hmap; [|exact E]. intros r e'. apply fill_vec_error.
  - destruct (_ =? _)%nat.
    + destruct (res_all _) eqn:E; [discriminate|]. intros [= <-].
      apply (res_all_error _ _ (fun x => unassigned x = false)) in E; [exact E|].
      intros r e'. apply fill_rows_error.
    + destruct (_ =? 1)%nat; [|now intros [= <-]].
      destruct (res_all _) eqn:E; [discriminate|]. intros [= <-].
      eapply Hmap; [|exact E]. intros r e'. apply fill_vec_error.
Qed.

Lemma add_error (a b : ndarray) (e : exn) :
  np.add a b = Raise e -> unassigned e = false.
Proof. intros H. now apply binop_error in H as ->. Qed.

Lemma sub_error (a b : ndarray) (e : exn) :
  np.sub a b = Raise e -> unassigned e = false.
Proof. intros H. now apply binop_error in H as ->. Qed.

Lemma mul_error (a b : ndarray) (e : exn) :
  np.mul a b = Raise e -> unassigned e = false.
Proof. intros H. now apply binop_error in H as ->. Qed.

Lemma len_error (a : ndarray) (e : exn) :
  np.len a = Raise e -> unassigned e = false.
Proof. destruct a; cbn; try discriminate. now intros [= <-]. Qed.

Lemma outer_sub_error (a b : ndarray) (e : exn) :
  np.outer_sub a b = Raise e -> unassigned e = false.
Proof. destruct a, b; cbn; try discriminate; now intros [= <-]. Qed.

Lemma add_diag_error (K d : ndarray) (e : exn) :
  np.add_diag K d = Raise e -> unassigned e = false.
Proof.
  destruct K as [x|u|rows]; cbn; try (now intros [= <-]).
  destruct (np.square rows); [|now intros [= <-]].
  destruct d as [y|v|m]; try discriminate; try (now intros [= <-]).
  destruct (np.fill_vec _ v); [discriminate | now intros [= <-]].
Qed.

Lemma dot_error (a b : ndarray) (e : exn) :
  np.dot a b = Raise e -> unassigned e = false.
Proof.
  destruct a, b; cbn; try discriminate;
    match goal with |- context [if ?c then _ else _] => destruct c end;
    try discriminate; now intros [= <-].
Qed.

Lemma sum_axis0_error (a : ndarray) (e : exn) :
  np.sum_axis0 a = Raise e -> unassigned e = false.
Proof. destruct a; cbn; try discriminate. now intros [= <-]. Qed.

Lemma set_parameter_vector_error (m : Model) (v : list R) (e : exn) :
  modeling.set_parameter_vector m v = Raise e -> unassigned e = false.
Proof.
  unfold modeling.set_parameter_vector.
  destruct (_ =? _)%nat; [discriminate | now intros [= <-]].
Qed.

Lemma call_method_error (f : func) (m : Model) (name : string) (e : exn) :
  call_method f m name = Raise e -> unassigned e = false.
Proof.
  destruct f; cbn;
    unfold modeling.freeze_parameter, modeling.thaw_parameter,
           modeling.get_parameter, modeling.set_parameter;
    destruct (index_of name _); try discriminate; now intros [= <-].
Qed.

Create HintDb numpy_errors.
#[local] Hint Resolve fill_error add_error sub_error mul_error len_error
  outer_sub_error add_diag_error dot_error sum_axis0_error
  set_parameter_vector_error call_method_error : numpy_errors.

Lemma standing_weaken (b s b' s' : bool) (gp : GP) :
  (b' = true -> b = true) -> (s' = true -> s = true) ->
  standing b s gp -> standing b' s' gp.
Proof. intros Hb Hs (H1 & H2 & H3 & H4). repeat split; auto. Qed.

Lemma standing_bound (b s : bool) (gp : GP) :
  standing b s gp -> _t gp <> None -> standing true s gp.
Proof. intros (H1 & H2 & H3 & H4) Ht. repeat split; auto. Qed.

(* [compute] assigns what it reads; where it returns, the coordinates are
   bound and the solver exists *)
Lemma compute_standing (junk : R) (b s : bool) (t yerr : ndarray)
    (check_sorted : bool) (gp : GP) :
  standing b s gp ->
  match compute junk t yerr check_sorted gp with
  | (Ok _, g) => standing true true g
  | (Raise e, g) => unassigned e = false /\ standing b s g
  end.
Proof.
  intros H. rewrite compute_cases. cbv zeta.
  destruct (check_sorted && decreases _); [now split|].
  destruct (check_sorted && (1 <? _)%nat); [now split|].
  destruct H as (H1 & H2 & H3 & H4).
  destruct (np.fill _ yerr) as [filled|e] eqn:Ef.
  - unfold diag_of. destruct (np.add _ _) as [diag|e] eqn:Ed.
    + repeat split; cbn; congruence.
    + split; [eauto with numpy_errors|].
      repeat split; cbn; try congruence; intros; destruct (solver gp); congruence.
  - split; [eauto with numpy_errors|].
    repeat split; cbn; auto; congruence.
Qed.

Lemma recompute_standing (junk : R) (b s : bool) (gp : GP) :
  standing b s gp ->
  match _recompute junk gp with
  | (Ok _, g) => standing b true g
  | (Raise e, g) => unassigned e = false /\ standing b s g
  end.
Proof.
  intros H. unfold _recompute, bind, get, when. cbn [fst snd].
  destruct (dirty gp) eqn:Hd.
  - destruct (_t gp) as [t|] eqn:Ht; [|now split].
    destruct (_yerr gp) as [yerr|] eqn:Hy.
    + cbn [attr ret].
      pose proof (compute_standing junk b s t yerr false gp H) as Hc.
      destruct (compute junk t yerr false gp) as [[u|e] g]; [|exact Hc].
      revert Hc. apply standing_weaken; auto.
    + exfalso. destruct H as (H1 & _). apply H1; congruence.
  - cbn [ret]. destruct H as (H1 & H2 & H3 & H4).
    assert (Hc : _computed gp = true).
    { unfold dirty in Hd. apply orb_false_elim in Hd as [_ Hd].
      now apply negb_false_iff in Hd. }
    repeat split; auto.
Qed.

Lemma standing_compute (junk : R) (b s : bool) (t yerr : ndarray)
    (check_sorted : bool) :
  preserves (standing b s) (compute junk t yerr check_sorted).
Proof.
  intros gp H. pose proof (compute_standing junk b s t yerr check_sorted gp H) as Hc.
  destruct (compute junk t yerr check_sorted gp) as [[u|e] g]; cbn [snd].
  - revert Hc. apply standing_weaken; auto.
  - apply Hc.
Qed.

Lemma standing__recompute (junk : R) (b s : bool) :
  preserves (standing b s) (_recompute junk).
Proof.
  intros gp H. pose proof (recompute_standing junk b s gp H) as Hc.
  destruct (_recompute junk gp) as [[u|e] g]; cbn [snd].
  - revert Hc. apply standing_weaken; auto.
  - apply Hc.
Qed.

Lemma standing_set_dirty (b s : bool) : preserves (standing b s) (set_dirty true).
Proof.
  intros gp (H1 & H2 & H3 & H4). rewrite set_dirty_true.
  repeat split; cbn; auto. discriminate.
Qed.

Section Standing.

Variable ops : solver.Ops.
Variable junk : R.

(* every call keeps what it may read assigned *)
Lemma exec_standing (b s : bool) (c : call) (gp : GP) :
  standing b s gp -> standing b s (exec ops junk c gp).
Proof.
  pose proof (standing__recompute junk b s) as Hr.
  assert (Hm : forall m, preserves (standing b s) (set_mean m))
    by (intros m g H; exact H).
  assert (Hn : forall m, preserves (standing b s) (set_log_white_noise m))
    by (intros m g H; exact H).
  assert (Hk : forall k, preserves (standing b s) (set_kernel k))
    by (intros k g H; exact H).
  destruct c; cbn [exec].
  - apply standing_compute.
  - now apply preserves_log_likelihood.
  - now apply preserves_apply_inverse.
  - now apply preserves_dot.
  - now apply preserves_predict.
  - now apply preserves_get_matrix.
  - apply standing_set_dirty.
  - unfold set_parameter_vector. preserve.
  - unfold _apply_to_parameter.
    apply preserves_bind; [apply preserves_get | intros g].
    destruct (prefix "mean:" name); [preserve|].
    destruct (prefix "log_white_noise:" name); [preserve|].
    destruct (prefix "kernel:" name); preserve.
  - unfold freeze_all_parameters. preserve.
  - unfold thaw_all_parameters. preserve.
  - unfold set_parameter.
    apply preserves_bind; [apply standing_set_dirty | intros _].
    unfold _apply_to_parameter.
    apply preserves_bind; [apply preserves_get | intros g].
    destruct (prefix "mean:" name); [preserve|].
    destruct (prefix "log_white_noise:" name); [preserve|].
    destruct (prefix "kernel:" name); preserve.
Qed.

Lemma run_standing (b s : bool) (history : list call) (gp : GP) :
  standing b s gp -> standing b s (run ops junk history gp).
Proof.
  revert gp. induction history as [|c history IH]; intros gp H; [exact H|].
  cbn [run fold_left]. apply IH. now apply exec_standing.
Qed.

Lemma init_standing kernel mean fit_mean noise fit_white_noise :
  standing false false (__init__ kernel mean fit_mean noise fit_white_noise).
Proof. repeat split; cbn; intros; congruence. Qed.

End Standing.

Section Quiet.

Variable ops : solver.Ops.
Variable junk : R.

Context {A B : Type}.
Variable k : A -> M B.
Variable gp : GP.

Lemma quiet_bind (m : M A) :
  quiet m gp -> (forall a g, m gp = (Ok a, g) -> quiet (k a) g) ->
  quiet (bind m k) gp.
Proof.
  unfold quiet, bind. destruct (m gp) as [[a|e] g]; cbn [fst]; intros H K;
    [exact (K a g eq_refl) | exact H].
Qed.

Lemma quiet_assoc {C} (m : M C) (h : C -> M A) :
  quiet (bind m (fun c => bind (h c) k)) gp -> quiet (bind (bind m h) k) gp.
Proof. unfold quiet. now rewrite bind_assoc. Qed.

Lemma quiet_ret (a : A) : quiet (k a) gp -> quiet (bind (ret a) k) gp.
Proof. intros H. exact H. Qed.

Lemma quiet_raise (e : exn) : unassigned e = false -> quiet (bind (raise e) k) gp.
Proof. intros H. exact H. Qed.

Lemma quiet_lift (r : res A) :
  (forall e, r = Raise e -> unassigned e = false) ->
  (forall a, r = Ok a -> quiet (k a) gp) ->
  quiet (bind (lift r) k) gp.
Proof.
  intros He Ha. unfold quiet, bind, lift in *. destruct r as [a|e]; cbn [fst].
  - exact (Ha a eq_refl).
  - exact (He e eq_refl).
Qed.

Lemma quiet_unit (m : M B) : quiet (bind m ret) gp -> quiet m gp.
Proof. unfold quiet, bind. now destruct (m gp) as [[a|e] g]. Qed.

Lemma quiet_lift_end (r : res B) :
  (forall e, r = Raise e -> unassigned e = false) -> quiet (lift r) gp.
Proof. intros He. unfold quiet, lift. destruct r as [a|e]; cbn; auto. Qed.

Lemma quiet_attr (name : string) (o : option A) :
  o <> None -> (forall a, quiet (k a) gp) -> quiet (bind (attr name o) k) gp.
Proof.
  intros Ho Ha. destruct o as [a|]; [exact (Ha a) | contradiction].
Qed.

End Quiet.

Section QuietCalls.

Variable ops : solver.Ops.
Variable junk : R.

Context {B : Type}.
Variable gp : GP.

Lemma quiet_get (k : GP -> M B) : quiet (k gp) gp -> quiet (bind get k) gp.
Proof. intros H. exact H. Qed.

Lemma quiet_when (c : bool) (e : exn) (k : unit -> M B) :
  unassigned e = false -> quiet (k tt) gp -> quiet (bind (when c (raise e)) k) gp.
Proof. intros He H. destruct c; [exact He | exact H]. Qed.

Lemma quiet_coords (s : bool) (k : ndarray -> M B) :
  standing true s gp -> (forall t, quiet (k t) gp) -> quiet (bind coords k) gp.
Proof.
  intros (_ & _ & Ht & _) H. specialize (Ht eq_refl).
  destruct (_t gp) as [t|] eqn:E; [|contradiction].
  unfold quiet. rewrite (bind_ok _ _ _ _ _ (coords_bound gp t E)). exact (H t).
Qed.

Lemma quiet_solver (b : bool) (k : solver.Solver -> M B) :
  standing b true gp -> (forall s, quiet (k s) gp) ->
  quiet (bind (attr "solver" (solver gp)) k) gp.
Proof. intros (_ & _ & _ & Hs) H. apply quiet_attr; auto. Qed.

Lemma quiet__process_input (b s : bool) (y : ndarray) (k : ndarray -> M B) :
  standing b s gp -> (standing true s gp -> quiet (k y) gp) ->
  quiet (bind (_process_input y) k) gp.
Proof.
  intros H Hk. unfold quiet.
  rewrite (bind_closed _ _ _ _ _ (process_input_closed y gp)).
  unfold check_input.
  destruct (_t gp) as [t|] eqn:Ht; [|reflexivity].
  assert (H' : standing true s gp)
    by (apply (standing_bound b); [exact H | congruence]).
  destruct (np.len t) as [n|e] eqn:En; [|cbn; eauto with numpy_errors].
  destruct (np.len y) as [m|e] eqn:Em; [|cbn; eauto with numpy_errors].
  destruct (negb (n =? m)%nat); [reflexivity | exact (Hk H')].
Qed.

Lemma quiet__recompute (b s : bool) (k : unit -> M B) :
  standing b s gp -> (forall g, standing b true g -> quiet (k tt) g) ->
  quiet (bind (_recompute junk) k) gp.
Proof.
  intros H Hk. pose proof (recompute_standing junk b s gp H) as Hr.
  unfold quiet, bind.
  destruct (_recompute junk gp) as [[[]|e] g]; cbn [fst];
    [exact (Hk g Hr) | apply Hr].
Qed.

Lemma quiet__get_diag (s : bool) (k : ndarray -> M B) :
  standing true s gp -> (forall d, quiet (k d) gp) ->
  quiet (bind _get_diag k) gp.
Proof.
  intros H Hk. unfold _get_diag. apply quiet_assoc, quiet_get.
  destruct H as (Hy & Hc & Ht & Hs). specialize (Ht eq_refl).
  apply quiet_assoc, quiet_attr; [auto | intros yerr].
  apply quiet_assoc, (quiet_coords s); [repeat split; auto | intros t].
  apply quiet_lift; [eauto with numpy_errors | intros d _; apply Hk].
Qed.

End QuietCalls.

Ltac forget_standing :=
  repeat match goal with H : standing _ _ _ |- _ => clear H end.

Ltac quiet_step :=
  lazymatch goal with
  | |- quiet (bind (bind _ _) _) _ => apply quiet_assoc
  | |- quiet (bind get _) _ => apply quiet_get
  | |- quiet (bind (ret _) _) _ => apply quiet_ret
  | |- quiet (bind (raise _) _) _ => apply quiet_raise; reflexivity
  | |- quiet (bind (lift _) _) _ =>
      apply quiet_lift; [solve [eauto with numpy_errors] | intros ? _]
  | |- quiet (bind (when _ (raise _)) _) _ => apply quiet_when; [reflexivity|]
  | |- quiet (bind coords _) _ => eapply quiet_coords; [eassumption | intros ?]
  | |- quiet (bind (attr "solver" (solver _)) _) _ =>
      eapply quiet_solver; [eassumption | intros ?]
  | |- quiet (bind (_process_input _) _) _ =>
      eapply quiet__process_input; [eassumption | forget_standing; intros ?]
  | |- quiet (bind (_recompute _) _) _ =>
      eapply quiet__recompute; [eassumption | forget_standing; intros ? ?]
  | |- quiet (bind _get_diag _) _ =>
      eapply quiet__get_diag; [eassumption | intros ?]
  | |- quiet (bind (match ?x with _ => _ end) _) _ => destruct x
  | |- quiet (match ?x with _ => _ end) _ => destruct x
  | |- quiet (ret _) _ => exact I
  | |- quiet (raise _) _ => reflexivity
  | |- quiet (lift _) _ => apply quiet_lift_end; solve [eauto with numpy_errors]
  end.

Section QuietMethods.

Variable ops : solver.Ops.
Variable junk : R.
Variable gp : GP.
Variables b s : bool.
Hypothesis H : standing b s gp.

Lemma compute_quiet t yerr check_sorted : quiet (compute junk t yerr check_sorted) gp.
Proof.
  pose proof (compute_standing junk b s t yerr check_sorted gp H) as Hc.
  unfold quiet. destruct (compute junk t yerr check_sorted gp) as [[u|e] g];
    [exact I | apply Hc].
Qed.

Lemma recompute_quiet : quiet (_recompute junk) gp.
Proof.
  pose proof (recompute_standing junk b s gp H) as Hc.
  unfold quiet. destruct (_recompute junk gp) as [[u|e] g]; [exact I | apply Hc].
Qed.

Lemma get_matrix_quiet x1 x2 include_diagonal :
  quiet (get_matrix x1 x2 include_diagonal) gp.
Proof.
  unfold get_matrix. destruct x1 as [x1'|], x2 as [x2'|]; cbv zeta;
    try (repeat quiet_step; fail).
  apply quiet_get. destruct (_t gp) as [t|] eqn:Ht; [|reflexivity].
  assert (H' : standing true s gp)
    by (apply (standing_bound b); [exact H | congruence]).
  repeat quiet_step.
Qed.

Lemma apply_inverse_quiet y : quiet (apply_inverse ops junk y) gp.
Proof. unfold apply_inverse. repeat quiet_step. Qed.

End QuietMethods.

Section QuietQueries.

Variable ops : solver.Ops.
Variable junk : R.

Context {B : Type}.
Variable gp : GP.
Variables b s : bool.
Hypothesis H : standing b s gp.

Lemma quiet_get_matrix x1 x2 include_diagonal (k : ndarray -> M B) :
  (forall K, quiet (k K) gp) ->
  quiet (bind (get_matrix x1 x2 include_diagonal) k) gp.
Proof.
  intros Hk. apply quiet_bind; [exact (get_matrix_quiet gp b s H _ _ _)|].
  intros K g E.
  pose proof (preserves_get_matrix (fun g' => g' = gp) x1 x2 include_diagonal
                gp eq_refl) as Hg.
  rewrite E in Hg. cbn [snd] in Hg. subst g. apply Hk.
Qed.

Lemma quiet_apply_inverse y (k : ndarray -> M B) :
  (forall a g, standing b true g -> quiet (k a) g) ->
  quiet (bind (apply_inverse ops junk y) k) gp.
Proof.
  intros Hk. apply quiet_bind; [exact (apply_inverse_quiet ops junk gp b s H y)|].
  intros a g E. apply Hk.
  pose proof (recompute_standing junk b s gp H) as Hc.
  unfold apply_inverse in E. unfold bind at 1 in E.
  destruct (_recompute junk gp) as [[[]|e] g0]; [|discriminate E].
  assert (Hrest : preserves (standing b true)
            (gp0 <- get ;; s0 <- attr "solver" (solver gp0) ;;
             y0 <- _process_input y ;; ret (solver.solve ops s0 y0))%gp).
  { pose proof (preserves__process_input (standing b true)). preserve. }
  specialize (Hrest g0 Hc). rewrite E in Hrest. exact Hrest.
Qed.

End QuietQueries.

Ltac quiet_call :=
  first
    [ quiet_step
    | lazymatch goal with
      | |- quiet (bind (get_matrix _ _ _) _) _ =>
          eapply quiet_get_matrix; [eassumption | intros ?]
      | |- quiet (bind (apply_inverse _ _ _) _) _ =>
          eapply quiet_apply_inverse; [eassumption | forget_standing; intros ? ? ?]
      end ].

Section QuietInterface.

Variable ops : solver.Ops.
Variable junk : R.
Variable gp : GP.
Variables b s : bool.
Hypothesis H : standing b s gp.

Lemma log_likelihood_quiet y c : quiet (log_likelihood ops junk y c) gp.
Proof. unfold log_likelihood. repeat quiet_step. Qed.

Lemma dot_quiet y : quiet (dot ops junk y) gp.
Proof. unfold dot. repeat quiet_step. Qed.

Lemma predict_quiet y t return_cov return_var :
  quiet (predict ops junk y t return_cov return_var) gp.
Proof. unfold predict. repeat quiet_call. Qed.

End QuietInterface.

Lemma set_parameter_vector_quiet (v : list R) (gp : GP) :
  quiet (set_parameter_vector v) gp.
Proof.
  unfold set_parameter_vector, quiet. run_monad.
  repeat match goal with
         | |- context [modeling.set_parameter_vector ?m ?v] =>
             let E := fresh "E" in
             destruct (modeling.set_parameter_vector m v) eqn:E; cbn;
             [|eauto with numpy_errors]
         end.
  exact I.
Qed.

Lemma apply_to_parameter_quiet (f : func) (name : string) (gp : GP) :
  quiet (_apply_to_parameter f name) gp.
Proof.
  unfold _apply_to_parameter, quiet. run_monad.
  repeat match goal with
         | |- context [if ?c then _ else _] => destruct c; cbn
         end;
    try reflexivity;
    match goal with
    | |- context [call_method ?f ?m ?n] =>
        let E := fresh "E" in
        destruct (call_method f m n) eqn:E; cbn; [exact I | eauto with numpy_errors]
    end.
Qed.

Lemma set_parameter_quiet (name : string) (value : R) (gp : GP) :
  quiet (set_parameter name value) gp.
Proof.
  unfold set_parameter. apply quiet_bind; [exact I|].
  intros a g _. apply apply_to_parameter_quiet.
Qed.

(** X13: no call fails on an attribute that was never assigned.  The
    constructor leaves [_yerr] unassigned and [solver] at [None], and the
    methods read [_yerr], [_t] and the solver without a test of their own.
    Yet in every state that the calls of the interface ([compute], the
    queries, [gp.dirty = True] and the parameter bus, in any order and
    whether they return or raise) reach from the constructor, whatever a
    call raises is not an [AttributeError], and not the failure of [None]
    standing where the coordinates are needed.  The reason is that [compute]
    assigns [_yerr] right after [_t] and creates the solver before it sets
    the flag, and that every query tests [_t] or the flag first.  (The
    assignment [gp.dirty = False] is not among the calls, and the solver's
    numerical routines are total.) *)
Theorem no_read_before_assignment (ops : solver.Ops) (junk : R)
    (kernel : Kernel) (mean : R + Model) (fit_mean : bool)
    (log_white_noise : R + Model) (fit_white_noise : bool)
    (history : list call) (c : call) (e : exn) :
  raised ops junk c
    (run ops junk history
       (__init__ kernel mean fit_mean log_white_noise fit_white_noise)) = Some e ->
  unassigned e = false.
Proof.
  pose proof (run_standing ops junk false false history _
                (init_standing kernel mean fit_mean log_white_noise fit_white_noise))
    as H.
  set (gp := run ops junk history _) in *. clearbody gp.
  assert (Q : forall A (m : M A), quiet m gp -> error_of (fst (m gp)) = Some e ->
                unassigned e = false).
  { intros A m Hq. unfold quiet in Hq. destruct (fst (m gp)); [discriminate|].
    now intros [= <-]. }
  destruct c; cbn [raised]; apply Q.
  - now apply (compute_quiet junk gp false false).
  - now apply (log_likelihood_quiet ops junk gp false false).
  - now apply (apply_inverse_quiet ops junk gp false false).
  - now apply (dot_quiet ops junk gp false false).
  - now apply (predict_quiet ops junk gp false false).
  - now apply (get_matrix_quiet gp false false).
  - exact I.
  - apply set_parameter_vector_quiet.
  - apply apply_to_parameter_quiet.
  - exact I.
  - exact I.
  - apply set_parameter_quiet.
Qed.

Lemma no_read_before_assignment_witness :
  unassigned not_computed = false.
Proof.
  apply (no_read_before_assignment dense.ops 0
           (examples.constant_kernel 1) (inl 0) false (inl 0) false
           [set_parameter__ "kernel:a" 2] (log_likelihood_ (Arr1 [1]) 0)).
  reflexivity.
Defined.

(** ** Rejected arguments and the cache *)

Lemma process_input_wrong_length (gp : GP) (t y : list R) :
  _t gp = Some (Arr1 t) -> List.length y <> List.length t ->
  _process_input (Arr1 y) gp = (Raise dimension_mismatch, gp).
Proof.
  intros Ht Hy. rewrite process_input_closed, Ht. cbn.
  destruct (Nat.eqb_spec (List.length t) (List.length y)); [|reflexivity].
  exfalso. apply Hy. congruence.
Qed.

(** X14: whether a rejected argument costs a factorization depends on the
    method.  On a dirty object with bound one-dimensional coordinates [t] and
    as many uncertainties, a vector [y] of another length than [t] is
    rejected by all four queries with "dimension mismatch".  [log_likelihood]
    and [predict] check [y] first and leave the object as it was, still
    dirty; [apply_inverse] and [dot] recompute first, so they raise the same
    error but leave the object recomputed and clean. *)
Theorem rejected_input_and_cache (ops : solver.Ops) (junk : R) (gp : GP)
    (t yerr y : list R) :
  dirty gp = true ->
  _t gp = Some (Arr1 t) ->
  _yerr gp = Some (Arr1 yerr) ->
  List.length yerr = List.length t ->
  List.length y <> List.length t ->
  let gp' := snd (compute junk (Arr1 t) (Arr1 yerr) false gp) in
  (forall c, log_likelihood ops junk (Arr1 y) c gp = (Raise dimension_mismatch, gp)) /\
  (forall x return_cov return_var,
     predict ops junk (Arr1 y) x return_cov return_var gp =
     (Raise dimension_mismatch, gp)) /\
  apply_inverse ops junk (Arr1 y) gp = (Raise dimension_mismatch, gp') /\
  dot ops junk (Arr1 y) gp = (Raise dimension_mismatch, gp') /\
  dirty gp' = false.
Proof.
  intros Hd Ht Hye Hl Hy gp'.
  pose proof (lazy__recompute junk gp t yerr Hd Ht Hye Hl) as Hr.
  pose proof (lazy_t junk gp t yerr Hl) as Ht'.
  fold gp' in Hr, Ht'.
  assert (Hs : exists s, solver gp' = Some s).
  { unfold gp'. rewrite (compute_vector junk t yerr gp Hl). cbn. eauto. }
  destruct Hs as [s Hs].
  split; [|split; [|split; [|split]]].
  - intros c. unfold log_likelihood.
    apply bind_raise, (process_input_wrong_length _ t); assumption.
  - intros x rc rv. unfold predict.
    apply bind_raise, (process_input_wrong_length _ t); assumption.
  - unfold apply_inverse. step Hr. step_get. rewrite Hs. cbn [attr]. step_ret.
    apply bind_raise, (process_input_wrong_length _ t); assumption.
  - unfold dot. step Hr. step_get. rewrite Hs. cbn [attr]. step_ret.
    apply bind_raise, (process_input_wrong_length _ t); assumption.
  - unfold gp'. now rewrite (compute_vector junk t yerr gp Hl).
Qed.

Lemma rejected_input_and_cache_witness :
  let gp := snd (set_parameter "kernel:a" 2 examples.noisy_gp) in
  apply_inverse dense.ops 0 (Arr1 [1; 2]) gp =
  (Raise dimension_mismatch, snd (compute 0 (Arr1 [0]) (Arr1 [1]) false gp)).
Proof.
  refine (proj1 (proj2 (proj2
            (rejected_input_and_cache dense.ops 0
               (snd (set_parameter "kernel:a" 2 examples.noisy_gp)) [0] [1] [1; 2]
               eq_refl eq_refl eq_refl eq_refl _)))).
  cbn. lia.
Defined.

(** ** The composite as a parameterized component *)

Lemma count_true_app (m1 m2 : list bool) :
  count_true (m1 ++ m2) = (count_true m1 + count_true m2)%nat.
Proof. induction m1 as [|b m1 IH]; cbn; [reflexivity | rewrite IH; lia]. Qed.

Lemma count_true_le (m : list bool) : (count_true m <= List.length m)%nat.
Proof. induction m as [|[] m IH]; cbn; lia. Qed.

(** X15: the composite keeps the protocol of its parts.  When the mean, the
    white-noise model and the kernel each hold one value and one mask bit
    per name, so does the [GP]: [parameter_vector] lists every value, frozen
    or not (mean, then white noise, then kernel), and has [full_size]
    entries, as have [unfrozen_mask] and [parameter_names]; [vector_size]
    counts the set bits of the mask and is at most [full_size]. *)
Theorem composite_protocol (gp : GP) :
  well_formed (mean gp) ->
  well_formed (log_white_noise gp) ->
  well_formed (base (kernel gp)) ->
  parameter_vector gp = all_parameters gp /\
  List.length (parameter_vector gp) = full_size gp /\
  List.length (unfrozen_mask gp) = full_size gp /\
  List.length (parameter_names gp) = full_size gp /\
  vector_size gp = count_true (unfrozen_mask gp) /\
  (vector_size gp <= full_size gp)%nat.
Proof.
  intros [Pm Mm] [Pn Mn] [Pk Mk].
  assert (Hm : List.length (unfrozen_mask gp) = full_size gp).
  { unfold unfrozen_mask, full_size. rewrite !length_app. lia. }
  assert (Hc : vector_size gp = count_true (unfrozen_mask gp)).
  { unfold vector_size, unfrozen_mask, modeling.vector_size.
    rewrite !count_true_app. lia. }
  repeat split.
  - unfold parameter_vector, modeling.parameter_vector, full_size.
    rewrite !length_app. lia.
  - exact Hm.
  - unfold parameter_names, full_size, modeling.full_size.
    rewrite !length_app, !length_map. lia.
  - exact Hc.
  - rewrite Hc, <- Hm. apply count_true_le.
Qed.

Lemma composite_protocol_witness :
  List.length (parameter_vector (examples.gp_of 7 1 0)) =
    full_size (examples.gp_of 7 1 0) /\
  (vector_size (examples.gp_of 7 1 0) <= full_size (examples.gp_of 7 1 0))%nat.
Proof.
  destruct (composite_protocol (examples.gp_of 7 1 0)) as (_ & H1 & _ & _ & _ & H2);
    try (split; reflexivity).
  split; [exact H1 | exact H2].
Defined.

(** ** Freezing and thawing *)

Lemma count_true_none (l : list bool) :
  count_true (List.map (fun _ => false) l) = 0%nat.
Proof. induction l as [|b l IH]; cbn; auto. Qed.

Lemma count_true_every (l : list bool) :
  count_true (List.map (fun _ => true) l) = List.length l.
Proof. induction l as [|b l IH]; cbn; auto. Qed.

(** X16: [freeze_all_parameters] clears the mask and changes nothing else.
    In any state the call returns; afterwards every bit of [unfrozen_mask]
    is off and [vector_size] is 0, while [parameter_vector] still lists
    every value, and the names, the [dirty] property, the cache flag, the
    solver and the bound data are what they were: the object is not marked
    dirty.  [thaw_all_parameters] after it gives the state that
    [thaw_all_parameters] alone gives. *)
Theorem freeze_all_clears_mask (gp : GP) :
  let f := snd (freeze_all_parameters gp) in
  fst (freeze_all_parameters gp) = Ok tt /\
  unfrozen_mask f = List.map (fun _ => false) (unfrozen_mask gp) /\
  vector_size f = 0%nat /\
  parameter_vector f = parameter_vector gp /\
  parameter_names f = parameter_names gp /\
  dirty f = dirty gp /\
  (solver f, _computed f, _t f, _yerr f) = (solver gp, _computed gp, _t gp, _yerr gp) /\
  snd (thaw_all_parameters f) = snd (thaw_all_parameters gp).
Proof.
  cbv zeta. repeat split.
  - unfold unfrozen_mask. cbn. now rewrite !List.map_app.
  - unfold vector_size, modeling.vector_size. cbn. now rewrite !count_true_none.
  - cbn. unfold modeling.thaw_all_parameters, with_base, with_mask. cbn.
    now rewrite !List.map_map.
Qed.

(** X17: after [thaw_all_parameters] the whole parameter list can be
    assigned.  For well-formed sub-models the call returns without marking
    the object dirty, [vector_size] becomes [full_size] and
    [parameter_vector] lists every value; then every [v] with [full_size]
    entries is accepted by the setter of [parameter_vector], becomes the
    list of all values, is read back unchanged, and the object is dirty. *)
Theorem thaw_all_then_assign (gp : GP) (v : list R) :
  well_formed (mean gp) ->
  well_formed (log_white_noise gp) ->
  well_formed (base (kernel gp)) ->
  List.length v = full_size gp ->
  let th := snd (thaw_all_parameters gp) in
  let gp' := snd (set_parameter_vector v th) in
  fst (thaw_all_parameters gp) = Ok tt /\
  vector_size th = full_size gp /\
  parameter_vector th = all_parameters gp /\
  dirty th = dirty gp /\
  fst (set_parameter_vector v th) = Ok tt /\
  all_parameters gp' = v /\
  parameter_vector gp' = v /\
  dirty gp' = true.
Proof.
  intros [Pm Mm] [Pn Mn] [Pk Mk] Hv th gp'.
  assert (Hth : List.length v = full_size th) by exact Hv.
  assert (Hparts : let i := modeling.full_size (mean th) in
                   let j := (i + modeling.full_size (log_white_noise th))%nat in
                   firstn i v ++ slice v i j ++ skipn j v = v)
    by (cbv zeta; apply slices_partition; lia).
  subst gp'. rewrite (set_parameter_vector_full th v Hth). cbn [fst snd].
  split; [reflexivity|].
  split.
  { unfold vector_size, modeling.vector_size, full_size. cbn.
    now rewrite !count_true_every, Mm, Mn, Mk. }
  repeat split; try exact Hparts.
Qed.

Lemma thaw_all_then_assign_witness :
  parameter_vector
    (snd (set_parameter_vector [4; 5; 6]
            (snd (thaw_all_parameters (examples.gp_of 7 1 0))))) = [4; 5; 6].
Proof.
  apply (thaw_all_then_assign (examples.gp_of 7 1 0) [4; 5; 6]);
    try (split; reflexivity); reflexivity.
Defined.

(* freezing or thawing the [i]-th name flips the [i]-th bit of the mask *)
Lemma mask_at (gp : GP) (i : nat) (b : bool) :
  proper gp -> (i < full_size gp)%nat ->
  exists gp',
    _apply_to_parameter (if b then thaw_parameter_ else freeze_parameter_)
      (nth i (parameter_names gp) ""%string) gp = (Ok None, gp') /\
    unfrozen_mask gp' = modeling.update i b (unfrozen_mask gp) /\
    all_parameters gp' = all_parameters gp /\
    parameter_names gp' = parameter_names gp /\
    dirty gp' = dirty gp.
Proof.
  intros Hp Hi.
  assert (Hcall : forall m j,
            NoDup (modeling.parameter_names m) -> (j < modeling.full_size m)%nat ->
            call_method (if b then thaw_parameter_ else freeze_parameter_) m
              (nth j (modeling.parameter_names m) ""%string) =
            Ok (with_mask m (modeling.update j b (modeling.unfrozen_mask m)), None)).
  { intros m j Hnd Hj.
    destruct b; cbn [call_method];
      unfold modeling.thaw_parameter, modeling.freeze_parameter;
      now rewrite (index_of_nth _ j Hnd Hj). }
  destruct (locate gp i Hp Hi) as [(H1 & -> & _)|[(H1 & H2 & -> & _)|(H1 & H2 & -> & _)]];
    destruct Hp as (((Pm & Mm) & Nm) & ((Pn & Mn) & Nn) & ((Pk & Mk) & Nk)).
  - rewrite dispatch_mean, (Hcall _ _ Nm H1).
    eexists. split; [reflexivity|]. cbn. repeat split.
    unfold unfrozen_mask. symmetry. apply update_app1. now rewrite Mm.
  - rewrite dispatch_log_white_noise, (Hcall _ _ Nn H2).
    eexists. split; [reflexivity|]. cbn. repeat split.
    unfold unfrozen_mask. symmetry.
    rewrite update_app2 by (now rewrite Mm). rewrite Mm.
    f_equal. apply update_app1. now rewrite Mn.
  - rewrite dispatch_kernel, (Hcall _ _ Nk H2).
    eexists. split; [reflexivity|]. cbn. repeat split.
    unfold unfrozen_mask. symmetry.
    rewrite update_app2 by (rewrite Mm; lia). rewrite Mm. f_equal.
    rewrite update_app2 by (rewrite Mn; unfold modeling.full_size in *; lia).
    now rewrite Mn.
Qed.

(** X18: [freeze_parameter] and [thaw_parameter] flip one bit of the mask.
    For well-formed sub-models without duplicate names and every position
    [i] below [full_size], called with the [i]-th entry of [parameter_names]
    they return, clear (set) the [i]-th bit of [unfrozen_mask] and no other,
    and keep the values, the names and the dirty flag: freezing or thawing
    does not invalidate the factorization. *)
Theorem freeze_thaw_by_name (gp : GP) (i : nat) :
  proper gp -> (i < full_size gp)%nat ->
  let name := nth i (parameter_names gp) ""%string in
  let f := snd (freeze_parameter name gp) in
  let th := snd (thaw_parameter name gp) in
  fst (freeze_parameter name gp) = Ok tt /\
  fst (thaw_parameter name gp) = Ok tt /\
  unfrozen_mask f = modeling.update i false (unfrozen_mask gp) /\
  unfrozen_mask th = modeling.update i true (unfrozen_mask gp) /\
  all_parameters f = all_parameters gp /\
  all_parameters th = all_parameters gp /\
  parameter_names f = parameter_names gp /\
  parameter_names th = parameter_names gp /\
  dirty f = dirty gp /\
  dirty th = dirty gp.
Proof.
  intros Hp Hi name f th.
  destruct (mask_at gp i false Hp Hi) as (g1 & E1 & M1 & A1 & N1 & D1).
  destruct (mask_at gp i true Hp Hi) as (g2 & E2 & M2 & A2 & N2 & D2).
  cbv beta iota in E1, E2. fold name in E1, E2.
  assert (Ef : freeze_parameter name gp = (Ok tt, g1))
    by (unfold freeze_parameter; now rewrite (bind_ok _ _ _ _ _ E1)).
  assert (Et : thaw_parameter name gp = (Ok tt, g2))
    by (unfold thaw_parameter; now rewrite (bind_ok _ _ _ _ _ E2)).
  subst f th. rewrite Ef, Et. cbn [fst snd]. repeat split; assumption.
Qed.

Lemma freeze_thaw_by_name_witness :
  unfrozen_mask (snd (freeze_parameter "kernel:a" (examples.gp_of 7 1 0))) =
  [false; false; false].
Proof.
  apply (freeze_thaw_by_name (examples.gp_of 7 1 0) 2).
  - repeat split; repeat constructor; cbn; intuition discriminate.
  - cbn. lia.
Defined.

(** ** Construction *)

(** X19: what the constructor exposes.  Whatever the kernel, and whether
    the mean and the white noise are given as numbers or as models, a new
    object holds the kernel untouched, has nothing bound and no solver, and
    is dirty; the sub-models keep their values and names, and
    [parameter_vector] lists the values of all three.  A sub-model that is
    not fitted (the default) has every parameter frozen and adds nothing to
    [vector_size], a fitted one keeps its mask: with both defaults
    [vector_size] is the kernel's own.  A number [mu] given as the mean is
    read back under the name ["mean:value"]. *)
Theorem init_exposes (kernel : Kernel) (mean noise : R + Model)
    (fit_mean fit_white_noise : bool) (mu : R) :
  let given := fun x : R + Model =>
                 match x with inl v => ConstantModel v | inr m => m end in
  let gp := __init__ kernel mean fit_mean noise fit_white_noise in
  let gp_mu := __init__ kernel (inl mu) fit_mean noise fit_white_noise in
  celerite.kernel gp = kernel /\
  (solver gp, _t gp, _yerr gp) = (None, None, None) /\
  dirty gp = true /\
  parameter_vector gp =
    parameters (given mean) ++ parameters (given noise) ++ parameters (base kernel) /\
  parameter_names gp =
    List.map (String.append "mean:") (modeling.parameter_names (given mean)) ++
    List.map (String.append "log_white_noise:")
      (modeling.parameter_names (given noise)) ++
    List.map (String.append "kernel:") (modeling.parameter_names (base kernel)) /\
  unfrozen_mask gp =
    (if fit_mean then modeling.unfrozen_mask (given mean)
     else List.map (fun _ => false) (modeling.unfrozen_mask (given mean))) ++
    (if fit_white_noise then modeling.unfrozen_mask (given noise)
     else List.map (fun _ => false) (modeling.unfrozen_mask (given noise))) ++
    modeling.unfrozen_mask (base kernel) /\
  vector_size gp =
    ((if fit_mean then modeling.vector_size (given mean) else 0) +
     (if fit_white_noise then modeling.vector_size (given noise) else 0) +
     modeling.vector_size (base kernel))%nat /\
  get_parameter "mean:value" gp_mu = (Ok (Some mu), gp_mu).
Proof.
  cbv zeta. split; [reflexivity|]. split; [reflexivity|].
  split; [unfold dirty; cbn; apply orb_true_r|].
  split; [destruct fit_mean, fit_white_noise; reflexivity|].
  split; [destruct fit_mean, fit_white_noise; reflexivity|].
  split; [destruct fit_mean, fit_white_noise; reflexivity|].
  split.
  - unfold vector_size, modeling.vector_size.
    destruct fit_mean, fit_white_noise; cbn; now rewrite ?count_true_none.
  - destruct fit_mean; reflexivity.
Qed.

(** ** The predictive variance and the predictive covariance *)

Lemma zip_rows_same (f : R -> R -> R) (a b : list (list R)) (c : nat) :
  Forall (fun r => List.length r = c) a ->
  Forall (fun r => List.length r = c) b ->
  res_all (np.zip_rows f a b) = Ok (zip_matrix f a b).
Proof.
  intros Ha. revert b. induction Ha as [|r a Hr Ha IH]; intros b Hb; [reflexivity|].
  destruct Hb as [|u b Hu Hb]; [reflexivity|].
  cbn. unfold np.bvec. rewrite Hr, Hu, Nat.eqb_refl. now rewrite IH.
Qed.

Lemma bmat_same (f : R -> R -> R) (a b : list (list R)) (c : nat) :
  List.length a = List.length b ->
  Forall (fun r => List.length r = c) a ->
  Forall (fun r => List.length r = c) b ->
  np.bmat f a b = Ok (zip_matrix f a b).
Proof.
  intros H Ha Hb. unfold np.bmat. rewrite H, Nat.eqb_refl.
  now apply (zip_rows_same f a b c).
Qed.

Lemma length_zip_matrix (f : R -> R -> R) (a b : list (list R)) :
  List.length a = List.length b ->
  List.length (zip_matrix f a b) = List.length a.
Proof.
  revert b. induction a as [|r a IH]; intros [|u b] H; try discriminate;
    [reflexivity|]. cbn. f_equal. apply IH. now injection H.
Qed.

Lemma nth_zip_matrix (f : R -> R -> R) (a b : list (list R)) (i : nat) :
  (i < List.length a)%nat -> (i < List.length b)%nat ->
  nth i (zip_matrix f a b) [] = np.zip_with f (nth i a []) (nth i b []).
Proof.
  revert b i. induction a as [|r a IH]; intros [|u b] i Ha Hb; cbn in *; try lia.
  destruct i as [|i]; [reflexivity|]. apply IH; lia.
Qed.

Lemma nth_zip_with (f : R -> R -> R) (u v : list R) (j : nat) :
  (j < List.length u)%nat -> (j < List.length v)%nat ->
  nth j (np.zip_with f u v) 0 = f (nth j u 0) (nth j v 0).
Proof.
  revert v j. induction u as [|a u IH]; intros [|b v] j Hu Hv; cbn in *; try lia.
  destruct j as [|j]; [reflexivity|]. apply IH; lia.
Qed.

Lemma apply_inverse_clean (ops : solver.Ops) (junk : R) (gp : GP)
    (s : solver.Solver) (t : list R) (y : ndarray) :
  dirty gp = false -> solver gp = Some s -> _t gp = Some (Arr1 t) ->
  np.len y = Ok (List.length t) ->
  apply_inverse ops junk y gp = (Ok (solver.solve ops s y), gp).
Proof.
  intros Hd Hs Ht Hy. unfold apply_inverse.
  step (clean__recompute junk gp Hd). step_get. rewrite Hs. cbn [attr]. step_ret.
  rewrite (bind_closed _ _ _ _ _ (process_input_closed y gp)). rewrite Ht.
  unfold check_input. cbn [np.len]. rewrite Hy, Nat.eqb_refl. reflexivity.
Qed.

Section Variance.

Variable ops : solver.Ops.
Variable junk : R.
Variable gp : GP.
Variable s : solver.Solver.
Variables t y alpha x : list R.
Variable W : list (list R).

Hypothesis Hclean : dirty gp = false.
Hypothesis Hsolver : solver gp = Some s.
Hypothesis Ht : _t gp = Some (Arr1 t).
Hypothesis Hlen_y : List.length y = List.length t.
Hypothesis Ht0 : t <> [].
Hypothesis Hx0 : x <> [].

Let mean_t := List.map (value_at (mean gp) (parameters (mean gp))) t.
Let resid := np.zip_with Rminus y mean_t.

Hypothesis Halpha : np.flatten (solver.solve ops s (Arr1 resid)) = Arr1 alpha.
Hypothesis Hlen_alpha : List.length alpha = List.length t.

Let Kxs := kernel_matrix gp x t.

Hypothesis HW : solver.solve ops s (np.transpose (Arr2 Kxs)) = Arr2 W.
Hypothesis HWrows : List.length W = List.length t.
Hypothesis HWcols : Forall (fun r => List.length r = List.length x) W.

Let mu := Arr1 (np.zip_with Rplus
                  (List.map (value_at (mean gp) (parameters (mean gp))) x)
                  (np.mat_vec Kxs alpha)).

Lemma predict_tail (return_cov return_var : bool) :
  predict ops junk (Arr1 y) (Some (Arr1 x)) return_cov return_var gp =
  (if negb (return_var || return_cov) then ret (Mu mu)
   else if return_var then
     inv <- apply_inverse ops junk (np.transpose (Arr2 Kxs)) ;;
     prod <- lift (np.mul (np.transpose (Arr2 Kxs)) inv) ;;
     total <- lift (np.sum_axis0 prod) ;;
     gp <- get ;;
     var <- lift (np.add (np.neg total) (kernel_value gp (Arr0 0))) ;;
     ret (MuVar mu var)
   else
     gp <- get ;;
     d <- lift (np.outer_sub (Arr1 x) (Arr1 x)) ;;
     inv <- apply_inverse ops junk (np.transpose (Arr2 Kxs)) ;;
     p <- lift (np.dot (Arr2 Kxs) inv) ;;
     cov <- lift (np.sub (kernel_value gp d) p) ;;
     ret (MuCov mu cov)) gp.
Proof.
  unfold predict.
  step (process_input_vector t y gp Ht Hlen_y).
  cbn [np.ndim np.atleast_1d Nat.ltb Nat.leb when].
  step_ret. rewrite bind_assoc. step_ret. step_ret.
  step (clean__recompute junk gp Hclean). step_get.
  step (coords_bound gp (Arr1 t) Ht).
  step (lift_ok _ _ gp (residual gp t y Hlen_y)).
  rewrite Hsolver. cbn [attr]. step_ret.
  fold mean_t. fold resid. rewrite Halpha.
  cbv iota. rewrite bind_assoc.
  step (get_matrix_pair gp x t None). rewrite bind_assoc.
  assert (Hdot : np.dot (Arr2 (kernel_matrix gp x t)) (Arr1 alpha) =
                 Ok (Arr1 (np.mat_vec (kernel_matrix gp x t) alpha))).
  { cbn. replace (forallb _ _) with true; [reflexivity|].
    symmetry. apply forallb_forall. intros r Hr.
    pose proof (rows_kernel_matrix gp x t) as Hf.
    rewrite Forall_forall in Hf. rewrite (Hf r Hr), Hlen_alpha.
    apply Nat.eqb_refl. }
  step (lift_ok _ _ gp Hdot). step_ret. step_get.
  assert (Hadd : np.add (get_value (mean gp) (Arr1 x))
                   (Arr1 (np.mat_vec (kernel_matrix gp x t) alpha)) =
                 Ok (Arr1 (np.zip_with Rplus
                             (List.map (value_at (mean gp) (parameters (mean gp))) x)
                             (np.mat_vec (kernel_matrix gp x t) alpha)))).
  { unfold np.add. cbn. unfold np.bvec.
    now rewrite length_mat_vec, length_kernel_matrix, length_map, Nat.eqb_refl. }
  step (lift_ok _ _ gp Hadd).
  destruct (negb (return_var || return_cov)); [reflexivity|].
  step_ret. reflexivity.
Qed.

Let KT := List.map (fun j => np.column j Kxs) (seq 0 (List.length t)).

Lemma transpose_cross : np.transpose (Arr2 Kxs) = Arr2 KT.
Proof.
  unfold np.transpose, KT. do 3 f_equal. unfold np.ncols, Kxs.
  destruct x as [|a x']; [contradiction|].
  cbn. now rewrite length_map.
Qed.

Lemma rows_KT : Forall (fun r => List.length r = List.length x) KT.
Proof.
  apply Forall_forall. intros r Hr. unfold KT in Hr.
  apply in_map_iff in Hr as (j & <- & _). unfold np.column, Kxs.
  now rewrite length_map, length_kernel_matrix.
Qed.

Lemma length_KT : List.length KT = List.length t.
Proof. unfold KT. now rewrite length_map, length_seq. Qed.

Let P := zip_matrix Rmult KT W.
Let var := List.map (fun a => - a + covariance_function gp 0)
             (List.map (fun j => np.rsum (np.column j P)) (seq 0 (List.length x))).
Let P2 := List.map (fun r => List.map (fun j => np.inner r (np.column j W))
                               (seq 0 (List.length x))) Kxs.
Let cov := zip_matrix Rminus (kernel_matrix gp x x) P2.

Lemma inverse_cross :
  apply_inverse ops junk (np.transpose (Arr2 Kxs)) gp = (Ok (Arr2 W), gp).
Proof.
  rewrite <- HW. apply (apply_inverse_clean ops junk gp s t); try assumption.
  rewrite transpose_cross. cbn. now rewrite length_KT.
Qed.

Lemma predict_variance (return_cov : bool) :
  predict ops junk (Arr1 y) (Some (Arr1 x)) return_cov true gp =
  (Ok (MuVar mu (Arr1 var)), gp).
Proof.
  rewrite predict_tail. cbn [orb negb].
  step inverse_cross.
  assert (Hmul : np.mul (np.transpose (Arr2 Kxs)) (Arr2 W) = Ok (Arr2 P)).
  { rewrite transpose_cross. unfold np.mul. cbn [np.binop].
    rewrite (bmat_same Rmult KT W (List.length x));
      [reflexivity | now rewrite length_KT | apply rows_KT | exact HWcols]. }
  step (lift_ok _ _ gp Hmul).
  assert (Hcols : np.ncols P = List.length x).
  { unfold np.ncols, P. pose proof length_KT as HK. pose proof rows_KT as HR.
    destruct KT as [|r KT']; [cbn in HK; destruct t; [contradiction|discriminate]|].
    destruct W as [|w W']; [cbn in HWrows; destruct t; [contradiction|discriminate]|].
    cbn. inversion HR; subst. inversion HWcols; subst.
    rewrite length_zip_with; congruence. }
  cbn [np.sum_axis0]. rewrite Hcols.
  step (lift_ok _ _ gp (eq_refl (Ok (Arr1 (List.map (fun j => np.rsum (np.column j P))
                                   (seq 0 (List.length x))))))).
  step_get.
  unfold bind, lift, ret. cbn. unfold var. rewrite (List.map_map Ropp).
  reflexivity.
Qed.

Lemma predict_covariance :
  predict ops junk (Arr1 y) (Some (Arr1 x)) true false gp =
  (Ok (MuCov mu (Arr2 cov)), gp).
Proof.
  rewrite predict_tail. cbn [orb negb].
  step_get. destruct (kernel_value_outer gp x x) as [Eo Ek].
  step (lift_ok _ _ gp Eo). rewrite Ek.
  step inverse_cross.
  assert (Hn : W <> []).
  { intros ->. cbn in HWrows. destruct t; [contradiction|discriminate]. }
  assert (Hcols : np.ncols W = List.length x).
  { unfold np.ncols. destruct W as [|w W']; [contradiction|].
    now inversion HWcols. }
  assert (Hdot : np.dot (Arr2 Kxs) (Arr2 W) = Ok (Arr2 P2)).
  { cbn [np.dot]. rewrite Hcols.
    replace (forallb _ Kxs) with true; [reflexivity|].
    symmetry. apply forallb_forall. intros r Hr.
    pose proof (rows_kernel_matrix gp x t) as Hf.
    rewrite Forall_forall in Hf. rewrite (Hf r Hr), HWrows.
    apply Nat.eqb_refl. }
  step (lift_ok _ _ gp Hdot).
  assert (Hsub : np.sub (Arr2 (kernel_matrix gp x x)) (Arr2 P2) = Ok (Arr2 cov)).
  { unfold np.sub. cbn [np.binop].
    rewrite (bmat_same Rminus _ _ (List.length x)); [reflexivity| | |].
    - unfold P2, Kxs. now rewrite length_map, !length_kernel_matrix.
    - apply rows_kernel_matrix.
    - apply Forall_forall. intros r Hr. unfold P2 in Hr.
      apply in_map_iff in Hr as (r' & <- & _).
      now rewrite length_map, length_seq. }
  step (lift_ok _ _ gp Hsub). reflexivity.
Qed.

Lemma length_var : List.length var = List.length x.
Proof. unfold var. now rewrite !length_map, length_seq. Qed.

Lemma length_cov : List.length cov = List.length x.
Proof.
  unfold cov. rewrite length_zip_matrix; [apply length_kernel_matrix|].
  unfold P2, Kxs. now rewrite length_map, !length_kernel_matrix.
Qed.

Lemma column_products (j : nat) :
  (j < List.length x)%nat ->
  np.column j P = np.zip_with Rmult (nth j Kxs []) (np.column j W).
Proof.
  intros Hj.
  assert (Hr : List.length (nth j Kxs []) = List.length t).
  { pose proof (rows_kernel_matrix gp x t) as Hf. rewrite Forall_forall in Hf.
    apply Hf, nth_In. unfold Kxs. now rewrite length_kernel_matrix. }
  assert (HP : List.length P = List.length t).
  { unfold P. rewrite length_zip_matrix; rewrite length_KT; congruence. }
  apply (nth_ext _ _ 0 0).
  - unfold np.column at 1. rewrite length_map, HP.
    rewrite length_zip_with; [congruence|].
    unfold np.column. rewrite length_map. congruence.
  - unfold np.column. rewrite length_map, HP. intros i Hi.
    rewrite (nth_map_in _ P i [] 0) by congruence.
    unfold P. rewrite nth_zip_matrix by (rewrite ?length_KT; congruence).
    assert (HWi : List.length (nth i W []) = List.length x).
    { rewrite Forall_forall in HWcols. apply HWcols, nth_In. congruence. }
    assert (HKi : nth i KT [] = np.column i Kxs).
    { unfold KT. rewrite (nth_map_in _ _ i 0%nat []) by (now rewrite length_seq).
      now rewrite seq_nth. }
    rewrite HKi.
    assert (HKl : List.length (np.column i Kxs) = List.length x)
      by (unfold np.column, Kxs; now rewrite length_map, length_kernel_matrix).
    rewrite nth_zip_with by congruence.
    rewrite nth_zip_with by (rewrite ?length_map; congruence).
    unfold np.column.
    rewrite (nth_map_in _ Kxs j [] 0)
      by (unfold Kxs; now rewrite length_kernel_matrix).
    rewrite (nth_map_in _ W i [] 0) by congruence.
    reflexivity.
Qed.

Lemma variance_diagonal (j : nat) :
  (j < List.length x)%nat -> nth j var 0 = entry cov j j.
Proof.
  intros Hj. unfold var.
  rewrite (nth_map_in _ _ j 0 0) by (now rewrite length_map, length_seq).
  rewrite (nth_map_in _ _ j 0%nat 0) by (now rewrite length_seq).
  rewrite seq_nth by exact Hj. cbn [Nat.add].
  unfold entry, cov.
  rewrite nth_zip_matrix.
  2: now rewrite length_kernel_matrix.
  2: unfold P2, Kxs; now rewrite length_map, length_kernel_matrix.
  assert (HP2 : nth j P2 [] =
                List.map (fun j' => np.inner (nth j Kxs []) (np.column j' W))
                         (seq 0 (List.length x))).
  { unfold P2. rewrite (nth_map_in _ Kxs j [] []); [reflexivity|].
    unfold Kxs. now rewrite length_kernel_matrix. }
  rewrite HP2.
  rewrite nth_zip_with.
  2: { pose proof (rows_kernel_matrix gp x x) as Hf. rewrite Forall_forall in Hf.
       rewrite (Hf (nth j (kernel_matrix gp x x) [])); [exact Hj|].
       apply nth_In. now rewrite length_kernel_matrix. }
  2: now rewrite length_map, length_seq.
  rewrite (nth_map_in _ _ j 0%nat 0) by (now rewrite length_seq).
  rewrite seq_nth by exact Hj. cbn [Nat.add].
  change (nth j (nth j (kernel_matrix gp x x) []) 0)
    with (entry (kernel_matrix gp x x) j j).
  rewrite entry_kernel_matrix.
  replace (j <? List.length x)%nat with true by (symmetry; now apply Nat.ltb_lt).
  cbn [andb]. replace (nth j x 0 - nth j x 0) with 0 by ring.
  unfold np.inner. rewrite (column_products j Hj). ring.
Qed.

End Variance.

(** X20: the predictive variance is the diagonal of the predictive
    covariance.  On a clean object with bound one-dimensional coordinates
    [t], for a vector [y] of the length of [t] and coordinates [x] (both
    lists non-empty), and for a solver whose [solve] returns a vector for the
    residual and, for the transposed cross-covariance, a matrix of its shape
    ([len(t)] rows of [len(x)] entries): [predict(y, t=x, return_var=True)]
    and [predict(y, t=x, return_cov=True)] return and leave the object as it
    is, they return the same mean, the variance has one entry and the
    covariance one row per coordinate of [x], and the [j]-th variance is the
    [j]-th diagonal entry of the covariance. *)
Theorem variance_is_covariance_diagonal (ops : solver.Ops) (junk : R) (gp : GP)
    (s : solver.Solver) (t y alpha x : list R) (W : list (list R)) :
  dirty gp = false ->
  solver gp = Some s ->
  _t gp = Some (Arr1 t) ->
  List.length y = List.length t ->
  t <> [] ->
  x <> [] ->
  np.flatten
    (solver.solve ops s
       (Arr1 (np.zip_with Rminus y
                (List.map (value_at (mean gp) (parameters (mean gp))) t)))) =
    Arr1 alpha ->
  List.length alpha = List.length t ->
  solver.solve ops s (np.transpose (Arr2 (kernel_matrix gp x t))) = Arr2 W ->
  List.length W = List.length t ->
  Forall (fun r => List.length r = List.length x) W ->
  exists mu var cov,
    (forall return_cov,
       predict ops junk (Arr1 y) (Some (Arr1 x)) return_cov true gp =
       (Ok (MuVar mu (Arr1 var)), gp)) /\
    predict ops junk (Arr1 y) (Some (Arr1 x)) true false gp =
      (Ok (MuCov mu (Arr2 cov)), gp) /\
    List.length var = List.length x /\
    List.length cov = List.length x /\
    (forall j, (j < List.length x)%nat -> nth j var 0 = entry cov j j).
Proof.
  intros Hd Hs Ht Hy Ht0 Hx0 Ha Hla HW HWr HWc.
  eexists _, _, _. split; [|split; [|split; [|split]]].
  - intros rc.
    apply (predict_variance ops junk gp s t y alpha x W); assumption.
  - apply (predict_covariance ops junk gp s t y alpha x W); assumption.
  - apply (length_var gp t x W).
  - apply (length_cov gp t x W).
  - apply (variance_diagonal gp t x W); assumption.
Qed.

Lemma variance_is_covariance_diagonal_witness :
  exists mu var cov,
    predict dense.ops 0 (Arr1 [4]) (Some (Arr1 [2])) false true examples.biased_gp =
      (Ok (MuVar mu (Arr1 var)), examples.biased_gp) /\
    predict dense.ops 0 (Arr1 [4]) (Some (Arr1 [2])) true false examples.biased_gp =
      (Ok (MuCov mu (Arr2 cov)), examples.biased_gp) /\
    nth 0%nat var 0 = entry cov 0 0.
Proof.
  assert (Hn : forall a : R, [a] <> []) by (intros a H; discriminate H).
  edestruct (variance_is_covariance_diagonal dense.ops 0 examples.biased_gp
               examples.biased_solver [0] [4] _ [2] _
               eq_refl eq_refl eq_refl eq_refl (Hn 0) (Hn 2)
               eq_refl eq_refl eq_refl eq_refl)
    as (mu & var & cov & Hv & Hc & _ & _ & Hdiag).
  { cbn. repeat constructor. }
  exists mu, var, cov. split; [apply Hv|]. split; [exact Hc|].
  apply Hdiag. cbn. lia.
Defined.
